(** * WCAG contrast engine of genUI (src/a11y/contrast.ts)

    A shallow embedding of the colour-contrast utility: hex parsing and
    formatting, relative luminance, contrast ratio, the pass/fail policy and
    the deterministic snapping engine.

    JavaScript numbers are IEEE-754 binary64 values; they are modelled by the
    kernel's primitive floats, so every arithmetic step rounds as the source
    does.  The only platform function without a bit-exact definition,
    [Math.pow], is a parameter of the engine: every theorem holds for any
    implementation of it, and the runs on concrete colours use the
    implementation of [PowModel].  (The range of the contrast ratio is the
    one statement that asks something of [Math.pow]: that its values stay
    in range on the bases the engine passes.)  Strings are sequences of
    8-bit characters and stand for the strings of ASCII characters of the
    source, on which [toUpperCase] changes the letters a-z only; what is
    stated of the strings the parser rejects is stated of ASCII strings.
    A [throw] is a result of its own: every function that can raise returns
    a [result].

    The second part embeds the caller of the engine, the theme guard of
    src/a11y/theme-guard.ts: the table of semantic pairs, the focus-ring
    validation and [sanitizeThemeTokens].  A token set is the list of its
    properties in key order; number formatting inside messages is left to
    the platform. *)

From Stdlib Require Import ZArith Bool List String Ascii Lia.
From Stdlib Require Import Permutation Sorted.
From Stdlib Require Import Floats.
From Stdlib Require Uint63.
Import ListNotations.

Set Warnings "-inexact-float".
Local Open Scope string_scope.

(** ** Exceptions *)

(** The source raises [new Error(...)] at the parsing boundary; reading a
    property of [undefined] raises a [TypeError]. *)
Inductive exn : Type :=
  | Error (message : string)
  | TypeError.

Inductive result (A : Type) : Type :=
  | OK (a : A)
  | Throw (e : exn).
Arguments OK {A} a.
Arguments Throw {A} e.

Definition bind {A B : Type} (m : result A) (k : A -> result B) : result B :=
  match m with
  | OK a => k a
  | Throw e => Throw e
  end.

Notation "x <- m ;; k" := (bind m (fun x => k))
  (at level 61, m at next level, right associativity).

(** The value of a computation, or [default] if it raised. *)
Definition valueOr {A : Type} (default : A) (m : result A) : A :=
  match m with
  | OK a => a
  | Throw _ => default
  end.

(** ** Strings *)

Module Str.

(** [s.replace('#', '')]: only the first occurrence is removed, wherever it
    stands. *)
Fixpoint replaceFirstHash (s : string) : string :=
  match s with
  | EmptyString => EmptyString
  | String c rest =>
      if Ascii.eqb c "#"%char then rest else String c (replaceFirstHash rest)
  end.

Definition isLower (c : ascii) : bool :=
  let n := nat_of_ascii c in (97 <=? n)%nat && (n <=? 122)%nat.

Definition upperChar (c : ascii) : ascii :=
  if isLower c then ascii_of_nat (nat_of_ascii c - 32) else c.

(** [s.toUpperCase()] on a string of ASCII characters.  (Outside ASCII
    the platform applies the Unicode case mapping, which can lengthen a
    string and produce hexadecimal digits: the ligature U+FB00 becomes FF.
    That mapping is not modelled.) *)
Fixpoint toUpperCase (s : string) : string :=
  match s with
  | EmptyString => EmptyString
  | String c rest => String (upperChar c) (toUpperCase rest)
  end.

(** The character class [[0-9A-F]]. *)
Definition isHexUpper (c : ascii) : bool :=
  let n := nat_of_ascii c in
  ((48 <=? n)%nat && (n <=? 57)%nat) || ((65 <=? n)%nat && (n <=? 70)%nat).

Fixpoint forallChars (p : ascii -> bool) (s : string) : bool :=
  match s with
  | EmptyString => true
  | String c rest => p c && forallChars p rest
  end.

(** [/^[0-9A-F]{3}$|^[0-9A-F]{6}$/.test(s)] *)
Definition testHexPattern (s : string) : bool :=
  ((String.length s =? 3)%nat || (String.length s =? 6)%nat)
  && forallChars isHexUpper s.

(** [s[i]] as a one-character string (the index is in range wherever the
    source uses it). *)
Definition charAt (s : string) (i : nat) : string := substring i 1 s.

(** [s.padStart(2, '0')] *)
Definition padStart2 (s : string) : string :=
  match String.length s with
  | 0%nat => "00"
  | 1%nat => "0" ++ s
  | _ => s
  end.

Definition hexDigitChar (d : Z) : ascii :=
  if (d <? 10)%Z then ascii_of_nat (48 + Z.to_nat d)
  else ascii_of_nat (87 + Z.to_nat d).

(** Lower-case hexadecimal digits of a non-negative integer, most
    significant first; [fuel] bounds the number of digits. *)
Fixpoint hexDigits (fuel : nat) (n : Z) (acc : string) : string :=
  match fuel with
  | O => acc
  | S fuel' =>
      let acc' := String (hexDigitChar (n mod 16)) acc in
      if (n / 16 =? 0)%Z then acc' else hexDigits fuel' (n / 16) acc'
  end.

Definition hexDigitValue (c : ascii) : option Z :=
  let n := nat_of_ascii c in
  if (48 <=? n)%nat && (n <=? 57)%nat then Some (Z.of_nat n - 48)%Z
  else if (65 <=? n)%nat && (n <=? 70)%nat then Some (Z.of_nat n - 55)%Z
  else if (97 <=? n)%nat && (n <=? 102)%nat then Some (Z.of_nat n - 87)%Z
  else None.

(** Value of the longest prefix of hexadecimal digits, if there is one. *)
Fixpoint hexPrefixValue (s : string) (acc : option Z) : option Z :=
  match s with
  | EmptyString => acc
  | String c rest =>
      match hexDigitValue c with
      | Some d =>
          hexPrefixValue rest
            (Some (match acc with Some a => 16 * a + d | None => d end)%Z)
      | None => acc
      end
  end.

End Str.

(** ** JavaScript numbers *)

Module JS.
Local Open Scope float_scope.

(** Comparison operators of the source, on numbers. *)
Definition geb (a b : float) : bool := b <=? a.   (* a >= b *)
Definition gtb (a b : float) : bool := b <? a.    (* a > b  *)
Definition strictEq (a b : float) : bool := a =? b.  (* a === b *)

(** The number with the given (small) integer value. *)
Definition ofZ (n : Z) : float :=
  if (n <? 0)%Z then - of_uint63 (Uint63.of_Z (- n))
  else of_uint63 (Uint63.of_Z n).

(** [parseInt(s, 16)] on a string without sign, blanks or [0x] prefix:
    the value of the leading hexadecimal digits, [NaN] when there is
    none. *)
Definition parseInt16 (s : string) : float :=
  match Str.hexPrefixValue s None with
  | Some n => ofZ n
  | None => nan
  end.

Definition isNegZero (a : float) : bool :=
  match Prim2SF a with
  | S754_zero true => true
  | _ => false
  end.

(** [Math.max(a, b)]: [NaN] if either is, and [+0] is larger than [-0]. *)
Definition Math_max (a b : float) : float :=
  match a ?= b with
  | FLt => b
  | FGt => a
  | FEq => if isNegZero a then b else a
  | FNotComparable => nan
  end.

(** [Math.min(a, b)]: [NaN] if either is, and [-0] is smaller than [+0]. *)
Definition Math_min (a b : float) : float :=
  match a ?= b with
  | FLt => a
  | FGt => b
  | FEq => if isNegZero a then a else b
  | FNotComparable => nan
  end.

Definition Math_max3 (a b c : float) : float := Math_max (Math_max a b) c.
Definition Math_min3 (a b c : float) : float := Math_min (Math_min a b) c.

Definition Math_abs (a : float) : float := abs a.

(** [Math.round(x)]: the integer nearest to [x], ties towards +infinity;
    [NaN], the infinities and integers are returned unchanged, and a
    result of zero keeps the sign of [x].  Computed exactly on the
    mantissa and exponent of [x] as [floor(x + 1/2)]. *)
Definition Math_round (x : float) : float :=
  match Prim2SF x with
  | S754_finite s m e =>
      if (0 <=? e)%Z then x
      else
        let sm := if s then Zneg m else Zpos m in
        let n := ((2 * sm + 2 ^ (- e)) / 2 ^ (1 - e))%Z in
        if (n =? 0)%Z then (if s then neg_zero else zero) else ofZ n
  | _ => x
  end.

(** [x.toString(16)] for the values [Math.round] can return: [NaN], the
    infinities and integers.  (For a number with a fractional part, which
    [Math.round] never returns, only the integer digits are produced.) *)
Definition toString16 (x : float) : string :=
  match Prim2SF x with
  | S754_nan => "NaN"
  | S754_infinity false => "Infinity"
  | S754_infinity true => "-Infinity"
  | S754_zero _ => "0"
  | S754_finite s m e =>
      let n := (if (0 <=? e)%Z then Zpos m * 2 ^ e
                else Zpos m / 2 ^ (- e))%Z in
      let digits := Str.hexDigits 256 n EmptyString in
      if s && negb (n =? 0)%Z then "-" ++ digits else digits
  end.

(** A number that is neither zero, infinite nor [NaN]. *)
Definition isFiniteNonZero (x : float) : bool :=
  match Prim2SF x with
  | S754_finite _ _ _ => true
  | _ => false
  end.

End JS.

(** ** Data model *)

Record RGB : Type := mkRGB { r : float; g : float; b : float }.

Record HSL : Type := mkHSL { h : float; s : float; l : float }.

(** Optional boolean fields: [None] is an omitted field ([undefined]). *)
Definition truthy (f : option bool) : bool :=
  match f with
  | Some true => true
  | _ => false
  end.

Record ContrastOptions : Type := mkContrastOptions {
  isLargeText : option bool;
  uiComponent : option bool
}.

Record SnapOptions : Type := mkSnapOptions {
  contrastOptions :> ContrastOptions;
  lockHue : option bool;
  lockChroma : option bool;
  preferForegroundAdjust : option bool;
  preferBackgroundAdjust : option bool
}.

(** The empty options object [{}]. *)
Definition noContrastOptions : ContrastOptions := mkContrastOptions None None.
Definition noSnapOptions : SnapOptions :=
  mkSnapOptions noContrastOptions None None None None.

Inductive Side : Type := Fg | Bg.

Record SnapResult : Type := mkSnapResult {
  fg : string;
  bg : string;
  ratio : float;
  clamped : option bool;
  adjusted : option Side;
  iterations : option nat
}.

(** The four adjustment paths. *)
Inductive Path : Type := FgLighten | FgDarken | BgDarken | BgLighten.

(** [path.startsWith('fg')] *)
Definition startsWithFg (p : Path) : bool :=
  match p with
  | FgLighten | FgDarken => true
  | BgDarken | BgLighten => false
  end.

(** [path.startsWith('bg')] *)
Definition startsWithBg (p : Path) : bool := negb (startsWithFg p).

(** What one binary search returns. *)
Record SearchResult : Type := mkSearchResult {
  sr_rgb : RGB;
  sr_ratio : float;
  sr_iterations : nat
}.

Record Candidate : Type := mkCandidate {
  c_rgb : RGB;
  c_ratio : float;
  c_iterations : nat;
  c_path : Path
}.

Record CandidateWithChange : Type := mkCandidateWithChange {
  candidate :> Candidate;
  change : float
}.

Definition withPath (sr : SearchResult) (p : Path) : Candidate :=
  mkCandidate (sr_rgb sr) (sr_ratio sr) (sr_iterations sr) p.

(** ** Constants *)

Definition EPSILON : float := 1e-3.
Definition NORMAL_TEXT_THRESHOLD : float := 4.5.
Definition LARGE_TEXT_THRESHOLD : float := 3.0.

(** ** The engine *)

Section Engine.

Local Open Scope float_scope.

(** [Math.pow]: the ECMAScript standard leaves its precision to the
    implementation, so the engine is parameterised by it. *)
Variable Math_pow : float -> float -> float.

(** *** Colour conversion *)

Definition formatErrorMessage (hex : string) : string :=
  ("Invalid hex color format: " ++ hex
     ++ ". Expected #RGB or #RRGGBB format.")%string.

Definition hexToRgb (hex : string) : result RGB :=
  let cleanHex := Str.toUpperCase (Str.replaceFirstHash hex) in
  if negb (Str.testHexPattern cleanHex) then
    Throw (Error (formatErrorMessage hex))
  else if (String.length cleanHex =? 3)%nat then
    OK {| r := JS.parseInt16 (Str.charAt cleanHex 0 ++ Str.charAt cleanHex 0);
          g := JS.parseInt16 (Str.charAt cleanHex 1 ++ Str.charAt cleanHex 1);
          b := JS.parseInt16 (Str.charAt cleanHex 2 ++ Str.charAt cleanHex 2) |}
  else
    OK {| r := JS.parseInt16 (substring 0 2 cleanHex);
          g := JS.parseInt16 (substring 2 2 cleanHex);
          b := JS.parseInt16 (substring 4 2 cleanHex) |}.

Definition toHex (n : float) : string :=
  Str.toUpperCase
    (Str.padStart2
       (JS.toString16 (JS.Math_round (JS.Math_max 0 (JS.Math_min 255 n))))).

Definition rgbToHex (rgb : RGB) : string :=
  ("#" ++ toHex (r rgb) ++ toHex (g rgb) ++ toHex (b rgb))%string.

(** *** Luminance and contrast ratio *)

(** The gamma correction applied to each channel. *)
Definition linearize (c : float) : float :=
  if c <=? 0.03928 then c / 12.92
  else Math_pow ((c + 0.055) / 1.055) 2.4.

Definition relativeLuminanceRgb (rgb : RGB) : float :=
  let rsRGB := r rgb / 255 in
  let gsRGB := g rgb / 255 in
  let bsRGB := b rgb / 255 in
  0.2126 * linearize rsRGB + 0.7152 * linearize gsRGB
  + 0.0722 * linearize bsRGB.

(** [relativeLuminance] accepts an RGB object or a hex string. *)
Definition relativeLuminance (color : RGB + string) : result float :=
  rgb <- match color with
         | inl rgb => OK rgb
         | inr hex => hexToRgb hex
         end ;;
  OK (relativeLuminanceRgb rgb).

Definition contrastRatio (fgHex bgHex : string) : result float :=
  fgLuminance <- relativeLuminance (inr fgHex) ;;
  bgLuminance <- relativeLuminance (inr bgHex) ;;
  let lighter := JS.Math_max fgLuminance bgLuminance in
  let darker := JS.Math_min fgLuminance bgLuminance in
  OK ((lighter + 0.05) / (darker + 0.05)).

(** *** Threshold policy *)

(** The threshold both [passesContrast] and [snapToPassingColor]
    compute from the option flags. *)
Definition requiredThreshold (opts : ContrastOptions) : float :=
  if truthy (isLargeText opts) || truthy (uiComponent opts)
  then LARGE_TEXT_THRESHOLD
  else NORMAL_TEXT_THRESHOLD.

Definition passesContrast (fgHex bgHex : string) (opts : ContrastOptions)
  : result bool :=
  ratio <- contrastRatio fgHex bgHex ;;
  let threshold := requiredThreshold opts in
  OK (JS.geb ratio (threshold - EPSILON)).

(** *** HSL *)

Definition rgbToHsl (rgb : RGB) : HSL :=
  let r := r rgb / 255 in
  let g := g rgb / 255 in
  let b := b rgb / 255 in
  let max := JS.Math_max3 r g b in
  let min := JS.Math_min3 r g b in
  let diff := max - min in
  let l := (max + min) / 2 in
  if negb (JS.strictEq diff 0) then
    let s := if JS.gtb l 0.5 then diff / (2 - max - min)
             else diff / (max + min) in
    let h :=
      if JS.strictEq max r then (g - b) / diff + (if g <? b then 6 else 0)
      else if JS.strictEq max g then (b - r) / diff + 2
      else if JS.strictEq max b then (r - g) / diff + 4
      else 0 in
    let h := h / 6 in
    {| h := h * 360; s := s * 100; l := l * 100 |}
  else
    {| h := 0 * 360; s := 0 * 100; l := l * 100 |}.

Definition hue2rgb (p q t : float) : float :=
  let t := if t <? 0 then t + 1 else t in
  let t := if JS.gtb t 1 then t - 1 else t in
  if t <? 1 / 6 then p + (q - p) * 6 * t
  else if t <? 1 / 2 then q
  else if t <? 2 / 3 then p + (q - p) * (2 / 3 - t) * 6
  else p.

Definition hslToRgb (hsl : HSL) : RGB :=
  let h := h hsl / 360 in
  let s := s hsl / 100 in
  let l := l hsl / 100 in
  let '(r, g, b) :=
    if JS.strictEq s 0 then (l, l, l)
    else
      let q := if l <? 0.5 then l * (1 + s) else l + s - l * s in
      let p := 2 * l - q in
      (hue2rgb p q (h + 1 / 3), hue2rgb p q h, hue2rgb p q (h - 1 / 3)) in
  {| r := JS.Math_round (r * 255);
     g := JS.Math_round (g * 255);
     b := JS.Math_round (b * 255) |}.

(** *** Binary search over lightness *)

(** The variables the search loop updates. *)
Record SearchState : Type := mkSearchState {
  minL : float;
  maxL : float;
  bestRgb : RGB;
  bestRatio : float;
  iterationCount : nat
}.

(** The ratio the loop body computes for the midpoint colour. *)
Definition testRatioOf (otherRgb : RGB) (isForeground : bool) (testRgb : RGB)
  : result float :=
  let fgRgb := if isForeground then testRgb else otherRgb in
  let bgRgb := if isForeground then otherRgb else testRgb in
  contrastRatio (rgbToHex fgRgb) (rgbToHex bgRgb).

(** One pass through the loop body, up to the early-termination test. *)
Definition searchStep (originalHsl : HSL) (otherRgb : RGB) (threshold : float)
    (isForeground isLightening : bool) (st : SearchState)
  : result SearchState :=
  let iterations := S (iterationCount st) in
  let midL := (minL st + maxL st) / 2 in
  let testHsl := {| h := h originalHsl; s := s originalHsl; l := midL |} in
  let testRgb := hslToRgb testHsl in
  testRatio <- testRatioOf otherRgb isForeground testRgb ;;
  if JS.geb testRatio threshold then
    if isLightening
    then OK (mkSearchState (minL st) midL testRgb testRatio iterations)
    else OK (mkSearchState midL (maxL st) testRgb testRatio iterations)
  else
    if isLightening
    then OK (mkSearchState midL (maxL st) (bestRgb st) (bestRatio st)
               iterations)
    else OK (mkSearchState (minL st) midL (bestRgb st) (bestRatio st)
               iterations).

(** The [for] loop with [remaining] passes left; it stops early when the
    interval is narrower than 0.1. *)
Fixpoint searchLoop (originalHsl : HSL) (otherRgb : RGB) (threshold : float)
    (isForeground isLightening : bool) (remaining : nat) (st : SearchState)
  : result SearchState :=
  match remaining with
  | O => OK st
  | S remaining' =>
      st' <- searchStep originalHsl otherRgb threshold
               isForeground isLightening st ;;
      if JS.Math_abs (maxL st' - minL st') <? 0.1 then OK st'
      else searchLoop originalHsl otherRgb threshold
             isForeground isLightening remaining' st'
  end.

Definition searchInit (originalHsl : HSL) (otherRgb : RGB)
    (isLightening : bool) : result SearchState :=
  let minL := if isLightening then l originalHsl else 0 in
  let maxL := if isLightening then 100 else l originalHsl in
  let bestRgb := hslToRgb originalHsl in
  bestRatio <- contrastRatio (rgbToHex bestRgb) (rgbToHex otherRgb) ;;
  OK (mkSearchState minL maxL bestRgb bestRatio 0).

Definition binarySearchLightness (originalHsl : HSL) (otherRgb : RGB)
    (threshold : float) (isForeground isLightening : bool)
    (maxIterations : nat) : result SearchResult :=
  st0 <- searchInit originalHsl otherRgb isLightening ;;
  st <- searchLoop originalHsl otherRgb threshold
          isForeground isLightening maxIterations st0 ;;
  OK (mkSearchResult (bestRgb st) (bestRatio st) (iterationCount st)).

(** The default of the [maxIterations] parameter. *)
Definition defaultMaxIterations : nat := 7.

(** *** The snapping engine *)

(** The filter of the passing candidates. *)
Definition meetsThreshold (threshold : float) (c : Candidate) : bool :=
  JS.geb (c_ratio c) (threshold - EPSILON).

(** The lightness change attached to a passing candidate. *)
Definition addChange (fgHsl bgHsl : HSL) (c : Candidate)
  : CandidateWithChange :=
  let change :=
    if startsWithFg (c_path c)
    then JS.Math_abs (l fgHsl - l (rgbToHsl (c_rgb c)))
    else JS.Math_abs (l bgHsl - l (rgbToHsl (c_rgb c))) in
  mkCandidateWithChange c change.

(** [Array.prototype.sort] with the comparator [(a, b) => a.change -
    b.change].  The sort is stable: an element moves in front of another
    only when the comparator is negative.  (An insertion sort; on a
    consistent comparator every stable sort returns the same array.) *)
Fixpoint insertByChange (x : CandidateWithChange)
    (sorted : list CandidateWithChange) : list CandidateWithChange :=
  match sorted with
  | [] => [x]
  | y :: rest =>
      if change x - change y <? 0 then x :: y :: rest
      else y :: insertByChange x rest
  end.

Definition sortByChange (cs : list CandidateWithChange)
  : list CandidateWithChange :=
  fold_left (fun sorted x => insertByChange x sorted) cs [].

(** The candidates whose change is within 0.5 of the minimal one. *)
Definition similarTo (minChange : float) (c : CandidateWithChange) : bool :=
  JS.Math_abs (change c - minChange) <=? 0.5.

(** [similarCandidates.find(c => c.path.startsWith(..)) ||
    similarCandidates[0]]; [None] is [undefined]. *)
Definition findOrFirst (p : Path -> bool)
    (similarCandidates : list CandidateWithChange)
  : option CandidateWithChange :=
  match find (fun c : CandidateWithChange => p (c_path c))
          similarCandidates with
  | Some c => Some c
  | None => hd_error similarCandidates
  end.

(** The tie-breaking among the candidates of similar minimal change. *)
Definition breakTie (opts : SnapOptions)
    (similarCandidates : list CandidateWithChange)
  : option CandidateWithChange :=
  if (1 <? List.length similarCandidates)%nat then
    if truthy (preferForegroundAdjust opts)
       && negb (truthy (preferBackgroundAdjust opts))
    then findOrFirst startsWithFg similarCandidates
    else if truthy (preferBackgroundAdjust opts)
            && negb (truthy (preferForegroundAdjust opts))
    then findOrFirst startsWithBg similarCandidates
    else findOrFirst startsWithFg similarCandidates
  else hd_error similarCandidates.

(** The tie zone of the passing candidates. *)
Definition similarCandidatesOf (fgHsl bgHsl : HSL)
    (passingCandidates : list Candidate) : list CandidateWithChange :=
  let candidatesWithChange :=
    sortByChange (map (addChange fgHsl bgHsl) passingCandidates) in
  match candidatesWithChange with
  | [] => []
  | first :: _ =>
      let minChange := change first in
      filter (similarTo minChange) candidatesWithChange
  end.

(** [candidates.reduce((best, current) =>
      current.ratio > best.ratio ? current : best)] *)
Definition bestAchievable (candidates : list Candidate) : option Candidate :=
  match candidates with
  | [] => None
  | first :: rest =>
      Some (fold_left
              (fun best current =>
                 if JS.gtb (c_ratio current) (c_ratio best)
                 then current else best)
              rest first)
  end.

(** The choice of [bestCandidate] and of the [clamped] flag; [None] is an
    [undefined] best candidate. *)
Definition chooseCandidate (opts : SnapOptions) (threshold : float)
    (fgHsl bgHsl : HSL) (candidates : list Candidate)
  : option Candidate * bool :=
  let passingCandidates := filter (meetsThreshold threshold) candidates in
  if (0 <? List.length passingCandidates)%nat then
    (option_map candidate
       (breakTie opts (similarCandidatesOf fgHsl bgHsl passingCandidates)),
     false)
  else (bestAchievable candidates, true).

(** The last part of [snapToPassingColor]: the best candidate replaces one
    side and the result is assembled. *)
Definition applyCandidate (fgRgb bgRgb : RGB) (bestCandidate : option Candidate)
    (clamped : bool) : result SnapResult :=
  match bestCandidate with
  | None => Throw TypeError
  | Some best =>
      let '(fgRgb, bgRgb, adjusted) :=
        if startsWithFg (c_path best)
        then (c_rgb best, bgRgb, Fg)
        else (fgRgb, c_rgb best, Bg) in
      finalRatio <- contrastRatio (rgbToHex fgRgb) (rgbToHex bgRgb) ;;
      OK {| fg := rgbToHex fgRgb;
            bg := rgbToHex bgRgb;
            ratio := finalRatio;
            clamped := Some clamped;
            adjusted := Some adjusted;
            iterations := Some (c_iterations best) |}
  end.

(** The four searches, in the order the source builds the array. *)
Definition searchCandidates (fgRgb bgRgb : RGB) (threshold : float)
  : result (list Candidate) :=
  let fgHsl := rgbToHsl fgRgb in
  let bgHsl := rgbToHsl bgRgb in
  a <- binarySearchLightness fgHsl bgRgb threshold true true
         defaultMaxIterations ;;
  b <- binarySearchLightness fgHsl bgRgb threshold true false
         defaultMaxIterations ;;
  c <- binarySearchLightness bgHsl fgRgb threshold false false
         defaultMaxIterations ;;
  d <- binarySearchLightness bgHsl fgRgb threshold false true
         defaultMaxIterations ;;
  OK [withPath a FgLighten; withPath b FgDarken;
      withPath c BgDarken; withPath d BgLighten].

Definition snapToPassingColor (fgHex bgHex : string) (opts : SnapOptions)
  : result SnapResult :=
  fgRgb <- hexToRgb fgHex ;;
  bgRgb <- hexToRgb bgHex ;;
  let threshold := requiredThreshold opts in
  currentRatio <- contrastRatio (rgbToHex fgRgb) (rgbToHex bgRgb) ;;
  if JS.geb currentRatio (threshold - EPSILON) then
    OK {| fg := rgbToHex fgRgb; bg := rgbToHex bgRgb; ratio := currentRatio;
          clamped := None; adjusted := None; iterations := None |}
  else if JS.strictEq currentRatio 1 && JS.gtb threshold 1 then
    OK {| fg := rgbToHex fgRgb; bg := rgbToHex bgRgb; ratio := currentRatio;
          clamped := Some true; adjusted := None; iterations := None |}
  else
    let fgHsl := rgbToHsl fgRgb in
    let bgHsl := rgbToHsl bgRgb in
    candidates <- searchCandidates fgRgb bgRgb threshold ;;
    let '(bestCandidate, clamped) :=
      chooseCandidate opts threshold fgHsl bgHsl candidates in
    applyCandidate fgRgb bgRgb bestCandidate clamped.

End Engine.

(** ** A [Math.pow] to run examples with *)

Module PowModel.
Local Open Scope float_scope.

(** Newton's iteration for the fifth root of [a], from above. *)
Fixpoint root5 (steps : nat) (a y : float) : float :=
  match steps with
  | O => y
  | S steps' => root5 steps' a ((4 * y + a / (y * y * y * y)) / 5)
  end.

(** A stand-in for the platform's [Math.pow] on the only exponent the
    engine passes, 2.4, and on the bases it passes, which lie in (0, 1]:
    [x^2.4 = x^2 * (x^2)^(1/5)].  It agrees with the exact power to a few
    units in the last place, and yields 1 at 1. *)
Definition pow (x y : float) : float :=
  if y =? 2.4 then
    let a := x * x in a * root5 60 a 1
  else nan.

End PowModel.

(** ** A [Math.pow] of single precision *)

(** The standard asks no precision of [Math.pow].  This second stand-in
    computes the power to single precision: the power of [PowModel]
    rounded to binary32, the way [Math.fround] rounds.  With it two
    different colours can have the same luminance to the last bit. *)
Module PowSingle.

(** [Math.fround(x)] for the numbers inside the binary32 range (zeros,
    infinities and [NaN] are returned unchanged). *)
Definition fround (x : float) : float :=
  match Prim2SF x with
  | S754_finite s m e => SF2Prim (SpecFloat.binary_round 24 128 s m e)
  | _ => x
  end.

Definition pow (x y : float) : float := fround (PowModel.pow x y).

End PowSingle.

(** ** Vocabulary of the statements *)

(** The strings [hexToRgb] accepts. *)
Definition acceptsHex (hex : string) : bool :=
  Str.testHexPattern (Str.toUpperCase (Str.replaceFirstHash hex)).

(** The digits of a cleaned hex string, shorthand expanded. *)
Definition expandShorthand (cleanHex : string) : string :=
  match cleanHex with
  | String c1 (String c2 (String c3 EmptyString)) =>
      String c1 (String c1 (String c2 (String c2 (String c3
        (String c3 EmptyString)))))
  | _ => cleanHex
  end.

(** The canonical form of an accepted hex string: '#' and six upper-case
    digits. *)
Definition canonicalHex (hex : string) : string :=
  String "#" (expandShorthand (Str.toUpperCase (Str.replaceFirstHash hex))).

(** [/^#[0-9A-F]{6}$/] *)
Definition isCanonicalHex (hex : string) : bool :=
  match hex with
  | String c body =>
      Ascii.eqb c "#" && (String.length body =? 6)%nat
      && Str.forallChars Str.isHexUpper body
  | EmptyString => false
  end.

(** The sixteen characters of [[0-9A-F]]. *)
Definition hexUpperChars : list ascii :=
  ["0"; "1"; "2"; "3"; "4"; "5"; "6"; "7"; "8"; "9";
   "A"; "B"; "C"; "D"; "E"; "F"]%char.

(** A channel as [hexToRgb] produces it: the value of two hex digits. *)
Definition byteChannel (v : float) : Prop :=
  exists c1 c2, In c1 hexUpperChars /\ In c2 hexUpperChars /\
                v = JS.parseInt16 (String c1 (String c2 EmptyString)).

Definition byteRgb (rgb : RGB) : Prop :=
  byteChannel (r rgb) /\ byteChannel (g rgb) /\ byteChannel (b rgb).

(** The ratio [contrastRatio] computes from two luminances. *)
Definition luminanceRatio (fgLuminance bgLuminance : float) : float :=
  ((JS.Math_max fgLuminance bgLuminance + 0.05)
   / (JS.Math_min fgLuminance bgLuminance + 0.05))%float.

(** The colour the loop body tests: the original hue and saturation at the
    midpoint of the current interval. *)
Definition midpointRgb (originalHsl : HSL) (st : SearchState) : RGB :=
  hslToRgb {| h := h originalHsl; s := s originalHsl;
              l := ((minL st + maxL st) / 2)%float |}.

(** The sort comparator does not put [y] in front of [x]. *)
Definition sortsBefore (x y : CandidateWithChange) : Prop :=
  (change x - change y <? 0)%float = true
  \/ (change y - change x <? 0)%float = false.

(** The side the tie-break looks for: the background when only
    [preferBackgroundAdjust] is set, the foreground otherwise. *)
Definition prefersBackground (opts : SnapOptions) : bool :=
  truthy (preferBackgroundAdjust opts)
  && negb (truthy (preferForegroundAdjust opts)).

Definition onPreferredSide (opts : SnapOptions) (p : Path) : bool :=
  if prefersBackground opts then startsWithBg p else startsWithFg p.

Definition Path_eqb (p q : Path) : bool :=
  match p, q with
  | FgLighten, FgLighten | FgDarken, FgDarken
  | BgDarken, BgDarken | BgLighten, BgLighten => true
  | _, _ => false
  end.

(** The canonical order of the four paths. *)
Definition canonicalOrder : list Path :=
  [FgLighten; FgDarken; BgDarken; BgLighten].

(** The tie-break as the specification words it: the first path, in
    canonical order, on the preferred side that has a member in the tie
    zone. *)
Fixpoint firstInOrder (order : list Path) (opts : SnapOptions)
    (zone : list CandidateWithChange) : option CandidateWithChange :=
  match order with
  | [] => None
  | p :: order' =>
      match (if onPreferredSide opts p
             then find (fun c : CandidateWithChange => Path_eqb (c_path c) p)
                       zone
             else None) with
      | Some c => Some c
      | None => firstInOrder order' opts zone
      end
  end.

Definition specifiedTieBreak (opts : SnapOptions)
    (zone : list CandidateWithChange) : option CandidateWithChange :=
  firstInOrder canonicalOrder opts zone.

(** The character class [[0-9A-Fa-f]]. *)
Definition isHexAnyCase (c : ascii) : bool :=
  Str.isHexUpper (Str.upperChar c).

(** A string of ASCII characters (code units below 128).  On these
    [Str.toUpperCase] is the [toUpperCase] of the platform. *)
Definition isAsciiChar (c : ascii) : bool := (nat_of_ascii c <? 128)%nat.

Definition isAsciiString (s : string) : bool := Str.forallChars isAsciiChar s.

(** The input shapes the specification names: an optional leading '#'
    followed by exactly three or exactly six hexadecimal characters. *)
Definition specifiedHexShape (hex : string) : bool :=
  let body := match hex with
              | String c rest => if Ascii.eqb c "#" then rest else hex
              | EmptyString => hex
              end in
  ((String.length body =? 3)%nat || (String.length body =? 6)%nat)
  && Str.forallChars isHexAnyCase body.

(** The ratio a search has recorded is the ratio of the recorded colour
    against the other colour. *)
Definition bestIsMeasured (pow : float -> float -> float) (otherRgb : RGB)
    (st : SearchState) : Prop :=
  contrastRatio pow (rgbToHex (bestRgb st)) (rgbToHex otherRgb)
  = OK (bestRatio st).

(** A colour recorded by a pass has a ratio of at least the bare
    threshold; otherwise the search still holds its starting colour. *)
Definition recordedAboveThreshold (threshold : float) (st0 st : SearchState)
  : Prop :=
  (bestRgb st = bestRgb st0 /\ bestRatio st = bestRatio st0)
  \/ JS.geb (bestRatio st) threshold = true.

(** The options [{ isLargeText: true }]. *)
Definition largeTextOptions : SnapOptions :=
  mkSnapOptions (mkContrastOptions (Some true) None) None None None None.

(** [a] stands before [b] in [xs]. *)
Inductive precedes {A : Type} : list A -> A -> A -> Prop :=
  | precedes_here (a b : A) (xs : list A) :
      In b xs -> precedes (a :: xs) a b
  | precedes_later (y a b : A) (xs : list A) :
      precedes xs a b -> precedes (y :: xs) a b.

(** A stable ascending sort of [original] by change: no element stands
    behind one it sorts strictly before, and elements of equal change keep
    the order they have in [original]. *)
Definition stablySorted (original sorted : list CandidateWithChange) : Prop :=
  Permutation sorted original /\
  StronglySorted sortsBefore sorted /\
  forall a b, change a = change b ->
    precedes original a b -> precedes sorted a b.

(** The four candidates of [snapToPassingColor('#856107', '#B8302E',
    { isLargeText: true })]. *)
Definition equalChangeCandidates : list Candidate :=
  valueOr []
    (searchCandidates PowModel.pow {| r := 133; g := 97; b := 7 |}
       {| r := 184; g := 48; b := 46 |} 3.0).

(** ** Large text (src/a11y/contrast.ts and src/a11y/theme-guard.ts) *)

(** A parameter with a default value: [None] is an omitted argument. *)
Definition withDefault (default : float) (arg : option float) : float :=
  match arg with
  | Some v => v
  | None => default
  end.

(** [isLargeTextFromCSS(fontSizePx, fontWeight = 400)] of contrast.ts. *)
Definition isLargeTextFromCSS (fontSizePx : float) (fontWeight : option float)
  : bool :=
  let fontWeight := withDefault 400 fontWeight in
  let isBold := JS.geb fontWeight 600 in
  let largeTextThreshold := (if isBold then 18.66 else 24)%float in
  JS.geb fontSizePx largeTextThreshold.

(** [isLargeTextPerWCAG(fontSize, fontWeight = 400)] of theme-guard.ts. *)
Definition isLargeTextPerWCAG (fontSize : float) (fontWeight : option float)
  : bool :=
  let fontWeight := withDefault 400 fontWeight in
  let isRegularLarge := JS.geb fontSize 24 && (fontWeight <? 600)%float in
  let isBoldLarge := JS.geb fontSize 19 && JS.geb fontWeight 600 in
  isRegularLarge || isBoldLarge.

(** ** More vocabulary *)

(** The number is [NaN]. *)
Definition isNaN (x : float) : bool :=
  match Prim2SF x with
  | S754_nan => true
  | _ => false
  end.

(** The integer a channel is formatted as:
    [Math.round(Math.max(0, Math.min(255, n)))]. *)
Definition clampChannel (n : float) : float :=
  JS.Math_round (JS.Math_max 0 (JS.Math_min 255 n)).

Definition clampRgb (rgb : RGB) : RGB :=
  {| r := clampChannel (r rgb); g := clampChannel (g rgb);
     b := clampChannel (b rgb) |}.

(** An integer between 0 and 255. *)
Definition isByte (v : float) : Prop :=
  exists k : Z, (0 <= k <= 255)%Z /\ v = JS.ofZ k.

(** The character class [[0-9A-Fa-f#]]. *)
Definition isHexOrHash (c : ascii) : bool :=
  isHexAnyCase c || Ascii.eqb c "#".

(** A colour with three equal channels. *)
Definition isGray (rgb : RGB) : Prop := r rgb = g rgb /\ g rgb = b rgb.

(** The options [{ preferForegroundAdjust: true }]. *)
Definition preferForegroundOptions : SnapOptions :=
  mkSnapOptions noContrastOptions None None (Some true) None.

(** A number that is neither infinite nor [NaN]. *)
Definition isFinite (x : float) : bool :=
  match Prim2SF x with
  | S754_zero _ | S754_finite _ _ _ => true
  | _ => false
  end.

(** The ratio of [best] is at least the ratio of [c]. *)
Definition ratioAtLeast (best c : Candidate) : Prop :=
  JS.geb (c_ratio best) (c_ratio c) = true.

(** The ratio of [best] is above the ratio of [c]. *)
Definition ratioAbove (best c : Candidate) : Prop :=
  JS.gtb (c_ratio best) (c_ratio c) = true.

(** * Theme guard (src/a11y/theme-guard.ts)

    The middleware that checks the semantic colour pairs of a token set
    with [passesContrast] and repairs the failing ones with
    [snapToPassingColor]. *)

(** [array.push(x)] *)
Definition push {A : Type} (array : list A) (x : A) : list A :=
  (array ++ [x])%list.

(** ** Token sets *)

(** [ColorTokenSet]: the own properties of the object as key/value pairs,
    in the order [Object.keys] lists them. *)
Definition ColorTokenSet : Type := list (string * string).

(** [tokens[key]]; [None] is [undefined]. *)
Fixpoint getToken (key : string) (tokens : ColorTokenSet) : option string :=
  match tokens with
  | [] => None
  | (k, v) :: rest => if String.eqb k key then Some v else getToken key rest
  end.

(** [tokens[key] = value]: an existing property keeps its place, a new one
    is added at the end. *)
Fixpoint setToken (key value : string) (tokens : ColorTokenSet)
  : ColorTokenSet :=
  match tokens with
  | [] => [(key, value)]
  | (k, v) :: rest =>
      if String.eqb k key then (k, value) :: rest
      else (k, v) :: setToken key value rest
  end.

(** A token value is falsy when it is [undefined] or the empty string. *)
Definition truthyValue (v : option string) : bool :=
  match v with
  | Some (String _ _) => true
  | _ => false
  end.

(** [s.includes(sub)] *)
Fixpoint includes (s sub : string) : bool :=
  String.prefix sub s
  || match s with
     | EmptyString => false
     | String _ rest => includes rest sub
     end.

(** [Object.keys(tokens).some(key => key.includes(sub))] *)
Definition someKeyIncludes (sub : string) (tokens : ColorTokenSet) : bool :=
  existsb (fun key => includes key sub) (map fst tokens).

(** ** Semantic pairs *)

Inductive PairType : Type :=
  | NormalText | LargeText | UiComponent | FocusIndicator.

(** The string each type is in the source. *)
Definition typeName (t : PairType) : string :=
  match t with
  | NormalText => "normal-text"
  | LargeText => "large-text"
  | UiComponent => "ui-component"
  | FocusIndicator => "focus-indicator"
  end.

Record SemanticPair : Type := mkSemanticPair {
  p_fg : string;
  p_bg : string;
  p_threshold : float;
  p_type : PairType
}.

Definition SEMANTIC_PAIRS : list SemanticPair :=
  [ mkSemanticPair "--text-primary" "--bg-primary" 4.5 NormalText;
    mkSemanticPair "--text-secondary" "--bg-primary" 4.5 NormalText;
    mkSemanticPair "--text-tertiary" "--bg-primary" 4.5 NormalText;
    mkSemanticPair "--text-heading" "--bg-primary" 3.0 LargeText;
    mkSemanticPair "--text-title" "--bg-primary" 3.0 LargeText;
    mkSemanticPair "--border-primary" "--bg-primary" 3.0 UiComponent;
    mkSemanticPair "--border-secondary" "--bg-primary" 3.0 UiComponent;
    mkSemanticPair "--icon-primary" "--bg-primary" 3.0 UiComponent;
    mkSemanticPair "--icon-secondary" "--bg-primary" 3.0 UiComponent;
    mkSemanticPair "--focus-ring" "--bg-primary" 3.0 FocusIndicator;
    mkSemanticPair "--focus-ring" "--bg-secondary" 3.0 FocusIndicator;
    mkSemanticPair "--focus-ring" "--bg-button" 3.0 FocusIndicator;
    mkSemanticPair "--focus-ring" "--bg-button-hover" 3.0 FocusIndicator;
    mkSemanticPair "--focus-ring-inset" "--bg-button" 3.0 FocusIndicator;
    mkSemanticPair "--focus-ring-inset" "--bg-button-hover" 3.0
      FocusIndicator;
    mkSemanticPair "--focus-ring-inset" "--bg-button-active" 3.0
      FocusIndicator;
    mkSemanticPair "--focus-ring-inset" "--bg-input" 3.0 FocusIndicator;
    mkSemanticPair "--focus-ring-outset" "--bg-primary" 3.0 FocusIndicator;
    mkSemanticPair "--focus-ring-outset" "--bg-secondary" 3.0 FocusIndicator;
    mkSemanticPair "--focus-ring-outset" "--bg-container" 3.0 FocusIndicator;
    mkSemanticPair "--text-primary" "--bg-button" 4.5 NormalText;
    mkSemanticPair "--text-primary" "--bg-button-hover" 4.5 NormalText;
    mkSemanticPair "--text-primary" "--bg-button-active" 4.5 NormalText ].

(** [pair.type === 'normal-text' || pair.type === 'large-text'] *)
Definition isTextType (t : PairType) : bool :=
  match t with
  | NormalText | LargeText => true
  | UiComponent | FocusIndicator => false
  end.

(** [pair.type === 'ui-component' || pair.type === 'focus-indicator'] *)
Definition isUiType (t : PairType) : bool :=
  match t with
  | UiComponent | FocusIndicator => true
  | NormalText | LargeText => false
  end.

(** [pair.type === 'large-text'] *)
Definition isLargeTextType (t : PairType) : bool :=
  match t with
  | LargeText => true
  | _ => false
  end.

(** ** Exemptions *)

Definition isUpper (c : ascii) : bool :=
  let n := nat_of_ascii c in (65 <=? n)%nat && (n <=? 90)%nat.

Definition lowerChar (c : ascii) : ascii :=
  if isUpper c then ascii_of_nat (nat_of_ascii c + 32) else c.

Fixpoint toLowerCase (s : string) : string :=
  match s with
  | EmptyString => EmptyString
  | String c rest => String (lowerChar c) (toLowerCase rest)
  end.

(** The words of the exemption patterns [/logo/i], [/brand/i], ... *)
Definition exemptPatterns : list string :=
  [ "logo"; "brand"; "mark"; "trademark"; "watermark";
    "decorative"; "ornament"; "decoration"; "accent"; "highlight";
    "text-logo"; "text-brand"; "text-decorative"; "text-ornament";
    "text-accent"; "text-highlight";
    "icon-decorative"; "icon-ornament"; "icon-accent" ].

(** [/word/i.test(tokenName)] for a word of lower-case letters and
    hyphens: the word occurs in the name, letter case ignored. *)
Definition testIgnoreCase (word tokenName : string) : bool :=
  includes (toLowerCase tokenName) word.

Definition isExemptFromTextContrast (tokenName : string) : bool :=
  existsb (fun pattern => testIgnoreCase pattern tokenName) exemptPatterns.

(** ** Focus rings *)

Record FocusRingValidation : Type := mkFocusRingValidation {
  insetValidated : bool;
  outsetValidated : bool;
  warnings : list string;
  additionalPairs : list SemanticPair
}.

Definition componentBackgrounds : list string :=
  [ "--bg-button"; "--bg-button-hover"; "--bg-button-active";
    "--bg-input"; "--bg-card"; "--bg-modal"; "--bg-select";
    "--bg-checkbox"; "--bg-radio"; "--bg-toggle" ].

Definition pageBackgrounds : list string :=
  [ "--bg-primary"; "--bg-secondary"; "--bg-container";
    "--bg-page"; "--bg-body"; "--bg-main"; "--bg-content";
    "--bg-sidebar"; "--bg-header"; "--bg-footer" ].

Definition ancestorBackgrounds : list string :=
  [ "--bg-primary"; "--bg-secondary"; "--bg-container"; "--bg-page" ].

Definition focusPair (fgToken bgToken : string) : SemanticPair :=
  mkSemanticPair fgToken bgToken 3.0 FocusIndicator.

(** One turn of [backgrounds.forEach(bgToken => ...)]: a background with a
    value sets the flag and pushes a pair. *)
Definition pushIfPresent (tokens : ColorTokenSet) (fgToken : string)
    (acc : bool * list SemanticPair) (bgToken : string)
  : bool * list SemanticPair :=
  let '(found, pairs) := acc in
  if truthyValue (getToken bgToken tokens)
  then (true, push pairs (focusPair fgToken bgToken))
  else (found, pairs).

(** The first ancestor background with a value, [--bg-primary] when there
    is none. *)
Definition fallbackBackground (tokens : ColorTokenSet) : string :=
  match find (fun bgToken => truthyValue (getToken bgToken tokens))
          ancestorBackgrounds with
  | Some bgToken => bgToken
  | None => "--bg-primary"
  end.

(** The block run for one kind of ring (the source has it twice, for the
    inset ring over the component backgrounds and for the outset ring
    over the page backgrounds). *)
Definition validateRing (tokens : ColorTokenSet) (fgToken : string)
    (backgrounds : list string) (warning : string)
    (acc : list string * list SemanticPair)
  : list string * list SemanticPair :=
  let '(warnings, additionalPairs) := acc in
  let '(found, additionalPairs) :=
    fold_left (pushIfPresent tokens fgToken) backgrounds
      (false, additionalPairs) in
  if negb found then
    let fallbackBg := fallbackBackground tokens in
    (push warnings (warning ++ fallbackBg),
     push additionalPairs (focusPair fgToken fallbackBg))
  else (warnings, additionalPairs).

Definition validateFocusRings (tokens : ColorTokenSet) : FocusRingValidation :=
  let hasInset := someKeyIncludes "focus-ring-inset" tokens in
  let hasOutset := someKeyIncludes "focus-ring-outset" tokens in
  let acc := ([], []) in
  let acc :=
    if hasInset then
      validateRing tokens "--focus-ring-inset" componentBackgrounds
        "WCAG 1.4.11: No component backgrounds found for inset focus ring validation - using fallback to "
        acc
    else acc in
  let acc :=
    if hasOutset then
      validateRing tokens "--focus-ring-outset" pageBackgrounds
        "WCAG 1.4.11: No page backgrounds found for outset focus ring validation - using fallback to "
        acc
    else acc in
  let '(warnings, additionalPairs) := acc in
  let warnings :=
    if negb hasInset && negb hasOutset
       && someKeyIncludes "focus-ring" tokens
    then push warnings
           "WCAG 2.4.7: Focus ring token found but no inset/outset variants - consider adding --focus-ring-inset and --focus-ring-outset for proper adjacent color validation"
    else warnings in
  {| insetValidated := hasInset;
     outsetValidated := hasOutset;
     warnings := warnings;
     additionalPairs := additionalPairs |}.

(** ** Options and results *)

Record LargeTextContext : Type := mkLargeTextContext {
  fontSize : option float;
  fontWeight : option float
}.

(** [ThemeGuardOptions]; the two preferences are the rest properties
    handed on to [snapToPassingColor]. *)
Record ThemeGuardOptions : Type := mkThemeGuardOptions {
  bypassGuard : option bool;
  logAdjustments : option bool;
  guardPreferForegroundAdjust : option bool;
  guardPreferBackgroundAdjust : option bool;
  largeTextContext : option LargeTextContext
}.

Definition noThemeGuardOptions : ThemeGuardOptions :=
  mkThemeGuardOptions None None None None None.

Record AdjustmentLog : Type := mkAdjustmentLog {
  log_original : string;
  log_adjusted : string;
  log_ratio : float;
  log_clamped : bool;
  log_adjustedColor : Side;
  log_semanticPair : string;
  log_thresholdUsed : float;
  log_thresholdType : PairType;
  log_largeTextDetected : bool
}.

Inductive Status : Type := Pass | Warnings | Fail.

Record Summary : Type := mkSummary {
  totalChecks : nat;
  violationCount : nat;
  adjustmentCount : nat;
  clampedTotal : nat
}.

Record FocusRingReport : Type := mkFocusRingReport {
  report_insetValidated : bool;
  report_outsetValidated : bool;
  report_warnings : list string
}.

Record LargeTextDetection : Type := mkLargeTextDetection {
  contextProvided : bool;
  detection_fontSize : option float;
  detection_fontWeight : option float;
  pairsEvaluatedAsLarge : list string
}.

Record Exemptions : Type := mkExemptions {
  exemptTokens : list string;
  exemptionReasons : list string
}.

Record ThemeGuardResult : Type := mkThemeGuardResult {
  sanitizedTokens : ColorTokenSet;
  adjustments : list AdjustmentLog;
  violations : list string;
  applied : bool;
  status : Status;
  summary : Summary;
  focusRingValidation : FocusRingReport;
  largeTextDetection : option LargeTextDetection;
  exemptions : option Exemptions
}.

(** The variables the loop over the pairs updates. *)
Record GuardState : Type := mkGuardState {
  st_sanitizedTokens : ColorTokenSet;
  st_adjustments : list AdjustmentLog;
  st_violations : list string;
  st_clampedCount : nat;
  st_pairsEvaluatedAsLarge : list string;
  st_exemptTokens : list string;
  st_exemptionReasons : list string
}.

(** [x || fallback] on an optional number: [undefined], [NaN] and the
    zeros are falsy. *)
Definition numberOr (x : option float) (fallback : float) : float :=
  match x with
  | Some v => if isNaN v || (v =? 0)%float then fallback else v
  | None => fallback
  end.

(** [isLargeText ? 3.0 : 4.5], the threshold written to the messages and
    the logs. *)
Definition loggedThreshold (isLargeText : bool) : float :=
  if isLargeText then 3.0%float else 4.5%float.

Section ThemeGuard.

Variable Math_pow : float -> float -> float.

(** Number formatting is left to the platform: [x.toFixed(2)] and the
    conversion of a number inside a template string. *)
Variable Number_toFixed2 : float -> string.
Variable Number_toString : float -> string.

(** The large-text detection of one pair: the context is consulted for
    text pairs only. *)
Definition detectedAsLarge (options : ThemeGuardOptions) (pair : SemanticPair)
  : bool :=
  match largeTextContext options with
  | Some context =>
      isTextType (p_type pair)
      && isLargeTextFromCSS (numberOr (fontSize context) 16)
           (Some (numberOr (fontWeight context) 400))
  | None => false
  end.

(** The options a pair is checked and snapped with. *)
Definition pairContrastOptions (isLargeText : bool) (pair : SemanticPair)
  : ContrastOptions :=
  {| isLargeText := Some isLargeText;
     uiComponent := Some (isUiType (p_type pair)) |}.

Definition pairSnapOptions (options : ThemeGuardOptions) (isLargeText : bool)
    (pair : SemanticPair) : SnapOptions :=
  {| contrastOptions := pairContrastOptions isLargeText pair;
     lockHue := None;
     lockChroma := None;
     preferForegroundAdjust := guardPreferForegroundAdjust options;
     preferBackgroundAdjust := guardPreferBackgroundAdjust options |}.

(** The part of the loop body that runs for a failing pair: the
    violation is recorded, the pair is snapped, the adjusted side is
    written back and the adjustment is logged. *)
Definition repairPair (options : ThemeGuardOptions) (pair : SemanticPair)
    (fgValue bgValue : string) (isLargeText wasEvaluatedAsLarge : bool)
    (st : GuardState) : result GuardState :=
  let violations :=
    push (st_violations st)
      (p_fg pair ++ " on " ++ p_bg pair
       ++ " (" ++ typeName (p_type pair) ++ ")") in
  snapResult <- snapToPassingColor Math_pow fgValue bgValue
                  (pairSnapOptions options isLargeText pair) ;;
  let '(clampedCount, violations) :=
    if truthy (clamped snapResult) then
      let threshold := loggedThreshold isLargeText in
      (S (st_clampedCount st),
       push violations
         (p_fg pair ++ " on " ++ p_bg pair ++ " - FAILED: "
          ++ Number_toFixed2 (ratio snapResult) ++ ":1 < "
          ++ Number_toString threshold ++ ":1 (binary threshold)"))
    else (st_clampedCount st, violations) in
  let sanitizedTokens :=
    match adjusted snapResult with
    | Some Fg => setToken (p_fg pair) (fg snapResult) (st_sanitizedTokens st)
    | Some Bg => setToken (p_bg pair) (bg snapResult) (st_sanitizedTokens st)
    | None => st_sanitizedTokens st
    end in
  let adjustments :=
    if truthy (logAdjustments options) then
      let thresholdUsed := loggedThreshold isLargeText in
      push (st_adjustments st)
        {| log_original := fgValue ++ " on " ++ bgValue;
           log_adjusted := fg snapResult ++ " on " ++ bg snapResult;
           log_ratio := ratio snapResult;
           log_clamped := truthy (clamped snapResult);
           log_adjustedColor :=
             match adjusted snapResult with
             | Some side => side
             | None => Fg
             end;
           log_semanticPair := p_fg pair ++ " vs " ++ p_bg pair;
           log_thresholdUsed := thresholdUsed;
           log_thresholdType := p_type pair;
           log_largeTextDetected := wasEvaluatedAsLarge |}
    else st_adjustments st in
  OK {| st_sanitizedTokens := sanitizedTokens;
        st_adjustments := adjustments;
        st_violations := violations;
        st_clampedCount := clampedCount;
        st_pairsEvaluatedAsLarge := st_pairsEvaluatedAsLarge st;
        st_exemptTokens := st_exemptTokens st;
        st_exemptionReasons := st_exemptionReasons st |}.

(** The body of the loop over the pairs. *)
Definition checkPair (options : ThemeGuardOptions) (pair : SemanticPair)
    (st : GuardState) : result GuardState :=
  let fgValue := getToken (p_fg pair) (st_sanitizedTokens st) in
  let bgValue := getToken (p_bg pair) (st_sanitizedTokens st) in
  match fgValue, bgValue with
  | Some fgValue, Some bgValue =>
      if negb (truthyValue (Some fgValue)) || negb (truthyValue (Some bgValue))
      then OK st
      else if isTextType (p_type pair) && isExemptFromTextContrast (p_fg pair)
      then
        OK {| st_sanitizedTokens := st_sanitizedTokens st;
              st_adjustments := st_adjustments st;
              st_violations := st_violations st;
              st_clampedCount := st_clampedCount st;
              st_pairsEvaluatedAsLarge := st_pairsEvaluatedAsLarge st;
              st_exemptTokens := push (st_exemptTokens st) (p_fg pair);
              st_exemptionReasons :=
                push (st_exemptionReasons st)
                  (p_fg pair ++ ": exempt from SC 1.4.3 (logo/decorative)") |}
      else
        let wasEvaluatedAsLarge := detectedAsLarge options pair in
        let isLargeText :=
          isLargeTextType (p_type pair) || wasEvaluatedAsLarge in
        let st :=
          if wasEvaluatedAsLarge then
            {| st_sanitizedTokens := st_sanitizedTokens st;
               st_adjustments := st_adjustments st;
               st_violations := st_violations st;
               st_clampedCount := st_clampedCount st;
               st_pairsEvaluatedAsLarge :=
                 push (st_pairsEvaluatedAsLarge st)
                   (p_fg pair ++ " vs " ++ p_bg pair);
               st_exemptTokens := st_exemptTokens st;
               st_exemptionReasons := st_exemptionReasons st |}
          else st in
        passes <- passesContrast Math_pow fgValue bgValue
                    (pairContrastOptions isLargeText pair) ;;
        if negb passes
        then repairPair options pair fgValue bgValue isLargeText
               wasEvaluatedAsLarge st
        else OK st
  | _, _ => OK st
  end.

(** [for (const pair of allPairs) { ... }] *)
Fixpoint checkPairs (options : ThemeGuardOptions) (pairs : list SemanticPair)
    (st : GuardState) : result GuardState :=
  match pairs with
  | [] => OK st
  | p :: rest =>
      st' <- checkPair options p st ;;
      checkPairs options rest st'
  end.

Definition largeTextDetectionOf (options : ThemeGuardOptions)
    (pairs : list string) : option LargeTextDetection :=
  match largeTextContext options with
  | Some context =>
      Some {| contextProvided := true;
              detection_fontSize := fontSize context;
              detection_fontWeight := fontWeight context;
              pairsEvaluatedAsLarge := pairs |}
  | None => None
  end.

Definition sanitizeThemeTokens (tokens : ColorTokenSet)
    (options : ThemeGuardOptions) : result ThemeGuardResult :=
  if truthy (bypassGuard options) then
    OK {| sanitizedTokens := tokens;
          adjustments := [];
          violations := [];
          applied := true;
          status := Pass;
          summary := mkSummary 0 0 0 0;
          focusRingValidation := mkFocusRingReport false false [];
          largeTextDetection := largeTextDetectionOf options [];
          exemptions := None |}
  else
    let validation := validateFocusRings tokens in
    let allPairs := (SEMANTIC_PAIRS ++ additionalPairs validation)%list in
    st <- checkPairs options allPairs
            {| st_sanitizedTokens := tokens;
               st_adjustments := [];
               st_violations := [];
               st_clampedCount := 0;
               st_pairsEvaluatedAsLarge := [];
               st_exemptTokens := [];
               st_exemptionReasons := [] |} ;;
    let status :=
      if (List.length (st_violations st) =? 0)%nat then Pass
      else if (st_clampedCount st =? 0)%nat then Warnings
      else Fail in
    OK {| sanitizedTokens := st_sanitizedTokens st;
          adjustments := st_adjustments st;
          violations := st_violations st;
          applied := true;
          status := status;
          summary :=
            {| totalChecks := List.length allPairs;
               violationCount := List.length (st_violations st);
               adjustmentCount := List.length (st_adjustments st);
               clampedTotal := st_clampedCount st |};
          focusRingValidation :=
            {| report_insetValidated := insetValidated validation;
               report_outsetValidated := outsetValidated validation;
               report_warnings := warnings validation |};
          largeTextDetection :=
            largeTextDetectionOf options (st_pairsEvaluatedAsLarge st);
          exemptions :=
            if (0 <? List.length (st_exemptTokens st))%nat
            then Some {| exemptTokens := st_exemptTokens st;
                         exemptionReasons := st_exemptionReasons st |}
            else None |}.

End ThemeGuard.

(** ** Vocabulary of the theme-guard statements *)

(** The loop has neither changed a token nor recorded anything. *)
Definition sameOutcome (st st' : GuardState) : Prop :=
  st_sanitizedTokens st' = st_sanitizedTokens st /\
  st_adjustments st' = st_adjustments st /\
  st_violations st' = st_violations st /\
  st_clampedCount st' = st_clampedCount st.

(** The threshold a log entry records, and what its ratio was measured
    against. *)
Definition logIsConsistent (a : AdjustmentLog) : Prop :=
  log_thresholdUsed a
  = loggedThreshold (isLargeTextType (log_thresholdType a)
                     || log_largeTextDetected a) /\
  (isUiType (log_thresholdType a) = true ->
   log_thresholdUsed a = 4.5%float /\
   (log_clamped a = false ->
    JS.geb (log_ratio a) (3.0 - EPSILON) = true)).

(** The state the loop starts from. *)
Definition initialState (tokens : ColorTokenSet) : GuardState :=
  {| st_sanitizedTokens := tokens;
     st_adjustments := [];
     st_violations := [];
     st_clampedCount := 0;
     st_pairsEvaluatedAsLarge := [];
     st_exemptTokens := [];
     st_exemptionReasons := [] |}.

(** The options [{ logAdjustments: true }]. *)
Definition loggingOptions : ThemeGuardOptions :=
  mkThemeGuardOptions None (Some true) None None None.

(** A formatter to run examples with. *)
Definition noFormat (x : float) : string := "".

(** ** Vocabulary of rounding *)

(** The place of the quotient [N / D] between two consecutive integers, as
    [SpecFloat] records it. *)
Definition locationOf (N D : Z) : location :=
  if (N mod D =? 0)%Z then loc_Exact
  else loc_Inexact (2 * (N mod D) ?= D)%Z.

(** [N / D] rounded to the nearest integer, ties to even. *)
Definition roundQuotient (N D : Z) : Z :=
  round_nearest_even (N / D) (locationOf N D).

(** A shift record that stands for the quotient [N / D]. *)
Definition holdsQuotient (N D : Z) (mrs : shr_record) : Prop :=
  shr_m mrs = (N / D)%Z /\ loc_of_shr_record mrs = locationOf N D.

(** The binary64 number of mantissa [R], between 2^52 and 2^53, at the
    exponent [G]. *)
Definition normalOf (sx : bool) (R G : Z) : spec_float :=
  if (R =? 2 ^ 53)%Z then S754_finite sx (2 ^ 52)%positive (G + 1)%Z
  else S754_finite sx (Z.to_pos R) G.

(** The number [x] is the rounding of the quotient [N / D * 2 ^ e], which
    lies in the normal range. *)
Definition roundsTo (x : spec_float) (N D e : Z) : Prop :=
  (x = binary_round_aux prec emax false (N / D) e (locationOf N D) /\
   0 <= N /\ 0 < D /\ 0 < N / D /\
   53 <= Zdigits2 (N / D) /\
   -1074 <= Zdigits2 (N / D) + e - 53 <= 970)%Z.

(** A positive normal number with an exponent far from the ends of the
    format. *)
Definition midRange (x : spec_float) (m : positive) (e : Z) : Prop :=
  x = S754_finite false m e /\ Zpos (digits2_pos m) = 53%Z /\
  (-400 <= e <= 400)%Z.

(** A number between 2^-300 and 2^300. *)
Definition inRange (x : float) : bool :=
  (0x1p-300 <=? x)%float && (x <=? 0x1p+300)%float.

(** Zero, or a number between [lo] and [hi]. *)
Definition zeroOrWithin (lo hi x : float) : Prop :=
  x = 0%float \/ ((lo <=? x)%float = true /\ (x <=? hi)%float = true).

(** Zero, or a number between 2^-300 and 2^300. *)
Definition isNice (x : float) : Prop := x = 0%float \/ inRange x = true.

(** ** Vocabulary of the range of the ratio *)

(** The weighted sum of [relativeLuminance], on the three corrected
    channels. *)
Definition weightedSum (R G B : float) : float :=
  (0.2126 * R + 0.7152 * G + 0.0722 * B)%float.

(** The corrected value of the channel [k]. *)
Definition corrected (pow : float -> float -> float) (k : Z) : float :=
  linearize pow (JS.ofZ k / 255)%float.

(** What the range of the ratio asks of [Math.pow], checked on one channel:
    the corrected value of the channel 255, whose base is 1, is 1; the
    corrected value of any other channel lies between 0.0003 and 0.995. *)
Definition correctedInRange (pow : float -> float -> float) (k : Z) : bool :=
  let x := corrected pow k in
  if (k =? 255)%Z then (x =? 1)%float
  else ((0.0003 <=? x) && (x <=? 0.995))%float.

(** The channels whose correction calls [Math.pow]: 11 to 255. *)
Definition powChannels : list Z := map Z.of_nat (seq 11 245).

(** [Math.pow] is in range on every base the engine passes. *)
Definition powInRange (pow : float -> float -> float) : bool :=
  forallb (correctedInRange pow) powChannels.

(** The channels whose correction is linear: 0 to 10. *)
Definition linearChannels : list Z := map Z.of_nat (seq 0 11).

(** The check of a channel whose correction does not call [Math.pow]. *)
Definition linearChannelCheck (pow : float -> float -> float) (k : Z)
  : bool :=
  if (k =? 0)%Z then PrimFloat.Leibniz.eqb (corrected pow k) 0
  else correctedInRange pow k.

Definition black : RGB := {| r := 0; g := 0; b := 0 |}.
Definition white : RGB := {| r := 255; g := 255; b := 255 |}.

(** A corrected channel: zero, or between 0.0003 and 1. *)
Definition isCorrected (c : float) : Prop := zeroOrWithin 0.0003 1 c.

(** [luminance + 0.05] of the lightest colour but white, with the bounds of
    [correctedInRange], and of the darkest colour but black. *)
Definition belowWhite : float := (weightedSum 1 1 0.995 + 0.05)%float.
Definition aboveBlack : float := (weightedSum 0 0 0.0003 + 0.05)%float.

(** * Properties *)

Lemma bind_OK_inv {A B} (m : result A) (k : A -> result B) (b : B) :
  bind m k = OK b -> exists a, m = OK a /\ k a = OK b.
Proof.
  destruct m as [a|e]; simpl; intros H; [exists a; split; auto | discriminate].
Qed.

(** ** Facts about binary64 arithmetic

    Everything here follows from the specification of the primitive
    operations over [SpecFloat]. *)

Module FloatFacts.
Local Open Scope float_scope.

Lemma compare_cont_swap (p q : positive) :
  Pos.compare_cont Eq q p = CompOpp (Pos.compare_cont Eq p q).
Proof. symmetry. apply (Pos.compare_cont_antisym p q Eq). Qed.

Lemma SFcompare_swap (x y : spec_float) :
  SFcompare y x = option_map CompOpp (SFcompare x y).
Proof.
  destruct x as [sx|sx| |sx mx ex], y as [sy|sy| |sy my ey]; simpl;
    try reflexivity;
    try (destruct sx; reflexivity);
    try (destruct sy; reflexivity);
    try (destruct sx, sy; reflexivity).
  destruct sx, sy; simpl; try reflexivity;
    rewrite (Z.compare_antisym ex ey), (compare_cont_swap mx my);
    destruct (ex ?= ey)%Z; simpl; try reflexivity.
Qed.

Lemma SFcompare_Eq_inv (x y : spec_float) :
  SFcompare x y = Some Eq ->
  x = y \/ (exists sx sy, x = S754_zero sx /\ y = S754_zero sy).
Proof.
  destruct x as [sx|sx| |sx mx ex], y as [sy|sy| |sy my ey]; simpl;
    try discriminate;
    try (destruct sx; discriminate);
    try (destruct sy; discriminate).
  - intros _. right. now exists sx, sy.
  - destruct sx, sy; try discriminate; intros _; now left.
  - assert (Hm : forall c, Pos.compare_cont Eq mx my = c -> c = Eq -> mx = my).
    { intros c Hc ->. now apply Pos.compare_eq. }
    assert (Hm' : forall c, CompOpp (Pos.compare_cont Eq mx my) = c ->
                            c = Eq -> mx = my).
    { intros c Hc ->. apply Pos.compare_eq. unfold Pos.compare.
      destruct (Pos.compare_cont Eq mx my); simpl in Hc;
        try reflexivity; discriminate. }
    destruct sx, sy; try discriminate;
      destruct (ex ?= ey)%Z eqn:He; try discriminate;
      apply Z.compare_eq in He; subst ey; intros H; left; f_equal.
    + apply (Hm' _ eq_refl). congruence.
    + apply (Hm _ eq_refl). congruence.
Qed.

(** Swapping the operands of a comparison swaps its outcome. *)
Lemma compare_swap (a b : float) :
  (b ?= a) = match a ?= b with
             | FLt => FGt
             | FGt => FLt
             | c => c
             end.
Proof.
  rewrite !compare_spec, (SFcompare_swap (Prim2SF a) (Prim2SF b)).
  destruct (SFcompare (Prim2SF a) (Prim2SF b)) as [[| |]|]; reflexivity.
Qed.

(** Two numbers that compare equal are the same number or two zeros. *)
Lemma compare_Eq_cases (a b : float) :
  (a ?= b) = FEq ->
  a = b \/ (exists sa sb, Prim2SF a = S754_zero sa /\ Prim2SF b = S754_zero sb).
Proof.
  rewrite compare_spec.
  destruct (SFcompare (Prim2SF a) (Prim2SF b)) as [[| |]|] eqn:E;
    try discriminate.
  intros _. destruct (SFcompare_Eq_inv _ _ E) as [H|H].
  - left. now apply Prim2SF_inj.
  - now right.
Qed.

Lemma zero_sign_inj (a b : float) (sg : bool) :
  Prim2SF a = S754_zero sg -> Prim2SF b = S754_zero sg -> a = b.
Proof. intros Ha Hb. apply Prim2SF_inj. congruence. Qed.

(** [Math.max] and [Math.min] do not depend on the order of their
    arguments. *)
Lemma Math_max_comm (a b : float) : JS.Math_max a b = JS.Math_max b a.
Proof.
  unfold JS.Math_max. rewrite (compare_swap a b).
  destruct (a ?= b) eqn:E; try reflexivity.
  destruct (compare_Eq_cases a b E) as [->|(sa & sb & Ha & Hb)].
  - now destruct (JS.isNegZero b).
  - unfold JS.isNegZero. rewrite Ha, Hb.
    destruct sa, sb; try reflexivity;
      [ symmetry | ]; eapply zero_sign_inj; eauto.
Qed.

Lemma Math_min_comm (a b : float) : JS.Math_min a b = JS.Math_min b a.
Proof.
  unfold JS.Math_min. rewrite (compare_swap a b).
  destruct (a ?= b) eqn:E; try reflexivity.
  destruct (compare_Eq_cases a b E) as [->|(sa & sb & Ha & Hb)].
  - now destruct (JS.isNegZero b).
  - unfold JS.isNegZero. rewrite Ha, Hb.
    destruct sa, sb; try reflexivity;
      [ | symmetry ]; eapply zero_sign_inj; eauto.
Qed.

Lemma is_nan_nan (a : float) : Prim2SF a = S754_nan -> a = nan.
Proof. intros H. apply Prim2SF_inj. now rewrite H. Qed.

(** A number compares equal to itself unless it is [NaN]. *)
Lemma compare_refl_cases (a : float) :
  (a ?= a) = FEq \/ ((a ?= a) = FNotComparable /\ a = nan).
Proof.
  rewrite compare_spec.
  destruct (Prim2SF a) as [sx|sx| |sx mx ex] eqn:E; simpl.
  - now left.
  - destruct sx; now left.
  - right. split; [reflexivity|]. now apply is_nan_nan.
  - rewrite Z.compare_refl.
    change (Pos.compare_cont Eq mx mx) with (Pos.compare mx mx).
    rewrite Pos.compare_refl. destruct sx; now left.
Qed.

Lemma Math_max_self (a : float) : JS.Math_max a a = a.
Proof.
  unfold JS.Math_max.
  destruct (compare_refl_cases a) as [->|[-> ->]]; [|reflexivity].
  now destruct (JS.isNegZero a).
Qed.

Lemma Math_min_self (a : float) : JS.Math_min a a = a.
Proof.
  unfold JS.Math_min.
  destruct (compare_refl_cases a) as [->|[-> ->]]; [|reflexivity].
  now destruct (JS.isNegZero a).
Qed.

(** A finite non-zero number divided by itself is exactly 1: the quotient
    of the mantissas is a power of two and no rounding takes place. *)
Lemma SFdiv_self (sg : bool) (m : positive) (e : Z) :
  SF64div (S754_finite sg m e) (S754_finite sg m e) = Prim2SF 1.
Proof.
  unfold SF64div, SFdiv, SFdiv_core_binary.
  rewrite !Z.sub_diag, xorb_nilpotent.
  change (Z.min (fexp prec emax 0) 0) with (-53)%Z.
  change (0 - -53)%Z with 53%Z. cbv iota beta.
  rewrite Z.shiftl_mul_pow2 by lia.
  assert (E : Z.div_eucl (Z.pos m * 2 ^ 53) (Z.pos m) = ((2 ^ 53)%Z, 0%Z)).
  { pose proof (Z.div_mul (2 ^ 53) (Z.pos m) ltac:(lia)) as Hq.
    pose proof (Z.mod_mul (2 ^ 53) (Z.pos m)) as Hr.
    rewrite (Z.mul_comm (Z.pos m)).
    unfold Z.div, Z.modulo in Hq, Hr.
    destruct (Z.div_eucl (2 ^ 53 * Z.pos m) (Z.pos m)) as [q r0].
    cbv beta iota in Hq, Hr. rewrite Hq, Hr by lia. reflexivity. }
  rewrite E.
  assert (L : new_location (Z.pos m) 0 = loc_Exact).
  { unfold new_location, new_location_even, new_location_odd.
    destruct (Z.even (Z.pos m)); reflexivity. }
  rewrite L. vm_compute. reflexivity.
Qed.

Lemma div_self (x : float) : JS.isFiniteNonZero x = true -> x / x = 1.
Proof.
  unfold JS.isFiniteNonZero. intros H.
  destruct (Prim2SF x) as [sx|sx| |sx mx ex] eqn:E; try discriminate.
  apply Prim2SF_inj. rewrite div_spec, E. apply SFdiv_self.
Qed.

(** [a < b] excludes [a >= b]. *)
Lemma ltb_not_geb (x y : float) : (x <? y) = true -> JS.geb x y = false.
Proof.
  unfold JS.geb. rewrite ltb_spec, leb_spec. unfold SFltb, SFleb.
  rewrite (FloatFacts.SFcompare_swap (Prim2SF x) (Prim2SF y)).
  destruct (SFcompare (Prim2SF x) (Prim2SF y)) as [[| |]|];
    cbn; congruence.
Qed.

End FloatFacts.

(** ** The order of binary64 numbers *)

Module OrderFacts.
Local Open Scope float_scope.

Ltac order_cases :=
  repeat match goal with
         | |- context [Z.compare ?a ?b] =>
             destruct (Z.compare_spec a b); try lia; subst
         | H : context [Z.compare ?a ?b] |- _ =>
             destruct (Z.compare_spec a b); try lia; subst
         | |- context [Pos.compare_cont Eq ?a ?b] =>
             change (Pos.compare_cont Eq a b) with (Pos.compare a b);
             destruct (Pos.compare_spec a b); try lia; subst
         | H : context [Pos.compare_cont Eq ?a ?b] |- _ =>
             change (Pos.compare_cont Eq a b) with (Pos.compare a b) in H;
             destruct (Pos.compare_spec a b); try lia; subst
         end.

Ltac order_trans :=
  match goal with
  | x : spec_float, y : spec_float, z : spec_float |- _ =>
      destruct x as [[]|[]| |[] ? ?], y as [[]|[]| |[] ? ?],
               z as [[]|[]| |[] ? ?]; simpl;
      try discriminate; try reflexivity;
      order_cases; simpl; try discriminate; try reflexivity; try lia
  end.

Lemma SFleb_trans (x y z : spec_float) :
  SFleb x y = true -> SFleb y z = true -> SFleb x z = true.
Proof. unfold SFleb. order_trans. Qed.

Lemma SFltb_leb_trans (x y z : spec_float) :
  SFltb x y = true -> SFleb y z = true -> SFltb x z = true.
Proof. unfold SFleb, SFltb. order_trans. Qed.

Lemma SFleb_ltb_trans (x y z : spec_float) :
  SFleb x y = true -> SFltb y z = true -> SFltb x z = true.
Proof. unfold SFleb, SFltb. order_trans. Qed.

(** [<=] is transitive. *)
Lemma leb_trans (a b c : float) :
  (a <=? b) = true -> (b <=? c) = true -> (a <=? c) = true.
Proof. rewrite !leb_spec. apply SFleb_trans. Qed.

Lemma ltb_leb_trans (a b c : float) :
  (a <? b) = true -> (b <=? c) = true -> (a <? c) = true.
Proof. rewrite !ltb_spec, leb_spec. apply SFltb_leb_trans. Qed.

Lemma leb_ltb_trans (a b c : float) :
  (a <=? b) = true -> (b <? c) = true -> (a <? c) = true.
Proof. rewrite !ltb_spec, leb_spec. apply SFleb_ltb_trans. Qed.

Lemma geb_trans (a b c : float) :
  JS.geb a b = true -> JS.geb b c = true -> JS.geb a c = true.
Proof. unfold JS.geb. intros H1 H2. exact (leb_trans c b a H2 H1). Qed.

(** Two numbers are ordered one way or the other unless one is [NaN]. *)
Lemma leb_total (a b : float) :
  isNaN a = false -> isNaN b = false ->
  (a <? b) = false -> (b <=? a) = true.
Proof.
  unfold isNaN. rewrite ltb_spec, leb_spec. unfold SFltb, SFleb.
  rewrite (FloatFacts.SFcompare_swap (Prim2SF a) (Prim2SF b)).
  destruct (Prim2SF a) as [[]|[]| |[] ma ea], (Prim2SF b) as [[]|[]| |[] mb eb];
    simpl; try discriminate; try reflexivity;
    order_cases; simpl; try discriminate; try reflexivity.
Qed.

Lemma geb_not_ltb (a b : float) : JS.geb a b = true -> (a <? b) = false.
Proof.
  intros H. destruct (a <? b) eqn:L; [|reflexivity].
  apply FloatFacts.ltb_not_geb in L. congruence.
Qed.

Lemma isNaN_nan (a : float) : isNaN a = true -> a = nan.
Proof.
  unfold isNaN. intros H. apply FloatFacts.is_nan_nan.
  destruct (Prim2SF a); try discriminate. reflexivity.
Qed.

(** A comparison with [NaN] is false. *)
Lemma leb_not_NaN (a b : float) :
  (a <=? b) = true -> isNaN a = false /\ isNaN b = false.
Proof.
  unfold isNaN. rewrite leb_spec. unfold SFleb.
  destruct (Prim2SF a) as [[]|[]| |[] ma ea], (Prim2SF b) as [[]|[]| |[] mb eb];
    simpl; try discriminate; auto.
Qed.

End OrderFacts.

Module BestFacts.
Local Open Scope float_scope.

Lemma leb_refl (a : float) : isNaN a = false -> (a <=? a) = true.
Proof.
  unfold isNaN. rewrite leb_spec. unfold SFleb.
  destruct (Prim2SF a) as [[]|[]| |[] m e]; simpl;
    try discriminate; try reflexivity;
    rewrite Z.compare_refl;
    change (Pos.compare_cont Eq m m) with (Pos.compare m m);
    now rewrite Pos.compare_refl.
Qed.

Lemma ltb_leb (a c : float) : (a <? c) = true -> (a <=? c) = true.
Proof.
  rewrite ltb_spec, leb_spec. unfold SFltb, SFleb.
  destruct (SFcompare (Prim2SF a) (Prim2SF c)) as [[| |]|];
    try discriminate; reflexivity.
Qed.

Lemma ltb_trans (a c d : float) :
  (a <? c) = true -> (c <? d) = true -> (a <? d) = true.
Proof.
  intros H1 H2. apply ltb_leb in H2.
  exact (OrderFacts.ltb_leb_trans _ _ _ H1 H2).
Qed.

End BestFacts.

(** ** Rounding in binary64

    The arithmetic of [SpecFloat] rounds a quotient by shifting it to the
    precision and looking at what was shifted out.  These facts describe
    that rounding on integers. *)

Module RoundFacts.
Local Open Scope Z_scope.

Lemma digits2_upper (m : positive) : Zpos m < 2 ^ Zpos (digits2_pos m).
Proof.
  induction m as [m IH|m IH|]; cbn [digits2_pos];
    rewrite ?Pos2Z.inj_succ, ?Z.pow_succ_r by lia; lia.
Qed.

Lemma digits2_lower (m : positive) : 2 ^ (Zpos (digits2_pos m) - 1) <= Zpos m.
Proof.
  induction m as [m IH|m IH|]; cbn [digits2_pos];
    rewrite ?Pos2Z.inj_succ; [| |cbn; lia];
    replace (Z.succ (Zpos (digits2_pos m)) - 1)
      with (Z.succ (Zpos (digits2_pos m) - 1)) by lia;
    rewrite Z.pow_succ_r by lia; lia.
Qed.

(** The number of digits is fixed by the binade. *)
Lemma digits2_unique (m : positive) (k : Z) :
  2 ^ (k - 1) <= Zpos m < 2 ^ k -> Zpos (digits2_pos m) = k.
Proof.
  intros [L U]. pose proof (digits2_lower m) as L'.
  pose proof (digits2_upper m) as U'.
  assert (K : 0 < k).
  { destruct (Z.lt_ge_cases 0 k) as [?|G]; [assumption|].
    destruct (Z.eq_dec k 0) as [->|N]; [cbn in U; lia|].
    rewrite (Z.pow_neg_r 2 k) in U by lia. lia. }
  set (d := Zpos (digits2_pos m)) in *.
  assert (D : 0 < d) by (unfold d; lia).
  destruct (Z.lt_trichotomy d k) as [H|[H|H]]; [exfalso|assumption|exfalso].
  - assert (2 ^ d <= 2 ^ (k - 1)) by (apply Z.pow_le_mono_r; lia). lia.
  - assert (2 ^ k <= 2 ^ (d - 1)) by (apply Z.pow_le_mono_r; lia). lia.
Qed.

Lemma shr_record_of_loc_holds (m : Z) (l : location) :
  shr_m (shr_record_of_loc m l) = m /\
  loc_of_shr_record (shr_record_of_loc m l) = l.
Proof. destruct l as [|[]]; split; reflexivity. Qed.

Lemma locationOf_cases (N D : Z) :
  0 < D ->
  let r := N mod D in
  (r = 0 /\ locationOf N D = loc_Exact) \/
  (0 < 2 * r < D /\ locationOf N D = loc_Inexact Lt) \/
  (2 * r = D /\ 0 < r /\ locationOf N D = loc_Inexact Eq) \/
  (D < 2 * r /\ locationOf N D = loc_Inexact Gt).
Proof.
  intros HD r. pose proof (Z.mod_pos_bound N D HD) as B. fold r in B.
  unfold locationOf. fold r.
  destruct (Z.eqb_spec r 0) as [E|NE]; [now left|right].
  destruct (Z.compare_spec (2 * r) D) as [E|L|G].
  - right. left. repeat split; lia.
  - left. split; [lia|reflexivity].
  - right. right. split; [lia|reflexivity].
Qed.

(** One shift to the right halves the quotient the record stands for. *)
Lemma holdsQuotient_shr_1 (N D : Z) (mrs : shr_record) :
  0 <= N -> 0 < D ->
  holdsQuotient N D mrs -> holdsQuotient N (2 * D) (shr_1 mrs).
Proof.
  intros HN HD [Hm Hl].
  pose proof (Z.div_mod N D ltac:(lia)) as E.
  pose proof (Z.mod_pos_bound N D HD) as B.
  set (q := N / D) in *. set (r := N mod D) in *.
  assert (Q : 0 <= q) by (apply Z.div_pos; lia).
  assert (K : forall h b, q = 2 * h + b -> 0 <= b < 2 ->
              N / (2 * D) = h /\ N mod (2 * D) = D * b + r).
  { intros h b Eq Hb.
    assert (N = (2 * D) * h + (D * b + r)) as EN by (rewrite E, Eq; ring).
    assert (0 <= D * b + r < 2 * D) by nia.
    split.
    - symmetry. apply (Z.div_unique N (2 * D) h (D * b + r)); [lia|exact EN].
    - symmetry. apply (Z.mod_unique N (2 * D) h (D * b + r)); [lia|exact EN]. }
  destruct (locationOf_cases N D HD) as [[R L]|[[R L]|[(R & R' & L)|[R L]]]];
    fold r in R; rewrite L in Hl; clear L;
    destruct mrs as [m [] []]; cbn in Hl; try discriminate Hl; clear Hl;
    cbn [shr_m] in Hm; unfold holdsQuotient, shr_1;
    destruct m as [|[p|p|]|p]; try lia;
    first [ destruct (K 0 0 ltac:(lia) ltac:(lia)) as [K1 K2]
          | destruct (K 0 1 ltac:(lia) ltac:(lia)) as [K1 K2]
          | destruct (K (Zpos p) 0 ltac:(lia) ltac:(lia)) as [K1 K2]
          | destruct (K (Zpos p) 1 ltac:(lia) ltac:(lia)) as [K1 K2] ];
    cbn [shr_m loc_of_shr_record orb]; rewrite K1; (split; [reflexivity|]);
    unfold locationOf; rewrite K2;
    repeat match goal with
           | |- context [?a =? ?b] => destruct (Z.eqb_spec a b); try lia
           | |- context [?a ?= ?b] => destruct (Z.compare_spec a b); try lia
           end; reflexivity.
Qed.

Lemma holdsQuotient_iter (p : positive) :
  forall N D mrs,
    0 <= N -> 0 < D ->
    holdsQuotient N D mrs ->
    holdsQuotient N (D * 2 ^ Zpos p) (iter_pos shr_1 p mrs).
Proof.
  induction p as [p IH|p IH|]; intros N D mrs HN HD H; cbn [iter_pos].
  - apply holdsQuotient_shr_1 in H; [|assumption..].
    apply IH in H; [|lia..].
    apply IH in H; [|try lia; apply Z.mul_pos_pos; lia..].
    replace (D * 2 ^ Zpos p~1) with (2 * D * 2 ^ Zpos p * 2 ^ Zpos p);
      [exact H|].
    replace (Zpos p~1) with (Zpos p + Zpos p + 1) by lia.
    rewrite !Z.pow_add_r by lia. change (2 ^ 1) with 2. ring.
  - apply IH in H; [|lia..].
    apply IH in H; [|try lia; apply Z.mul_pos_pos; lia..].
    replace (D * 2 ^ Zpos p~0) with (D * 2 ^ Zpos p * 2 ^ Zpos p);
      [exact H|].
    replace (Zpos p~0) with (Zpos p + Zpos p) by lia.
    rewrite !Z.pow_add_r by lia. ring.
  - apply holdsQuotient_shr_1 in H; [|assumption..].
    now rewrite Z.mul_comm.
Qed.

Lemma Zdigits2_bounds (z : Z) :
  0 < z -> 2 ^ (Zdigits2 z - 1) <= z < 2 ^ Zdigits2 z.
Proof.
  destruct z as [|p|p]; try lia. intros _. cbn [Zdigits2].
  split; [apply digits2_lower|apply digits2_upper].
Qed.

Lemma Zdigits2_unique (z k : Z) :
  2 ^ (k - 1) <= z < 2 ^ k -> 0 < z -> Zdigits2 z = k.
Proof.
  destruct z as [|p|p]; try lia. intros B _. now apply digits2_unique.
Qed.

Lemma Zdigits2_pos (z : Z) : 0 < z -> 0 < Zdigits2 z.
Proof. destruct z; cbn; lia. Qed.

(** *** Rounding a quotient *)

Lemma roundQuotient_bounds (N D : Z) :
  0 < D -> N / D <= roundQuotient N D <= N / D + 1.
Proof.
  intros HD. unfold roundQuotient.
  destruct (locationOf N D) as [|[]]; cbn; try lia.
  destruct (Z.even (N / D)); lia.
Qed.

Lemma roundQuotient_exact (N D : Z) :
  N mod D = 0 -> roundQuotient N D = N / D.
Proof.
  intros E. unfold roundQuotient, locationOf. now rewrite E.
Qed.

(** Rounding to nearest is monotone. *)
Lemma roundQuotient_mono (N1 D1 N2 D2 : Z) :
  0 < D1 -> 0 < D2 -> N1 * D2 <= N2 * D1 ->
  roundQuotient N1 D1 <= roundQuotient N2 D2.
Proof.
  intros H1 H2 L.
  pose proof (Z.div_mod N1 D1 ltac:(lia)) as E1.
  pose proof (Z.div_mod N2 D2 ltac:(lia)) as E2.
  pose proof (Z.mod_pos_bound N1 D1 H1) as B1.
  pose proof (Z.mod_pos_bound N2 D2 H2) as B2.
  pose proof (roundQuotient_bounds N1 D1 H1) as R1.
  pose proof (roundQuotient_bounds N2 D2 H2) as R2.
  assert (Q : N1 / D1 <= N2 / D2).
  { apply Z.div_le_lower_bound; [assumption|].
    destruct (Z.le_gt_cases (D2 * (N1 / D1)) N2) as [?|G]; [assumption|].
    exfalso. nia. }
  destruct (Z.eq_dec (N1 / D1) (N2 / D2)) as [Eq|Ne]; [|lia].
  assert (M : (N1 mod D1) * D2 <= (N2 mod D2) * D1) by nia.
  unfold roundQuotient in *. rewrite <- Eq in *.
  destruct (locationOf_cases N1 D1 H1) as [[C1 L1]|[[C1 L1]|[(C1 & C1' & L1)|[C1 L1]]]];
    destruct (locationOf_cases N2 D2 H2) as [[C2 L2]|[[C2 L2]|[(C2 & C2' & L2)|[C2 L2]]]];
    rewrite L1, L2; cbn [round_nearest_even];
    try (destruct (Z.even (N1 / D1)); lia); try lia; exfalso; nia.
Qed.

(** *** The rounding of [binary_round_aux] *)

Lemma shr_fexp_holds (N D e : Z) :
  0 <= N -> 0 < D ->
  let n := Z.max (fexp prec emax (Zdigits2 (N / D) + e) - e) 0 in
  holdsQuotient N (D * 2 ^ n)
    (fst (shr_fexp prec emax (N / D) e (locationOf N D))) /\
  snd (shr_fexp prec emax (N / D) e (locationOf N D)) = e + n.
Proof.
  intros HN HD. cbv zeta. unfold shr_fexp, shr.
  pose proof (shr_record_of_loc_holds (N / D) (locationOf N D)) as H0.
  destruct (fexp prec emax (Zdigits2 (N / D) + e) - e) as [|p|p] eqn:F;
    cbn [fst snd].
  - rewrite Z.max_id. cbn. rewrite Z.mul_1_r, Z.add_0_r. now split.
  - rewrite Z.max_l by lia. split; [|reflexivity].
    now apply holdsQuotient_iter.
  - rewrite Z.max_r by lia. cbn. rewrite Z.mul_1_r, Z.add_0_r. now split.
Qed.

(** [binary_round_aux] on a quotient: a shift to the precision, the
    rounding, and a second shift if the rounding carried. *)
Lemma binary_round_aux_eq (sx : bool) (N D e : Z) :
  0 <= N -> 0 < D ->
  let n1 := Z.max (fexp prec emax (Zdigits2 (N / D) + e) - e) 0 in
  let R := roundQuotient N (D * 2 ^ n1) in
  let e1 := e + n1 in
  let n2 := Z.max (fexp prec emax (Zdigits2 R + e1) - e1) 0 in
  binary_round_aux prec emax sx (N / D) e (locationOf N D)
  = match R / 2 ^ n2 with
    | Z0 => S754_zero sx
    | Zpos m => if e1 + n2 <=? emax - prec then S754_finite sx m (e1 + n2)
                else S754_infinity sx
    | Zneg _ => S754_nan
    end.
Proof.
  intros HN HD n1 R e1 n2. unfold binary_round_aux.
  destruct (shr_fexp_holds N D e HN HD) as [[Hm Hl] He]. fold n1 in Hm, Hl, He.
  destruct (shr_fexp prec emax (N / D) e (locationOf N D)) as [mrs' e'].
  cbn [fst snd] in Hm, Hl, He. subst e'. fold e1.
  assert (ER : round_nearest_even (shr_m mrs') (loc_of_shr_record mrs') = R).
  { unfold R, roundQuotient. now rewrite Hm, Hl. }
  rewrite ER.
  assert (R0 : 0 <= R).
  { pose proof (roundQuotient_bounds N (D * 2 ^ n1)) as B. fold R in B.
    assert (0 < D * 2 ^ n1) by (apply Z.mul_pos_pos; [lia|apply Z.pow_pos_nonneg; lia]).
    specialize (B H). assert (0 <= N / (D * 2 ^ n1)) by (apply Z.div_pos; lia).
    lia. }
  pose proof (shr_fexp_holds R 1 e1 R0 ltac:(lia)) as S.
  cbv zeta in S. rewrite Z.div_1_r in S.
  assert (LE : locationOf R 1 = loc_Exact).
  { unfold locationOf. now rewrite Z.mod_1_r. }
  rewrite LE in S. fold n2 in S. destruct S as [[Sm _] Se].
  destruct (shr_fexp prec emax R e1 loc_Exact) as [mrs'' e''].
  cbn [fst snd] in Sm, Se. subst e''. rewrite Sm, Z.mul_1_l. reflexivity.
Qed.

Lemma fexp_eq (x : Z) : fexp prec emax x = Z.max (x - 53) (-1074).
Proof. reflexivity. Qed.

(** A positive quotient at an exponent of the format is not rounded to
    zero: the result keeps the sign. *)
Lemma binary_round_aux_sign (sx : bool) (N D e : Z) :
  0 <= N -> 0 < D -> 0 < N / D -> -1074 <= e ->
  (exists m' e', binary_round_aux prec emax sx (N / D) e (locationOf N D)
                 = S754_finite sx m' e')
  \/ binary_round_aux prec emax sx (N / D) e (locationOf N D)
     = S754_infinity sx.
Proof.
  intros HN HD Hq He. rewrite (binary_round_aux_eq sx N D e HN HD).
  cbv zeta. rewrite !fexp_eq.
  set (d := Zdigits2 (N / D)).
  set (n1 := Z.max (Z.max (d + e - 53) (-1074) - e) 0).
  set (R := roundQuotient N (D * 2 ^ n1)).
  set (dR := Zdigits2 R).
  set (n2 := Z.max (Z.max (dR + (e + n1) - 53) (-1074) - (e + n1)) 0).
  pose proof (Zdigits2_bounds _ Hq) as Bd. fold d in Bd.
  pose proof (Zdigits2_pos _ Hq) as Pd. fold d in Pd.
  assert (N1 : 0 <= n1 <= d - 1) by (unfold n1; lia).
  assert (P1 : 0 < 2 ^ n1) by (apply Z.pow_pos_nonneg; lia).
  assert (Q1 : 1 <= N / (D * 2 ^ n1)).
  { rewrite <- Z.div_div by lia.
    apply Z.div_le_lower_bound; [lia|].
    assert (2 ^ n1 <= 2 ^ (d - 1)) by (apply Z.pow_le_mono_r; lia). lia. }
  assert (HR : 1 <= R).
  { pose proof (roundQuotient_bounds N (D * 2 ^ n1)
                  ltac:(apply Z.mul_pos_pos; lia)) as B. fold R in B. lia. }
  pose proof (Zdigits2_bounds R ltac:(lia)) as BR. fold dR in BR.
  pose proof (Zdigits2_pos R ltac:(lia)) as PR. fold dR in PR.
  assert (N2 : 0 <= n2 <= dR - 1) by (unfold n2; lia).
  assert (P2 : 0 < 2 ^ n2) by (apply Z.pow_pos_nonneg; lia).
  assert (M : 1 <= R / 2 ^ n2).
  { apply Z.div_le_lower_bound; [lia|].
    assert (2 ^ n2 <= 2 ^ (dR - 1)) by (apply Z.pow_le_mono_r; lia). lia. }
  destruct (R / 2 ^ n2) as [|m|m]; try lia.
  destruct (_ <=? _); [left; eauto|now right].
Qed.

Lemma iter_xO (m d : positive) :
  Zpos (Pos.iter xO m d) = Zpos m * 2 ^ Zpos d.
Proof.
  induction d as [|d IH] using Pos.peano_ind.
  - cbn. lia.
  - rewrite Pos.iter_succ, Pos2Z.inj_xO, IH, Pos2Z.inj_succ,
      Z.pow_succ_r by lia. ring.
Qed.

(** The mantissa [shl_align] returns, as a multiple of the given one. *)
Lemma shl_align_fst (m : positive) (e e' : Z) :
  Zpos (fst (shl_align m e e')) = Zpos m * 2 ^ Z.max (e - e') 0 /\
  snd (shl_align m e e') = Z.min e e'.
Proof.
  unfold shl_align. destruct (e' - e) as [|d|d] eqn:E; cbn [fst snd].
  - rewrite Z.max_r by lia. cbn. lia.
  - rewrite Z.max_r by lia. cbn. lia.
  - rewrite Z.max_l by lia. rewrite iter_xO.
    replace (e - e') with (Zpos d) by lia. lia.
Qed.

(** [binary_round] keeps the sign it is given. *)
Lemma binary_round_sign (sx : bool) (m : positive) (e : Z) :
  -1074 <= e ->
  (exists m' e', binary_round prec emax sx m e = S754_finite sx m' e')
  \/ binary_round prec emax sx m e = S754_infinity sx.
Proof.
  intros He. unfold binary_round.
  pose proof (shl_align_fst m e (fexp prec emax (Zpos (digits2_pos m) + e)))
    as [A1 A2].
  destruct (shl_align m e _) as [mz ez]. cbn [fst snd] in A1, A2.
  pose proof (binary_round_aux_sign sx (Zpos mz) 1 ez) as S.
  rewrite Z.div_1_r in S.
  assert (LE : locationOf (Zpos mz) 1 = loc_Exact).
  { unfold locationOf. now rewrite Z.mod_1_r. }
  rewrite LE in S. apply S; try lia.
  rewrite A2, fexp_eq. lia.
Qed.

(** *** Binary64 numbers *)

(** What validity says of a finite number. *)
Lemma valid_finite (s : bool) (m : positive) (e : Z) :
  valid_binary (S754_finite s m e) = true ->
  -1074 <= e <= 971 /\ Zpos m < 2 ^ 53 /\
  Zpos (digits2_pos m) <= 53 /\
  (-1074 < e -> Zpos (digits2_pos m) = 53 /\ 2 ^ 52 <= Zpos m).
Proof.
  cbn [SpecFloat.valid_binary]. unfold bounded, canonical_mantissa.
  intros V. apply andb_prop in V. destruct V as [C B].
  apply Z.eqb_eq in C. apply Z.leb_le in B. rewrite fexp_eq in C.
  change (emax - prec) with 971 in B.
  pose proof (digits2_upper m) as U. pose proof (digits2_lower m) as L.
  assert (D : Zpos (digits2_pos m) <= 53) by lia.
  split; [lia|]. split; [|split; [exact D|]].
  - eapply Z.lt_le_trans; [exact U|]. apply Z.pow_le_mono_r; lia.
  - intros E. assert (D' : Zpos (digits2_pos m) = 53) by lia.
    split; [exact D'|]. now rewrite D' in L.
Qed.

(** The order of two finite numbers of the same sign is the order of
    their mantissas once aligned on the smaller exponent. *)
Lemma SFcompare_aligned (mx my : positive) (ex ey : Z) :
  valid_binary (S754_finite false mx ex) = true ->
  valid_binary (S754_finite false my ey) = true ->
  let ez := Z.min ex ey in
  match Z.compare ex ey with
  | Lt => Lt
  | Gt => Gt
  | Eq => Pos.compare_cont Eq mx my
  end
  = (Zpos (fst (shl_align mx ex ez)) ?= Zpos (fst (shl_align my ey ez))).
Proof.
  intros Vx Vy ez.
  destruct (valid_finite _ _ _ Vx) as (Ex & Ux & _ & Nx).
  destruct (valid_finite _ _ _ Vy) as (Ey & Uy & _ & Ny).
  destruct (shl_align_fst mx ex ez) as [-> _].
  destruct (shl_align_fst my ey ez) as [-> _].
  unfold ez. symmetry.
  destruct (Z.compare_spec ex ey) as [E|L|G].
  - subst ey. rewrite Z.min_id, Z.sub_diag. cbn [Z.max Z.pow].
    now rewrite !Z.mul_1_r.
  - rewrite Z.min_l by lia. rewrite Z.sub_diag. cbn [Z.max]. rewrite Z.pow_0_r, Z.mul_1_r.
    rewrite Z.max_l by lia. apply Z.compare_lt_iff.
    destruct (Ny ltac:(lia)) as [_ Ly].
    assert (2 ^ 1 <= 2 ^ (ey - ex)) by (apply Z.pow_le_mono_r; lia).
    change (2 ^ 1) with 2 in *. change (2 ^ 53) with (2 * 2 ^ 52) in Ux. nia.
  - rewrite Z.min_r by lia. rewrite Z.sub_diag. cbn [Z.max]. rewrite Z.pow_0_r, Z.mul_1_r.
    rewrite Z.max_l by lia. apply Z.compare_gt_iff.
    destruct (Nx ltac:(lia)) as [_ Lx].
    assert (2 ^ 1 <= 2 ^ (ex - ey)) by (apply Z.pow_le_mono_r; lia).
    change (2 ^ 1) with 2 in *. change (2 ^ 53) with (2 * 2 ^ 52) in Uy. nia.
Qed.

Lemma SFltb_zero_sign (s : bool) (x : spec_float) :
  (exists m e, x = S754_finite s m e) \/ x = S754_infinity s ->
  SFltb x (S754_zero false) = s.
Proof. intros [(m & e & ->)| ->]; now destruct s. Qed.

Lemma binary_normalize_ltb_zero (d e : Z) :
  -1074 <= e ->
  SFltb (binary_normalize prec emax d e false) (S754_zero false) = (d <? 0).
Proof.
  intros He. destruct d as [|p|p]; cbn [binary_normalize].
  - reflexivity.
  - now rewrite (SFltb_zero_sign false _ (binary_round_sign false p e He)).
  - now rewrite (SFltb_zero_sign true _ (binary_round_sign true p e He)).
Qed.

(** The comparator of the sort, [x - y < 0], is [x < y]. *)
Lemma SFsub_ltb_zero (x y : spec_float) :
  valid_binary x = true -> valid_binary y = true ->
  SFltb (SFsub prec emax x y) (S754_zero false) = SFltb x y.
Proof.
  intros Vx Vy.
  destruct x as [sx|sx| |sx mx ex], y as [sy|sy| |sy my ey];
    try reflexivity; try (destruct sx; reflexivity);
    try (destruct sy; reflexivity); try (destruct sx, sy; reflexivity).
  cbn [SFsub]. set (ez := Z.min ex ey).
  destruct (valid_finite _ _ _ Vx) as (Ex & _).
  destruct (valid_finite _ _ _ Vy) as (Ey & _).
  rewrite binary_normalize_ltb_zero by (unfold ez; lia).
  unfold SFltb. cbn [SFcompare].
  assert (Vx' : valid_binary (S754_finite false mx ex) = true) by exact Vx.
  assert (Vy' : valid_binary (S754_finite false my ey) = true) by exact Vy.
  pose proof (SFcompare_aligned mx my ex ey Vx' Vy') as A. cbv zeta in A.
  fold ez in A.
  set (X := fst (shl_align mx ex ez)) in *.
  set (Y := fst (shl_align my ey ez)) in *.
  destruct sx, sy; cbn [cond_Zopp]; rewrite ?A.
  - replace (match ex ?= ey with
             | Eq => CompOpp (Pos.compare_cont Eq mx my)
             | Lt => Gt
             | Gt => Lt
             end)
      with (CompOpp (Zpos X ?= Zpos Y))
      by (rewrite <- A; destruct (ex ?= ey); reflexivity).
    destruct (Z.compare_spec (Zpos X) (Zpos Y)); cbn [CompOpp];
      apply Z.ltb_ge || apply Z.ltb_lt; lia.
  - apply Z.ltb_lt. lia.
  - apply Z.ltb_ge. lia.
  - destruct (Z.compare_spec (Zpos X) (Zpos Y));
      apply Z.ltb_ge || apply Z.ltb_lt; lia.
Qed.

Lemma sub_ltb_zero (x y : float) : (x - y <? 0)%float = (x <? y)%float.
Proof.
  rewrite !ltb_spec, sub_spec.
  apply SFsub_ltb_zero; apply Prim2SF_valid.
Qed.

(** *** The normal range *)

(** In the normal range the quotient is shifted to 53 digits and rounded;
    a carry moves the result to the next binade. *)
Lemma binary_round_aux_normal (sx : bool) (N D e : Z) :
  0 <= N -> 0 < D -> 0 < N / D ->
  let d := Zdigits2 (N / D) in
  let G := d + e - 53 in
  53 <= d -> -1074 <= G <= 970 ->
  let R := roundQuotient N (D * 2 ^ (d - 53)) in
  2 ^ 52 <= R <= 2 ^ 53 /\
  binary_round_aux prec emax sx (N / D) e (locationOf N D) = normalOf sx R G.
Proof.
  intros HN HD Hq d G Hd HG R.
  rewrite (binary_round_aux_eq sx N D e HN HD). cbv zeta. rewrite !fexp_eq.
  fold d.
  assert (E1 : Z.max (Z.max (d + e - 53) (-1074) - e) 0 = d - 53)
    by (unfold G in HG; lia).
  rewrite E1. fold R.
  replace (e + (d - 53)) with G by (unfold G; lia).
  pose proof (Zdigits2_bounds _ Hq) as Bd. fold d in Bd.
  assert (P1 : 0 < 2 ^ (d - 53)) by (apply Z.pow_pos_nonneg; lia).
  assert (Q : 2 ^ 52 <= N / (D * 2 ^ (d - 53)) < 2 ^ 53).
  { rewrite <- Z.div_div by lia.
    assert (S1 : 2 ^ (d - 1) = 2 ^ 52 * 2 ^ (d - 53)).
    { rewrite <- Z.pow_add_r by lia. f_equal. lia. }
    assert (S2 : 2 ^ d = 2 ^ 53 * 2 ^ (d - 53)).
    { rewrite <- Z.pow_add_r by lia. f_equal. lia. }
    split.
    - apply Z.div_le_lower_bound; [lia|]. lia.
    - apply Z.div_lt_upper_bound; [lia|]. lia. }
  pose proof (roundQuotient_bounds N (D * 2 ^ (d - 53))
                ltac:(apply Z.mul_pos_pos; lia)) as B. fold R in B.
  assert (HR : 2 ^ 52 <= R <= 2 ^ 53) by lia.
  split; [exact HR|]. unfold normalOf.
  destruct (Z.eqb_spec R (2 ^ 53)) as [E|NE].
  - rewrite E. change (Zdigits2 (2 ^ 53)) with 54.
    replace (Z.max (Z.max (54 + G - 53) (-1074) - G) 0) with 1 by lia.
    change (2 ^ 53 / 2 ^ 1) with (Zpos (2 ^ 52)).
    cbv iota beta.
    destruct (Z.leb_spec (G + 1) (emax - prec)) as [_|L]; [reflexivity|].
    change (emax - prec) with 971 in L. lia.
  - assert (DR : Zdigits2 R = 53).
    { apply Zdigits2_unique; [|lia]. change (53 - 1) with 52. lia. }
    rewrite DR.
    replace (Z.max (Z.max (53 + G - 53) (-1074) - G) 0) with 0 by lia.
    rewrite Z.pow_0_r, Z.div_1_r, Z.add_0_r.
    destruct R as [|p|p]; try (cbn in HR; lia).
    cbn [Z.to_pos].
    destruct (Z.leb_spec G (emax - prec)) as [_|L]; [reflexivity|].
    change (emax - prec) with 971 in L. lia.
Qed.

(** The order of two results in the normal range. *)
Lemma SFleb_normalOf (R1 G1 R2 G2 : Z) :
  2 ^ 52 <= R1 <= 2 ^ 53 -> 2 ^ 52 <= R2 <= 2 ^ 53 ->
  G1 < G2 \/ (G1 = G2 /\ R1 <= R2) ->
  SFleb (normalOf false R1 G1) (normalOf false R2 G2) = true.
Proof.
  intros H1 H2 H. unfold normalOf, SFleb, SFcompare.
  change (2 ^ 53) with 9007199254740992 in *.
  change (2 ^ 52) with 4503599627370496 in *.
  destruct (Z.eqb_spec R1 9007199254740992) as [E1|N1];
    destruct (Z.eqb_spec R2 9007199254740992) as [E2|N2];
    repeat match goal with
           | |- context [Z.compare ?a ?b] =>
               destruct (Z.compare_spec a b); try lia
           end; try reflexivity;
    change (Pos.compare_cont Eq ?a ?b) with (Pos.compare a b);
    match goal with
    | |- context [Pos.compare ?a ?b] =>
        destruct (Pos.compare_spec a b) as [C|C|C]; try reflexivity
    end; exfalso.
  - assert (Zpos (Z.to_pos R2) = R2) by (apply Z2Pos.id; lia). lia.
  - assert (Zpos (Z.to_pos R1) = R1) by (apply Z2Pos.id; lia).
    assert (Zpos (Z.to_pos R2) = R2) by (apply Z2Pos.id; lia). lia.
Qed.

(** Rounding is monotone: of two quotients in the normal range, the
    smaller is rounded to the smaller number.  The quotients are compared
    as [N / D * 2 ^ e], scaled by [2 ^ K]. *)
Lemma binary_round_aux_mono (N1 D1 e1 N2 D2 e2 K : Z) :
  0 <= N1 -> 0 < D1 -> 0 < N1 / D1 ->
  0 <= N2 -> 0 < D2 -> 0 < N2 / D2 ->
  let d1 := Zdigits2 (N1 / D1) in
  let d2 := Zdigits2 (N2 / D2) in
  53 <= d1 -> -1074 <= d1 + e1 - 53 <= 970 ->
  53 <= d2 -> -1074 <= d2 + e2 - 53 <= 970 ->
  0 <= e1 + K -> 0 <= e2 + K ->
  N1 * D2 * 2 ^ (e1 + K) <= N2 * D1 * 2 ^ (e2 + K) ->
  SFleb (binary_round_aux prec emax false (N1 / D1) e1 (locationOf N1 D1))
        (binary_round_aux prec emax false (N2 / D2) e2 (locationOf N2 D2))
  = true.
Proof.
  intros HN1 HD1 Hq1 HN2 HD2 Hq2 d1 d2 Hd1 HG1 Hd2 HG2 K1 K2 L.
  destruct (binary_round_aux_normal false N1 D1 e1 HN1 HD1 Hq1 Hd1 HG1)
    as [B1 ->].
  destruct (binary_round_aux_normal false N2 D2 e2 HN2 HD2 Hq2 Hd2 HG2)
    as [B2 ->].
  fold d1 d2 in B1, B2 |- *.
  apply SFleb_normalOf; [exact B1|exact B2|].
  pose proof (Zdigits2_bounds _ Hq1) as Bd1. fold d1 in Bd1.
  pose proof (Zdigits2_bounds _ Hq2) as Bd2. fold d2 in Bd2.
  pose proof (Z.div_mod N1 D1 ltac:(lia)) as M1.
  pose proof (Z.mod_pos_bound N1 D1 HD1) as R1.
  pose proof (Z.div_mod N2 D2 ltac:(lia)) as M2.
  pose proof (Z.mod_pos_bound N2 D2 HD2) as R2.
  set (P1 := 2 ^ (e1 + K)) in *. set (P2 := 2 ^ (e2 + K)) in *.
  assert (HP1 : 0 < P1) by (apply Z.pow_pos_nonneg; lia).
  assert (HP2 : 0 < P2) by (apply Z.pow_pos_nonneg; lia).
  assert (A1 : 2 ^ (d1 - 1) * D1 <= N1) by nia.
  assert (A2 : N2 < 2 ^ d2 * D2) by nia.
  assert (C : 2 ^ (d1 - 1) * P1 < 2 ^ d2 * P2).
  { assert (2 ^ (d1 - 1) * D1 * D2 * P1 <= N1 * D2 * P1).
    { apply Z.mul_le_mono_nonneg_r; [lia|].
      apply Z.mul_le_mono_nonneg_r; [lia|]. exact A1. }
    assert (N2 * D1 * P2 < 2 ^ d2 * D2 * D1 * P2).
    { apply Z.mul_lt_mono_pos_r; [lia|].
      apply Z.mul_lt_mono_pos_r; [lia|]. exact A2. }
    assert (T : 2 ^ (d1 - 1) * P1 * (D1 * D2) < 2 ^ d2 * P2 * (D1 * D2)) by lia.
    apply Z.mul_lt_mono_pos_r in T; [exact T|]. apply Z.mul_pos_pos; lia. }
  unfold P1, P2 in C. rewrite <- !Z.pow_add_r in C by lia.
  apply Z.pow_lt_mono_r_iff in C; [|lia|lia].
  destruct (Z.eq_dec (d1 + e1 - 53) (d2 + e2 - 53)) as [E|NE]; [right|left; lia].
  split; [exact E|].
  apply roundQuotient_mono.
  - apply Z.mul_pos_pos; [lia|apply Z.pow_pos_nonneg; lia].
  - apply Z.mul_pos_pos; [lia|apply Z.pow_pos_nonneg; lia].
  - set (n1 := d1 - 53) in *. set (n2 := d2 - 53) in *.
    assert (S1 : 2 ^ (n1 + n2) * P1 = 2 ^ n2 * 2 ^ (d1 + e1 - 53 + K)).
    { unfold P1. rewrite <- !Z.pow_add_r by lia. f_equal. lia. }
    assert (S2 : 2 ^ (n1 + n2) * P2 = 2 ^ n1 * 2 ^ (d1 + e1 - 53 + K)).
    { unfold P2. rewrite <- !Z.pow_add_r by lia. f_equal. lia. }
    set (Q := 2 ^ (d1 + e1 - 53 + K)) in *.
    assert (HQ : 0 < Q) by (apply Z.pow_pos_nonneg; lia).
    assert (HS : 0 < 2 ^ (n1 + n2)) by (apply Z.pow_pos_nonneg; lia).
    assert (T : N1 * D2 * (2 ^ (n1 + n2) * P1) <= N2 * D1 * (2 ^ (n1 + n2) * P2)).
    { replace (N1 * D2 * (2 ^ (n1 + n2) * P1))
        with (2 ^ (n1 + n2) * (N1 * D2 * P1)) by ring.
      replace (N2 * D1 * (2 ^ (n1 + n2) * P2))
        with (2 ^ (n1 + n2) * (N2 * D1 * P2)) by ring.
      apply Z.mul_le_mono_nonneg_l; [lia|exact L]. }
    rewrite S1, S2 in T.
    replace (N1 * D2 * (2 ^ n2 * Q)) with (N1 * (D2 * 2 ^ n2) * Q) in T by ring.
    replace (N2 * D1 * (2 ^ n1 * Q)) with (N2 * (D1 * 2 ^ n1) * Q) in T by ring.
    apply Z.mul_le_mono_pos_r in T; [exact T|exact HQ].
Qed.

End RoundFacts.

(** ** The arithmetic of numbers in the normal range *)

Module OpFacts.
Import RoundFacts.
Local Open Scope Z_scope.

Lemma Zdigits2_range (z a b : Z) :
  0 < z -> 0 <= a -> 2 ^ a <= z < 2 ^ b -> a < Zdigits2 z <= b.
Proof.
  intros Hz Ha [L U]. pose proof (Zdigits2_bounds z Hz) as [L' U'].
  pose proof (Zdigits2_pos z Hz) as P.
  assert (Hb : 0 <= b).
  { destruct (Z.le_gt_cases 0 b) as [?|G]; [assumption|].
    rewrite (Z.pow_neg_r 2 b) in U by lia. lia. }
  split.
  - apply (Z.pow_lt_mono_r_iff 2); lia.
  - assert (Zdigits2 z - 1 < b); [|lia].
    apply (Z.pow_lt_mono_r_iff 2); lia.
Qed.

Lemma mantissa_53 (m : positive) :
  Zpos (digits2_pos m) = 53 -> 2 ^ 52 <= Zpos m < 2 ^ 53.
Proof.
  intros D. pose proof (digits2_lower m) as L.
  pose proof (digits2_upper m) as U. rewrite D in L, U. exact (conj L U).
Qed.

Lemma locationOf_1 (N : Z) : locationOf N 1 = loc_Exact.
Proof. unfold locationOf. now rewrite Z.mod_1_r. Qed.

Lemma roundsTo_mono (x1 x2 : spec_float) (N1 D1 e1 N2 D2 e2 K : Z) :
  roundsTo x1 N1 D1 e1 -> roundsTo x2 N2 D2 e2 ->
  0 <= e1 + K -> 0 <= e2 + K ->
  N1 * D2 * 2 ^ (e1 + K) <= N2 * D1 * 2 ^ (e2 + K) ->
  SFleb x1 x2 = true.
Proof.
  intros (-> & A1 & B1 & C1 & F1 & G1) (-> & A2 & B2 & C2 & F2 & G2) K1 K2 L.
  now apply (binary_round_aux_mono N1 D1 e1 N2 D2 e2 K).
Qed.

(** A rounded quotient of the normal range is a positive number. *)
Lemma roundsTo_positive (x : spec_float) (N D e : Z) :
  roundsTo x N D e -> exists m' e', x = S754_finite false m' e'.
Proof.
  intros (-> & A & B & C & F & G).
  destruct (binary_round_aux_normal false N D e A B C F G) as [_ ->].
  unfold normalOf. destruct (_ =? _); eauto.
Qed.

(** A number of the normal range is the rounding of itself. *)
Lemma roundsTo_exact (x : spec_float) (m : positive) (e : Z) :
  midRange x m e -> roundsTo x (Zpos m) 1 e.
Proof.
  intros (-> & D & W). pose proof (mantissa_53 m D) as B.
  unfold roundsTo. rewrite Z.div_1_r, locationOf_1. cbn [Zdigits2].
  rewrite D. repeat split; try lia.
  pose proof (binary_round_aux_normal false (Zpos m) 1 e
                ltac:(lia) ltac:(lia)) as H.
  rewrite Z.div_1_r, locationOf_1 in H. cbn [Zdigits2] in H. rewrite D in H.
  destruct (H ltac:(lia) ltac:(lia) ltac:(lia)) as [_ ->].
  change (53 - 53) with 0. rewrite Z.pow_0_r.
  rewrite roundQuotient_exact by (now rewrite Z.mul_1_r, Z.mod_1_r).
  rewrite Z.mul_1_r, Z.div_1_r. unfold normalOf.
  destruct (Z.eqb_spec (Zpos m) (2 ^ 53)) as [E|_]; [lia|].
  cbn [Z.to_pos]. f_equal. lia.
Qed.

(** The order of two numbers is the order of their values. *)
Lemma SFleb_value (x y : spec_float) (mx my : positive) (ex ey : Z) :
  midRange x mx ex -> midRange y my ey ->
  SFleb x y = true ->
  Zpos mx * 2 ^ (ex + 1000) <= Zpos my * 2 ^ (ey + 1000).
Proof.
  intros (-> & Dx & Wx) (-> & Dy & Wy).
  pose proof (mantissa_53 mx Dx) as Bx. pose proof (mantissa_53 my Dy) as By.
  unfold SFleb, SFcompare.
  assert (P : 0 < 2 ^ (ex + 1000)) by (apply Z.pow_pos_nonneg; lia).
  destruct (Z.compare_spec ex ey) as [E|L|G]; try discriminate.
  - subst ey. change (Pos.compare_cont Eq mx my) with (Pos.compare mx my).
    destruct (Pos.compare_spec mx my) as [C|C|C]; try discriminate; intros _;
      apply Z.mul_le_mono_nonneg_r; lia.
  - intros _.
    replace (ey + 1000) with ((ex + 1000) + (ey - ex)) by lia.
    rewrite (Z.pow_add_r 2 (ex + 1000) (ey - ex)) by lia.
    assert (Q : 2 ^ 1 <= 2 ^ (ey - ex)) by (apply Z.pow_le_mono_r; lia).
    change (2 ^ 1) with 2 in Q.
    change (2 ^ 53) with 9007199254740992 in Bx.
    change (2 ^ 52) with 4503599627370496 in By.
    assert (T : Zpos mx <= Zpos my * 2 ^ (ey - ex)) by nia.
    rewrite (Z.mul_comm (2 ^ (ex + 1000))), Z.mul_assoc.
    apply Z.mul_le_mono_nonneg_r; lia.
Qed.

(** *** Products *)

Lemma SFmul_roundsTo (x y : spec_float) (mx my : positive) (ex ey : Z) :
  midRange x mx ex -> midRange y my ey ->
  roundsTo (SFmul prec emax x y) (Zpos mx * Zpos my) 1 (ex + ey).
Proof.
  intros (-> & Dx & Wx) (-> & Dy & Wy).
  pose proof (mantissa_53 mx Dx) as Bx. pose proof (mantissa_53 my Dy) as By.
  unfold roundsTo. rewrite Z.div_1_r, locationOf_1. cbn [SFmul xorb].
  rewrite Pos2Z.inj_mul.
  assert (N : 2 ^ 104 <= Zpos mx * Zpos my < 2 ^ 106).
  { change (2 ^ 104) with (2 ^ 52 * 2 ^ 52).
    change (2 ^ 106) with (2 ^ 53 * 2 ^ 53). nia. }
  pose proof (Zdigits2_range (Zpos mx * Zpos my) 104 106
                ltac:(lia) ltac:(lia) N) as R.
  repeat split; lia.
Qed.

Lemma SFmul_mono (x x' y y' : spec_float) (mx mx' my my' : positive)
    (ex ex' ey ey' : Z) :
  midRange x mx ex -> midRange x' mx' ex' ->
  midRange y my ey -> midRange y' my' ey' ->
  SFleb x x' = true -> SFleb y y' = true ->
  SFleb (SFmul prec emax x y) (SFmul prec emax x' y') = true.
Proof.
  intros Hx Hx' Hy Hy' Lx Ly.
  pose proof (SFleb_value _ _ _ _ _ _ Hx Hx' Lx) as Vx.
  pose proof (SFleb_value _ _ _ _ _ _ Hy Hy' Ly) as Vy.
  apply (roundsTo_mono _ _ _ _ _ _ _ _ 2000
           (SFmul_roundsTo _ _ _ _ _ _ Hx Hy)
           (SFmul_roundsTo _ _ _ _ _ _ Hx' Hy')).
  - destruct Hx as (_ & _ & ?), Hy as (_ & _ & ?). lia.
  - destruct Hx' as (_ & _ & ?), Hy' as (_ & _ & ?). lia.
  - destruct Hx as (_ & _ & Wx), Hy as (_ & _ & Wy),
             Hx' as (_ & _ & Wx'), Hy' as (_ & _ & Wy').
    replace (ex + ey + 2000) with ((ex + 1000) + (ey + 1000)) by lia.
    replace (ex' + ey' + 2000) with ((ex' + 1000) + (ey' + 1000)) by lia.
    rewrite (Z.pow_add_r 2 (ex + 1000) (ey + 1000)) by lia.
    rewrite (Z.pow_add_r 2 (ex' + 1000) (ey' + 1000)) by lia.
    rewrite !Z.mul_1_r.
    set (A := 2 ^ (ex + 1000)) in *. set (B := 2 ^ (ey + 1000)) in *.
    set (A' := 2 ^ (ex' + 1000)) in *. set (B' := 2 ^ (ey' + 1000)) in *.
    assert (0 < A) by (apply Z.pow_pos_nonneg; lia).
    assert (0 < B) by (apply Z.pow_pos_nonneg; lia).
    replace (Zpos mx * Zpos my * (A * B))
      with ((Zpos mx * A) * (Zpos my * B)) by ring.
    replace (Zpos mx' * Zpos my' * (A' * B'))
      with ((Zpos mx' * A') * (Zpos my' * B')) by ring.
    apply Z.mul_le_mono_nonneg; lia.
Qed.

(** *** Sums *)

Lemma shl_align_noop (m : positive) (e e' : Z) :
  e <= e' -> shl_align m e e' = (m, e).
Proof.
  intros L. unfold shl_align. destruct (e' - e) eqn:E; try reflexivity. lia.
Qed.

Lemma SFadd_roundsTo (x y : spec_float) (mx my : positive) (ex ey : Z) :
  midRange x mx ex -> midRange y my ey ->
  exists N,
    roundsTo (SFadd prec emax x y) N 1 (Z.min ex ey) /\
    N * 2 ^ (Z.min ex ey + 1000)
    = Zpos mx * 2 ^ (ex + 1000) + Zpos my * 2 ^ (ey + 1000).
Proof.
  intros (-> & Dx & Wx) (-> & Dy & Wy).
  pose proof (mantissa_53 mx Dx) as Bx. pose proof (mantissa_53 my Dy) as By.
  cbn [SFadd cond_Zopp]. set (ez := Z.min ex ey).
  destruct (shl_align_fst mx ex ez) as [AX _].
  destruct (shl_align_fst my ey ez) as [AY _].
  set (X := fst (shl_align mx ex ez)) in *.
  set (Y := fst (shl_align my ey ez)) in *.
  rewrite <- Pos2Z.inj_add. cbn [binary_normalize]. unfold binary_round.
  set (tx := Z.max (ex - ez) 0) in *. set (ty := Z.max (ey - ez) 0) in *.
  assert (Tx : 0 <= tx) by (unfold tx; lia).
  assert (Ty : 0 <= ty) by (unfold ty; lia).
  assert (T0 : tx = 0 \/ ty = 0) by (unfold tx, ty, ez; lia).
  assert (Px : 1 <= 2 ^ tx) by (apply (Z.pow_le_mono_r 2 0 tx); lia).
  assert (Py : 1 <= 2 ^ ty) by (apply (Z.pow_le_mono_r 2 0 ty); lia).
  set (t := Z.max tx ty).
  assert (Pt : 2 ^ tx <= 2 ^ t /\ 2 ^ ty <= 2 ^ t)
    by (split; apply Z.pow_le_mono_r; unfold t; lia).
  assert (N : 2 ^ 52 <= Zpos (X + Y) < 2 ^ (54 + t)).
  { rewrite Pos2Z.inj_add, AX, AY. split; [nia|].
    replace (54 + t) with (1 + 53 + t) by lia.
    rewrite !Z.pow_add_r by (unfold t; lia). change (2 ^ 1) with 2.
    nia. }
  pose proof (Zdigits2_range (Zpos (X + Y)) 52 (54 + t)
                ltac:(lia) ltac:(lia) N) as R.
  cbn [Zdigits2] in R.
  assert (Ez : -400 <= ez <= 400) by (unfold ez; lia).
  assert (Et : ez + t <= 400) by (unfold t, tx, ty, ez; lia).
  rewrite shl_align_noop by (rewrite fexp_eq; lia).
  exists (Zpos (X + Y)). split.
  - unfold roundsTo. rewrite Z.div_1_r, locationOf_1. cbn [Zdigits2].
    repeat split; lia.
  - rewrite Pos2Z.inj_add, AX, AY, Z.mul_add_distr_r.
    rewrite <- !Z.mul_assoc, <- !Z.pow_add_r by lia.
    f_equal; f_equal; f_equal; unfold tx, ty, ez; lia.
Qed.

Lemma SFadd_mono (x x' y y' : spec_float) (mx mx' my my' : positive)
    (ex ex' ey ey' : Z) :
  midRange x mx ex -> midRange x' mx' ex' ->
  midRange y my ey -> midRange y' my' ey' ->
  SFleb x x' = true -> SFleb y y' = true ->
  SFleb (SFadd prec emax x y) (SFadd prec emax x' y') = true.
Proof.
  intros Hx Hx' Hy Hy' Lx Ly.
  pose proof (SFleb_value _ _ _ _ _ _ Hx Hx' Lx) as Vx.
  pose proof (SFleb_value _ _ _ _ _ _ Hy Hy' Ly) as Vy.
  destruct (SFadd_roundsTo _ _ _ _ _ _ Hx Hy) as (N & R & V).
  destruct (SFadd_roundsTo _ _ _ _ _ _ Hx' Hy') as (N' & R' & V').
  destruct Hx as (_ & _ & Wx), Hy as (_ & _ & Wy),
           Hx' as (_ & _ & Wx'), Hy' as (_ & _ & Wy').
  apply (roundsTo_mono _ _ _ _ _ _ _ _ 1000 R R'); lia.
Qed.

(** *** Quotients *)

Lemma new_location_eq (D r : Z) :
  0 < D -> 0 <= r < D ->
  new_location D r
  = if r =? 0 then loc_Exact else loc_Inexact (2 * r ?= D).
Proof.
  intros HD Hr. unfold new_location, new_location_even, new_location_odd.
  destruct (Z.even D) eqn:E; [reflexivity|].
  destruct (Z.eqb_spec r 0) as [_|NZ]; [reflexivity|]. f_equal.
  assert (O : Z.odd D = true) by (rewrite <- Z.negb_even, E; reflexivity).
  apply Z.odd_spec in O. destruct O as [k O].
  destruct (Z.compare_spec (2 * r + 1) D) as [C|C|C];
    destruct (Z.compare_spec (2 * r) D) as [C'|C'|C']; try reflexivity; lia.
Qed.

Lemma SFdiv_roundsTo (x y : spec_float) (mx my : positive) (ex ey : Z) :
  midRange x mx ex -> midRange y my ey ->
  roundsTo (SFdiv prec emax x y) (Zpos mx * 2 ^ 53) (Zpos my) (ex - ey - 53).
Proof.
  intros (-> & Dx & Wx) (-> & Dy & Wy).
  pose proof (mantissa_53 mx Dx) as Bx. pose proof (mantissa_53 my Dy) as By.
  cbn [SFdiv xorb]. unfold SFdiv_core_binary. cbn [Zdigits2].
  rewrite Dx, Dy, fexp_eq.
  replace (Z.min (Z.max (53 + ex - (53 + ey) - 53) (-1074)) (ex - ey))
    with (ex - ey - 53) by lia.
  replace (ex - ey - (ex - ey - 53)) with 53 by lia.
  rewrite Z.shiftl_mul_pow2 by lia.
  set (N := Zpos mx * 2 ^ 53).
  pose proof (Z.mod_pos_bound N (Zpos my) ltac:(lia)) as Hr.
  assert (Eq : Z.div_eucl N (Zpos my) = (N / Zpos my, N mod Zpos my)).
  { unfold Z.div, Z.modulo. now destruct (Z.div_eucl N (Zpos my)). }
  rewrite Eq, (new_location_eq (Zpos my) (N mod Zpos my) ltac:(lia) Hr).
  fold (locationOf N (Zpos my)).
  assert (Q : 2 ^ 52 <= N / Zpos my < 2 ^ 54).
  { split.
    - apply Z.div_le_lower_bound; [lia|]. unfold N.
      change (2 ^ 53) with 9007199254740992 in *.
      change (2 ^ 52) with 4503599627370496 in *. nia.
    - apply Z.div_lt_upper_bound; [lia|]. unfold N.
      change (2 ^ 54) with 18014398509481984.
      change (2 ^ 53) with 9007199254740992 in *.
      change (2 ^ 52) with 4503599627370496 in *. nia. }
  pose proof (Zdigits2_range (N / Zpos my) 52 54
                ltac:(lia) ltac:(lia) Q) as R.
  unfold roundsTo. repeat split; lia.
Qed.

Lemma SFdiv_mono (x x' y y' : spec_float) (mx mx' my my' : positive)
    (ex ex' ey ey' : Z) :
  midRange x mx ex -> midRange x' mx' ex' ->
  midRange y my ey -> midRange y' my' ey' ->
  SFleb x x' = true -> SFleb y' y = true ->
  SFleb (SFdiv prec emax x y) (SFdiv prec emax x' y') = true.
Proof.
  intros Hx Hx' Hy Hy' Lx Ly.
  pose proof (SFleb_value _ _ _ _ _ _ Hx Hx' Lx) as Vx.
  pose proof (SFleb_value _ _ _ _ _ _ Hy' Hy Ly) as Vy.
  pose proof (SFdiv_roundsTo _ _ _ _ _ _ Hx Hy) as R.
  pose proof (SFdiv_roundsTo _ _ _ _ _ _ Hx' Hy') as R'.
  destruct Hx as (_ & _ & Wx), Hy as (_ & _ & Wy),
           Hx' as (_ & _ & Wx'), Hy' as (_ & _ & Wy').
  apply (roundsTo_mono _ _ _ _ _ _ _ _ 1000 R R'); try lia.
  set (A := 2 ^ (ex + 1000)) in *. set (B := 2 ^ (ey + 1000)) in *.
  set (A' := 2 ^ (ex' + 1000)) in *. set (B' := 2 ^ (ey' + 1000)) in *.
  set (T := 2 ^ (ex - ey - 53 + 1000)).
  set (T' := 2 ^ (ex' - ey' - 53 + 1000)).
  assert (HA : 0 < A) by (apply Z.pow_pos_nonneg; lia).
  assert (HB : 0 < B) by (apply Z.pow_pos_nonneg; lia).
  assert (HA' : 0 < A') by (apply Z.pow_pos_nonneg; lia).
  assert (HB' : 0 < B') by (apply Z.pow_pos_nonneg; lia).
  assert (E : T * B * 2 ^ 53 = A * 2 ^ 1000).
  { unfold T, A, B. rewrite <- !Z.pow_add_r by lia. f_equal. lia. }
  assert (E' : T' * B' * 2 ^ 53 = A' * 2 ^ 1000).
  { unfold T', A', B'. rewrite <- !Z.pow_add_r by lia. f_equal. lia. }
  assert (G : Zpos mx * 2 ^ 53 * Zpos my' * T * (B * B')
              <= Zpos mx' * 2 ^ 53 * Zpos my * T' * (B * B')).
  { replace (Zpos mx * 2 ^ 53 * Zpos my' * T * (B * B'))
      with ((Zpos mx * (T * B * 2 ^ 53)) * (Zpos my' * B')) by ring.
    replace (Zpos mx' * 2 ^ 53 * Zpos my * T' * (B * B'))
      with ((Zpos mx' * (T' * B' * 2 ^ 53)) * (Zpos my * B)) by ring.
    rewrite E, E'.
    replace (Zpos mx * (A * 2 ^ 1000) * (Zpos my' * B'))
      with (2 ^ 1000 * ((Zpos mx * A) * (Zpos my' * B'))) by ring.
    replace (Zpos mx' * (A' * 2 ^ 1000) * (Zpos my * B))
      with (2 ^ 1000 * ((Zpos mx' * A') * (Zpos my * B))) by ring.
    apply Z.mul_le_mono_nonneg_l; [apply Z.pow_nonneg; lia|].
    apply Z.mul_le_mono_nonneg; lia. }
  apply Z.mul_le_mono_pos_r in G; [exact G|]. apply Z.mul_pos_pos; lia.
Qed.

End OpFacts.

(** ** Monotonicity of binary64 arithmetic *)

Module MonoFacts.
Import RoundFacts OpFacts.
Local Open Scope float_scope.

Lemma inRange_midRange (x : float) :
  inRange x = true -> exists m e, midRange (Prim2SF x) m e.
Proof.
  unfold inRange. rewrite !leb_spec. intros H.
  apply andb_prop in H. destruct H as [L U].
  pose proof (Prim2SF_valid x) as V.
  change (Prim2SF 0x1p-300) with (S754_finite false 4503599627370496 (-352)) in L.
  change (Prim2SF 0x1p+300) with (S754_finite false 4503599627370496 248) in U.
  destruct (Prim2SF x) as [sg|sg| |sg m e]; try discriminate;
    try (destruct sg; discriminate).
  destruct sg; [discriminate|]. exists m, e.
  unfold SFleb, SFcompare in L, U.
  destruct (valid_finite _ _ _ V) as (_ & _ & _ & N).
  destruct (Z.compare_spec (-352) e) as [E|E|E]; try discriminate;
    destruct (Z.compare_spec e 248) as [E'|E'|E']; try discriminate;
    (split; [reflexivity|split; [apply N; lia|lia]]).
Qed.

Ltac mid x :=
  let m := fresh "m" in let e := fresh "e" in let H := fresh "M" in
  match goal with
  | R : inRange x = true |- _ =>
      destruct (inRange_midRange x R) as (m & e & H)
  end.

(** *** Monotonicity of the arithmetic *)

Lemma mul_mono (x x' y y' : float) :
  inRange x = true -> inRange x' = true ->
  inRange y = true -> inRange y' = true ->
  (x <=? x') = true -> (y <=? y') = true ->
  (x * y <=? x' * y') = true.
Proof.
  intros Rx Rx' Ry Ry'. rewrite !leb_spec, !mul_spec.
  mid x. mid x'. mid y. mid y'.
  exact (SFmul_mono _ _ _ _ _ _ _ _ _ _ _ _ M M0 M1 M2).
Qed.

Lemma add_mono (x x' y y' : float) :
  inRange x = true -> inRange x' = true ->
  inRange y = true -> inRange y' = true ->
  (x <=? x') = true -> (y <=? y') = true ->
  (x + y <=? x' + y') = true.
Proof.
  intros Rx Rx' Ry Ry'. rewrite !leb_spec, !add_spec.
  mid x. mid x'. mid y. mid y'.
  exact (SFadd_mono _ _ _ _ _ _ _ _ _ _ _ _ M M0 M1 M2).
Qed.

Lemma div_mono (x x' y y' : float) :
  inRange x = true -> inRange x' = true ->
  inRange y = true -> inRange y' = true ->
  (x <=? x') = true -> (y' <=? y) = true ->
  (x / y <=? x' / y') = true.
Proof.
  intros Rx Rx' Ry Ry'. rewrite !leb_spec, !div_spec.
  mid x. mid x'. mid y. mid y'.
  exact (SFdiv_mono _ _ _ _ _ _ _ _ _ _ _ _ M M0 M1 M2).
Qed.

(** *** Zero *)

Lemma inRange_refl (x : float) : inRange x = true -> (x <=? x) = true.
Proof.
  intros R. rewrite leb_spec. mid x. destruct M as (-> & _ & _).
  unfold SFleb, SFcompare. rewrite Z.compare_refl.
  change (Pos.compare_cont Eq m m) with (Pos.compare m m).
  now rewrite Pos.compare_refl.
Qed.

Lemma inRange_above_zero (x : float) :
  inRange x = true -> (0 <=? x) = true /\ (x <=? 0) = false.
Proof.
  intros R. rewrite !leb_spec. mid x. destruct M as (-> & _ & _).
  split; reflexivity.
Qed.

Lemma isNice_nonneg (x : float) : isNice x -> (0 <=? x) = true.
Proof.
  intros [->|R]; [reflexivity|]. now apply inRange_above_zero.
Qed.

(** What is above a number in range is not zero. *)
Lemma isNice_above (x x' : float) :
  inRange x = true -> isNice x' -> (x <=? x') = true -> inRange x' = true.
Proof.
  intros R [->|R'] L; [|exact R'].
  rewrite (proj2 (inRange_above_zero x R)) in L. discriminate.
Qed.

Lemma inRange_between (lo hi x : float) :
  inRange lo = true -> inRange hi = true ->
  (lo <=? x) = true -> (x <=? hi) = true -> inRange x = true.
Proof.
  intros Rl Rh L U. unfold inRange in *.
  apply andb_prop in Rl. destruct Rl as [Rl _].
  apply andb_prop in Rh. destruct Rh as [_ Rh].
  rewrite (OrderFacts.leb_trans _ _ _ Rl L),
    (OrderFacts.leb_trans _ _ _ U Rh). reflexivity.
Qed.

Lemma mul_zero_r (w : float) : inRange w = true -> w * 0 = 0.
Proof.
  intros R. apply Prim2SF_inj. rewrite mul_spec. mid w.
  destruct M as (-> & _ & _). reflexivity.
Qed.

Lemma add_zero_l (x : float) : inRange x = true -> 0 + x = x.
Proof.
  intros R. apply Prim2SF_inj. rewrite add_spec. mid x.
  destruct M as (-> & _ & _). reflexivity.
Qed.

Lemma add_zero_r (x : float) : inRange x = true -> x + 0 = x.
Proof.
  intros R. apply Prim2SF_inj. rewrite add_spec. mid x.
  destruct M as (-> & _ & _). reflexivity.
Qed.

Lemma mul_positive (x y : float) :
  inRange x = true -> inRange y = true -> (0 <=? x * y) = true.
Proof.
  intros Rx Ry. rewrite leb_spec, mul_spec. unfold SF64mul. mid x. mid y.
  destruct (roundsTo_positive _ _ _ _ (SFmul_roundsTo _ _ _ _ _ _ M M0))
    as (m' & e' & ->). reflexivity.
Qed.

(** A sum is above its terms. *)
Lemma le_add (x y : float) :
  inRange x = true -> inRange y = true ->
  (x <=? x + y) = true /\ (y <=? x + y) = true.
Proof.
  intros Rx Ry. rewrite !leb_spec, add_spec. unfold SF64add. mid x. mid y.
  destruct (SFadd_roundsTo _ _ _ _ _ _ M M0) as (N & R & V).
  pose proof (roundsTo_exact _ _ _ M) as Ex.
  pose proof (roundsTo_exact _ _ _ M0) as Ey.
  destruct M as (_ & _ & Wx), M0 as (_ & _ & Wy).
  assert (0 < 2 ^ (e + 1000))%Z by (apply Z.pow_pos_nonneg; lia).
  assert (0 < 2 ^ (e0 + 1000))%Z by (apply Z.pow_pos_nonneg; lia).
  split.
  - apply (roundsTo_mono _ _ _ _ _ _ _ _ 1000%Z Ex R); lia.
  - apply (roundsTo_mono _ _ _ _ _ _ _ _ 1000%Z Ey R); lia.
Qed.

Lemma add_nonneg (x y : float) :
  isNice x -> isNice y -> (0 <=? x + y) = true.
Proof.
  intros [->|Rx] [->|Ry].
  - reflexivity.
  - rewrite add_zero_l by assumption. now apply inRange_above_zero.
  - rewrite add_zero_r by assumption. now apply inRange_above_zero.
  - destruct (le_add x y Rx Ry) as [L _].
    exact (OrderFacts.leb_trans _ _ _ (proj1 (inRange_above_zero x Rx)) L).
Qed.

(** *** Monotonicity, zero included *)

Lemma mul_nice_mono (w c c' : float) :
  inRange w = true -> isNice c -> isNice c' -> (c <=? c') = true ->
  (w * c <=? w * c') = true.
Proof.
  intros Rw [->|Rc] Hc' L.
  - rewrite (mul_zero_r w Rw). destruct Hc' as [->|Rc'].
    + now rewrite (mul_zero_r w Rw).
    + now apply mul_positive.
  - pose proof (isNice_above c c' Rc Hc' L) as Rc'.
    apply mul_mono; auto using inRange_refl.
Qed.

Lemma add_nice_mono (x x' y y' : float) :
  isNice x -> isNice x' -> isNice y -> isNice y' ->
  (x <=? x') = true -> (y <=? y') = true ->
  (x + y <=? x' + y') = true.
Proof.
  intros [->|Rx] Hx' [->|Ry] Hy' Lx Ly.
  - change (0 + 0) with 0. now apply add_nonneg.
  - pose proof (isNice_above y y' Ry Hy' Ly) as Ry'.
    rewrite (add_zero_l y Ry). destruct Hx' as [->|Rx'].
    + now rewrite (add_zero_l y' Ry').
    + exact (OrderFacts.leb_trans _ _ _ Ly (proj2 (le_add x' y' Rx' Ry'))).
  - pose proof (isNice_above x x' Rx Hx' Lx) as Rx'.
    rewrite (add_zero_r x Rx). destruct Hy' as [->|Ry'].
    + now rewrite (add_zero_r x' Rx').
    + exact (OrderFacts.leb_trans _ _ _ Lx (proj1 (le_add x' y' Rx' Ry'))).
  - pose proof (isNice_above x x' Rx Hx' Lx) as Rx'.
    pose proof (isNice_above y y' Ry Hy' Ly) as Ry'.
    now apply add_mono.
Qed.

(** *** Intervals *)

Lemma zeroOrWithin_nice (lo hi x : float) :
  inRange lo = true -> inRange hi = true ->
  zeroOrWithin lo hi x -> isNice x.
Proof.
  intros Rl Rh [->|[L U]]; [now left|right].
  exact (inRange_between lo hi x Rl Rh L U).
Qed.

Lemma zeroOrWithin_mul (w lo hi c : float) :
  inRange w = true -> inRange lo = true -> inRange hi = true ->
  zeroOrWithin lo hi c -> zeroOrWithin (w * lo) (w * hi) (w * c).
Proof.
  intros Rw Rl Rh [->|[L U]].
  - left. now apply mul_zero_r.
  - right. pose proof (inRange_between lo hi c Rl Rh L U) as Rc.
    split; apply mul_mono; auto using inRange_refl.
Qed.

Lemma zeroOrWithin_add (lo1 hi1 lo2 hi2 lo hi x y : float) :
  inRange lo1 = true -> inRange hi1 = true ->
  inRange lo2 = true -> inRange hi2 = true ->
  zeroOrWithin lo1 hi1 x -> zeroOrWithin lo2 hi2 y ->
  (lo <=? lo1) = true -> (lo <=? lo2) = true -> (lo <=? lo1 + lo2) = true ->
  (hi1 <=? hi) = true -> (hi2 <=? hi) = true -> (hi1 + hi2 <=? hi) = true ->
  zeroOrWithin lo hi (x + y).
Proof.
  intros R1 R2 R3 R4 [->|[L1 U1]] [->|[L2 U2]] A1 A2 A3 B1 B2 B3.
  - now left.
  - right. rewrite add_zero_l by exact (inRange_between _ _ _ R3 R4 L2 U2).
    split; eauto using OrderFacts.leb_trans.
  - right. rewrite add_zero_r by exact (inRange_between _ _ _ R1 R2 L1 U1).
    split; eauto using OrderFacts.leb_trans.
  - right.
    pose proof (inRange_between _ _ _ R1 R2 L1 U1) as Rx.
    pose proof (inRange_between _ _ _ R3 R4 L2 U2) as Ry.
    split.
    + apply (OrderFacts.leb_trans _ _ _ A3). now apply add_mono.
    + refine (OrderFacts.leb_trans _ _ _ _ B3). now apply add_mono.
Qed.

End MonoFacts.

(** ** Strings *)

Module StrFacts.

Lemma length_toUpperCase (s : string) :
  String.length (Str.toUpperCase s) = String.length s.
Proof. induction s; simpl; congruence. Qed.

Lemma length_append (s t : string) :
  String.length (s ++ t) = (String.length s + String.length t)%nat.
Proof. induction s; simpl; congruence. Qed.

Lemma toUpperCase_append (s t : string) :
  Str.toUpperCase (s ++ t) = Str.toUpperCase s ++ Str.toUpperCase t.
Proof. induction s; simpl; congruence. Qed.

(** A property of characters checked on all 256 of them. *)
Lemma forall_ascii (P : ascii -> bool) :
  forallb (fun n => P (ascii_of_nat n)) (seq 0 256) = true ->
  forall c, P c = true.
Proof.
  intros H c. rewrite forallb_forall in H.
  rewrite <- (ascii_nat_embedding c). apply H.
  apply in_seq. pose proof (nat_ascii_bounded c). lia.
Qed.

Lemma upperChar_idempotent (c : ascii) :
  Str.upperChar (Str.upperChar c) = Str.upperChar c.
Proof.
  apply Ascii.eqb_eq. revert c.
  apply (forall_ascii
           (fun c => Ascii.eqb (Str.upperChar (Str.upperChar c))
                               (Str.upperChar c))).
  vm_compute. reflexivity.
Qed.

Lemma toUpperCase_idempotent (s : string) :
  Str.toUpperCase (Str.toUpperCase s) = Str.toUpperCase s.
Proof.
  induction s; simpl; [reflexivity|].
  now rewrite upperChar_idempotent, IHs.
Qed.

Lemma isHexUpper_In (c : ascii) :
  Str.isHexUpper c = true -> In c hexUpperChars.
Proof.
  intros H.
  pose proof (forall_ascii
                (fun c => implb (Str.isHexUpper c)
                                (existsb (Ascii.eqb c) hexUpperChars))
                ltac:(vm_compute; reflexivity) c) as T.
  cbv beta in T. rewrite H in T. cbn [implb] in T.
  apply existsb_exists in T. destruct T as (x & Hx & E).
  apply Ascii.eqb_eq in E. now subst x.
Qed.

Lemma In_isHexUpper (c : ascii) :
  In c hexUpperChars -> Str.isHexUpper c = true /\ Str.upperChar c = c.
Proof.
  simpl. intros H.
  repeat (destruct H as [<-|H]; [split; reflexivity|]). contradiction.
Qed.

Lemma length_padStart2 (s : string) :
  (2 <= String.length (Str.padStart2 s))%nat.
Proof.
  destruct s as [|c1 [|c2 s]]; simpl; lia.
Qed.

Lemma length3_inv (s : string) :
  String.length s = 3%nat ->
  exists c1 c2 c3, s = String c1 (String c2 (String c3 EmptyString)).
Proof.
  destruct s as [|c1 [|c2 [|c3 [|c4 s]]]]; simpl; try discriminate.
  intros _. now exists c1, c2, c3.
Qed.

Lemma length6_inv (s : string) :
  String.length s = 6%nat ->
  exists c1 c2 c3 c4 c5 c6,
    s = String c1 (String c2 (String c3 (String c4 (String c5 (String c6
          EmptyString))))).
Proof.
  destruct s as [|c1 [|c2 [|c3 [|c4 [|c5 [|c6 [|c7 s]]]]]]]; simpl;
    try discriminate.
  intros _. now exists c1, c2, c3, c4, c5, c6.
Qed.

End StrFacts.

(** ** Parsing and formatting *)

Lemma hexToRgb_accepts (hex : string) :
  acceptsHex hex = true -> exists rgb, hexToRgb hex = OK rgb.
Proof.
  unfold acceptsHex, hexToRgb. intros ->. simpl.
  destruct (_ =? 3)%nat; eauto.
Qed.

Lemma hexToRgb_rejects (hex : string) :
  acceptsHex hex = false ->
  hexToRgb hex = Throw (Error (formatErrorMessage hex)).
Proof. unfold acceptsHex, hexToRgb. now intros ->. Qed.

Lemma hexToRgb_OK_accepts (hex : string) (rgb : RGB) :
  hexToRgb hex = OK rgb -> acceptsHex hex = true.
Proof.
  destruct (acceptsHex hex) eqn:E; [reflexivity|].
  rewrite (hexToRgb_rejects hex E). discriminate.
Qed.

Lemma toHex_byte_table :
  forallb (fun c1 =>
    forallb (fun c2 =>
      String.eqb (toHex (JS.parseInt16 (String c1 (String c2 EmptyString))))
                 (String c1 (String c2 EmptyString)))
      hexUpperChars) hexUpperChars = true.
Proof. vm_compute. reflexivity. Qed.

Lemma toHex_byte (c1 c2 : ascii) :
  In c1 hexUpperChars -> In c2 hexUpperChars ->
  toHex (JS.parseInt16 (String c1 (String c2 EmptyString)))
  = String c1 (String c2 EmptyString).
Proof.
  intros H1 H2. pose proof toHex_byte_table as T.
  rewrite forallb_forall in T. specialize (T c1 H1).
  rewrite forallb_forall in T. specialize (T c2 H2).
  now apply String.eqb_eq.
Qed.

Lemma hexToRgb_six (c1 c2 c3 c4 c5 c6 : ascii) :
  In c1 hexUpperChars -> In c2 hexUpperChars -> In c3 hexUpperChars ->
  In c4 hexUpperChars -> In c5 hexUpperChars -> In c6 hexUpperChars ->
  let body := String c1 (String c2 (String c3 (String c4 (String c5
                (String c6 EmptyString))))) in
  let rgb := {| r := JS.parseInt16 (String c1 (String c2 EmptyString));
                g := JS.parseInt16 (String c3 (String c4 EmptyString));
                b := JS.parseInt16 (String c5 (String c6 EmptyString)) |} in
  hexToRgb (String "#" body) = OK rgb /\ rgbToHex rgb = String "#" body
  /\ isCanonicalHex (String "#" body) = true.
Proof.
  intros H1 H2 H3 H4 H5 H6 body rgb.
  destruct (StrFacts.In_isHexUpper _ H1) as [P1 U1].
  destruct (StrFacts.In_isHexUpper _ H2) as [P2 U2].
  destruct (StrFacts.In_isHexUpper _ H3) as [P3 U3].
  destruct (StrFacts.In_isHexUpper _ H4) as [P4 U4].
  destruct (StrFacts.In_isHexUpper _ H5) as [P5 U5].
  destruct (StrFacts.In_isHexUpper _ H6) as [P6 U6].
  split; [|split].
  - unfold hexToRgb, body. cbn [Str.replaceFirstHash Ascii.eqb Bool.eqb].
    cbn [Str.toUpperCase]. rewrite U1, U2, U3, U4, U5, U6.
    unfold Str.testHexPattern. cbn [Str.forallChars String.length].
    rewrite P1, P2, P3, P4, P5, P6. reflexivity.
  - unfold rgbToHex, rgb. cbn [r g b].
    rewrite !toHex_byte by assumption. reflexivity.
  - unfold body. cbn [isCanonicalHex Str.forallChars String.length].
    rewrite P1, P2, P3, P4, P5, P6. reflexivity.
Qed.

(** A string in canonical form is its own canonical form. *)
Lemma canonicalHex_fixed (hex : string) :
  isCanonicalHex hex = true -> canonicalHex hex = hex.
Proof.
  destruct hex as [|c body]; [discriminate|]. cbn [isCanonicalHex].
  intros H. apply andb_prop in H. destruct H as [H A].
  apply andb_prop in H. destruct H as [C L].
  apply Ascii.eqb_eq in C. subst c. apply Nat.eqb_eq in L.
  destruct (StrFacts.length6_inv _ L) as (c1 & c2 & c3 & c4 & c5 & c6 & ->).
  cbn [Str.forallChars] in A.
  repeat match type of A with
         | (_ && _) = true =>
             let A1 := fresh "A" in
             apply andb_prop in A; destruct A as [A1 A];
             apply StrFacts.isHexUpper_In, StrFacts.In_isHexUpper,
                   proj2 in A1
         end.
  unfold canonicalHex.
  cbn [Str.replaceFirstHash Ascii.eqb Bool.eqb Str.toUpperCase].
  now repeat match goal with E : Str.upperChar _ = _ |- _ =>
                          rewrite E; clear E end.
Qed.

(** What a successful parse yields: channels that are byte values, and a
    colour whose formatting is the canonical form of the input, which
    parses to the same colour. *)
Lemma hexToRgb_inv (hex : string) (rgb : RGB) :
  hexToRgb hex = OK rgb ->
  byteRgb rgb /\ rgbToHex rgb = canonicalHex hex
  /\ hexToRgb (canonicalHex hex) = OK rgb
  /\ isCanonicalHex (canonicalHex hex) = true.
Proof.
  unfold hexToRgb, canonicalHex.
  set (clean := Str.toUpperCase (Str.replaceFirstHash hex)).
  destruct (Str.testHexPattern clean) eqn:T; [|discriminate].
  cbn [negb]. unfold Str.testHexPattern in T.
  apply andb_prop in T. destruct T as [L A].
  destruct (String.length clean =? 3)%nat eqn:L3.
  - apply Nat.eqb_eq in L3.
    destruct (StrFacts.length3_inv _ L3) as (c1 & c2 & c3 & ->).
    cbn [Str.forallChars] in A.
    apply andb_prop in A. destruct A as [A1 A].
    apply andb_prop in A. destruct A as [A2 A].
    apply andb_prop in A. destruct A as [A3 _].
    apply StrFacts.isHexUpper_In in A1, A2, A3.
    intros E. injection E as <-.
    destruct (hexToRgb_six c1 c1 c2 c2 c3 c3 A1 A1 A2 A2 A3 A3)
      as (Q1 & Q2 & Q3).
    split; [|split; [exact Q2|split; [exact Q1|exact Q3]]].
    split; [|split];
      [exists c1, c1|exists c2, c2|exists c3, c3]; auto.
  - cbn [orb] in L. apply Nat.eqb_eq in L.
    destruct (StrFacts.length6_inv _ L) as (c1 & c2 & c3 & c4 & c5 & c6 & ->).
    cbn [Str.forallChars] in A.
    apply andb_prop in A. destruct A as [A1 A].
    apply andb_prop in A. destruct A as [A2 A].
    apply andb_prop in A. destruct A as [A3 A].
    apply andb_prop in A. destruct A as [A4 A].
    apply andb_prop in A. destruct A as [A5 A].
    apply andb_prop in A. destruct A as [A6 _].
    apply StrFacts.isHexUpper_In in A1, A2, A3, A4, A5, A6.
    intros E. injection E as <-.
    destruct (hexToRgb_six c1 c2 c3 c4 c5 c6 A1 A2 A3 A4 A5 A6)
      as (Q1 & Q2 & Q3).
    split; [|split; [exact Q2|split; [exact Q1|exact Q3]]].
    split; [|split];
      [exists c1, c2|exists c3, c4|exists c5, c6]; auto.
Qed.

Lemma toHex_upper (n : float) : Str.toUpperCase (toHex n) = toHex n.
Proof. unfold toHex. apply StrFacts.toUpperCase_idempotent. Qed.

Lemma length_toHex (n : float) : (2 <= String.length (toHex n))%nat.
Proof.
  unfold toHex. rewrite StrFacts.length_toUpperCase.
  apply StrFacts.length_padStart2.
Qed.

(** A formatted colour that the parser accepts is in canonical form: the
    only other output of [toHex] is ["NAN"], which the parser rejects. *)
Lemma rgbToHex_accepted_canonical (rgb : RGB) :
  acceptsHex (rgbToHex rgb) = true -> isCanonicalHex (rgbToHex rgb) = true.
Proof.
  unfold acceptsHex, rgbToHex.
  change ("#" ++ ?x) with (String "#" x).
  cbn [Str.replaceFirstHash Ascii.eqb Bool.eqb isCanonicalHex].
  rewrite !StrFacts.toUpperCase_append, !toHex_upper.
  unfold Str.testHexPattern. intros H.
  apply andb_prop in H. destruct H as [L A]. rewrite A, andb_true_r.
  rewrite !StrFacts.length_append in *.
  pose proof (length_toHex (r rgb)). pose proof (length_toHex (g rgb)).
  pose proof (length_toHex (b rgb)).
  apply orb_prop in L. destruct L as [L|L]; apply Nat.eqb_eq in L.
  - lia.
  - cbn. now apply Nat.eqb_eq.
Qed.

Section RatioProperties.

Variable pow : float -> float -> float.

(** *** Contrast ratio *)

Lemma contrastRatio_intro (a c : string) (ca cc : RGB) :
  hexToRgb a = OK ca -> hexToRgb c = OK cc ->
  contrastRatio pow a c
  = OK (luminanceRatio (relativeLuminanceRgb pow ca)
          (relativeLuminanceRgb pow cc)).
Proof.
  intros Ha Hc. unfold contrastRatio, relativeLuminance.
  rewrite Ha, Hc. reflexivity.
Qed.

Lemma contrastRatio_inv (a c : string) (rho : float) :
  contrastRatio pow a c = OK rho ->
  exists ca cc, hexToRgb a = OK ca /\ hexToRgb c = OK cc /\
    rho = luminanceRatio (relativeLuminanceRgb pow ca)
            (relativeLuminanceRgb pow cc).
Proof.
  unfold contrastRatio, relativeLuminance.
  destruct (hexToRgb a) as [ca|]; [|discriminate].
  destruct (hexToRgb c) as [cc|]; [|discriminate].
  cbn. intros E. injection E as <-. now exists ca, cc.
Qed.

Lemma luminanceRatio_comm (x y : float) :
  luminanceRatio x y = luminanceRatio y x.
Proof.
  unfold luminanceRatio.
  now rewrite (FloatFacts.Math_max_comm x y), (FloatFacts.Math_min_comm x y).
Qed.

(** The ratio does not depend on which colour is the foreground. *)
Lemma contrastRatio_sym (a c : string) (rho : float) :
  contrastRatio pow a c = OK rho -> contrastRatio pow c a = OK rho.
Proof.
  intros H. destruct (contrastRatio_inv _ _ _ H) as (ca & cc & Ha & Hc & ->).
  rewrite (contrastRatio_intro c a cc ca Hc Ha). f_equal.
  apply luminanceRatio_comm.
Qed.

Lemma luminanceRatio_self (x : float) :
  JS.isFiniteNonZero (x + 0.05) = true -> luminanceRatio x x = 1%float.
Proof.
  intros H. unfold luminanceRatio.
  rewrite FloatFacts.Math_max_self, FloatFacts.Math_min_self.
  now apply FloatFacts.div_self.
Qed.

(** Parsing a formatted, already parsed colour gives the colour back, so
    the ratio of two inputs is the ratio of their canonical forms. *)
Lemma contrastRatio_canonical (a c : string) (ca cc : RGB) :
  hexToRgb a = OK ca -> hexToRgb c = OK cc ->
  contrastRatio pow (rgbToHex ca) (rgbToHex cc) = contrastRatio pow a c.
Proof.
  intros Ha Hc.
  destruct (hexToRgb_inv a ca Ha) as (_ & Ea & Pa & _).
  destruct (hexToRgb_inv c cc Hc) as (_ & Ec & Pc & _).
  rewrite Ea, Ec.
  now rewrite (contrastRatio_intro _ _ _ _ Pa Pc),
              (contrastRatio_intro _ _ _ _ Ha Hc).
Qed.

(** *** The binary search *)

Lemma testRatioOf_measured (otherRgb testRgb : RGB) (isForeground : bool)
    (rho : float) :
  testRatioOf pow otherRgb isForeground testRgb = OK rho ->
  contrastRatio pow (rgbToHex testRgb) (rgbToHex otherRgb) = OK rho.
Proof.
  unfold testRatioOf. destruct isForeground; [auto|].
  apply contrastRatio_sym.
Qed.

Lemma searchInit_measured (hsl : HSL) (otherRgb : RGB) (isLightening : bool)
    (st : SearchState) :
  searchInit pow hsl otherRgb isLightening = OK st ->
  bestIsMeasured pow otherRgb st.
Proof.
  unfold searchInit, bestIsMeasured. intros H.
  apply bind_OK_inv in H. destruct H as (rho & H & E).
  injection E as <-. exact H.
Qed.

Lemma searchStep_measured (hsl : HSL) (otherRgb : RGB) (threshold : float)
    (isForeground isLightening : bool) (st st' : SearchState) :
  bestIsMeasured pow otherRgb st ->
  searchStep pow hsl otherRgb threshold isForeground isLightening st = OK st' ->
  bestIsMeasured pow otherRgb st'.
Proof.
  unfold searchStep, bestIsMeasured. intros I H.
  apply bind_OK_inv in H. destruct H as (rho & H & E).
  apply testRatioOf_measured in H.
  destruct (JS.geb rho threshold), isLightening;
    injection E as <-; cbn; assumption.
Qed.

Lemma searchLoop_measured (hsl : HSL) (otherRgb : RGB) (threshold : float)
    (isForeground isLightening : bool) (n : nat) :
  forall st st',
    bestIsMeasured pow otherRgb st ->
    searchLoop pow hsl otherRgb threshold isForeground isLightening n st
    = OK st' ->
    bestIsMeasured pow otherRgb st'.
Proof.
  induction n as [|n IH]; intros st st' I H; cbn in H.
  - now injection H as <-.
  - apply bind_OK_inv in H. destruct H as (st1 & H1 & H).
    pose proof (searchStep_measured _ _ _ _ _ _ _ I H1) as I1.
    destruct (_ <? _)%float.
    + now injection H as <-.
    + eapply IH; eauto.
Qed.

Lemma binarySearchLightness_measured (hsl : HSL) (otherRgb : RGB)
    (threshold : float) (isForeground isLightening : bool) (n : nat)
    (sr : SearchResult) :
  binarySearchLightness pow hsl otherRgb threshold isForeground isLightening n
  = OK sr ->
  contrastRatio pow (rgbToHex (sr_rgb sr)) (rgbToHex otherRgb)
  = OK (sr_ratio sr).
Proof.
  unfold binarySearchLightness. intros H.
  apply bind_OK_inv in H. destruct H as (st0 & H0 & H).
  apply bind_OK_inv in H. destruct H as (st & H1 & H).
  injection H as <-. cbn.
  eapply searchLoop_measured; eauto using searchInit_measured.
Qed.

End RatioProperties.

Section SelectionProperties.

Variable pow : float -> float -> float.

(** *** Sorting and selection *)

Lemma insertByChange_perm (x : CandidateWithChange)
    (sorted : list CandidateWithChange) :
  Permutation (insertByChange x sorted) (x :: sorted).
Proof.
  induction sorted as [|y rest IH]; cbn.
  - apply Permutation_refl.
  - destruct (_ <? _)%float.
    + apply Permutation_refl.
    + rewrite IH. apply perm_swap.
Qed.

Lemma fold_insert_perm (cs acc : list CandidateWithChange) :
  Permutation (fold_left (fun sorted x => insertByChange x sorted) cs acc)
              (acc ++ cs).
Proof.
  revert acc. induction cs as [|x cs IH]; intros acc; cbn.
  - now rewrite app_nil_r.
  - eapply Permutation_trans; [apply IH|].
    eapply Permutation_trans;
      [apply Permutation_app_tail, insertByChange_perm|].
    apply Permutation_middle.
Qed.

(** Sorting rearranges the candidates and drops or adds none. *)
Lemma sortByChange_perm (cs : list CandidateWithChange) :
  Permutation (sortByChange cs) cs.
Proof. apply (fold_insert_perm cs []). Qed.

Lemma findOrFirst_In (p : Path -> bool) (zone : list CandidateWithChange)
    (w : CandidateWithChange) :
  findOrFirst p zone = Some w -> In w zone.
Proof.
  unfold findOrFirst.
  destruct (find _ zone) as [c|] eqn:F.
  - intros E. injection E as <-. now apply find_some in F.
  - destruct zone; cbn; [discriminate|].
    intros E. injection E as <-. now left.
Qed.

Lemma hd_error_In {A} (xs : list A) (x : A) : hd_error xs = Some x -> In x xs.
Proof.
  destruct xs; cbn; [discriminate|]. intros E. injection E as <-. now left.
Qed.

Lemma breakTie_In (opts : SnapOptions) (zone : list CandidateWithChange)
    (w : CandidateWithChange) :
  breakTie opts zone = Some w -> In w zone.
Proof.
  unfold breakTie.
  destruct (1 <? List.length zone)%nat; [|apply hd_error_In].
  destruct (_ && _); [apply findOrFirst_In|].
  destruct (_ && _); apply findOrFirst_In.
Qed.

Lemma similarCandidatesOf_In (fgHsl bgHsl : HSL) (passing : list Candidate)
    (w : CandidateWithChange) :
  In w (similarCandidatesOf fgHsl bgHsl passing) -> In (candidate w) passing.
Proof.
  unfold similarCandidatesOf.
  destruct (sortByChange _) as [|first rest] eqn:S; [contradiction|].
  intros H. apply filter_In in H. destruct H as [H _].
  rewrite <- S in H.
  apply (Permutation_in _ (sortByChange_perm _)) in H.
  apply in_map_iff in H. destruct H as (c & <- & Hc). exact Hc.
Qed.

Lemma bestAchievable_In (cs : list Candidate) (c : Candidate) :
  bestAchievable cs = Some c -> In c cs.
Proof.
  unfold bestAchievable. destruct cs as [|first rest]; [discriminate|].
  intros E. injection E as <-.
  assert (G : forall xs acc,
             In (fold_left
                   (fun best current : Candidate =>
                      if JS.gtb (c_ratio current) (c_ratio best)
                      then current else best) xs acc) (acc :: xs)).
  { induction xs as [|x xs IH]; intros acc; cbn; [now left|].
    match goal with |- context [if ?t then _ else _] => destruct t end.
    - destruct (IH x) as [H|H]; [right; now left|right; now right].
    - destruct (IH acc) as [H|H]; [now left|right; now right]. }
  apply G.
Qed.

(** The chosen candidate is one of the candidates; unless the result is
    marked as clamped, it passed the filter. *)
Lemma chooseCandidate_Some (opts : SnapOptions) (threshold : float)
    (fgHsl bgHsl : HSL) (cs : list Candidate) (best : Candidate)
    (isClamped : bool) :
  chooseCandidate opts threshold fgHsl bgHsl cs = (Some best, isClamped) ->
  In best cs /\ (isClamped = false -> meetsThreshold threshold best = true).
Proof.
  unfold chooseCandidate.
  destruct (0 <? List.length _)%nat.
  - intros E. injection E as E <-.
    destruct (breakTie _ _) as [w|] eqn:B; [|discriminate].
    injection E as <-.
    apply breakTie_In, similarCandidatesOf_In, filter_In in B.
    destruct B as [B1 B2]. now split.
  - intros E. injection E as E <-.
    split; [now apply bestAchievable_In | discriminate].
Qed.

(** *** The candidates *)

Lemma searchCandidates_inv (fgRgb bgRgb : RGB) (threshold : float)
    (cs : list Candidate) :
  searchCandidates pow fgRgb bgRgb threshold = OK cs ->
  forall c, In c cs ->
    contrastRatio pow (rgbToHex (c_rgb c))
      (rgbToHex (if startsWithFg (c_path c) then bgRgb else fgRgb))
    = OK (c_ratio c).
Proof.
  unfold searchCandidates. intros H.
  apply bind_OK_inv in H. destruct H as (a & Ha & H).
  apply bind_OK_inv in H. destruct H as (b & Hb & H).
  apply bind_OK_inv in H. destruct H as (c & Hc & H).
  apply bind_OK_inv in H. destruct H as (d & Hd & H).
  injection H as <-.
  apply binarySearchLightness_measured in Ha, Hb, Hc, Hd.
  intros x [<-|[<-|[<-|[<-|[]]]]]; cbn; assumption.
Qed.

(** *** Assembling the result *)

Lemma applyCandidate_inv (fgRgb bgRgb : RGB) (best : option Candidate)
    (isClamped : bool) (res : SnapResult) :
  applyCandidate pow fgRgb bgRgb best isClamped = OK res ->
  exists c, best = Some c /\
    let fgRgb' := if startsWithFg (c_path c) then c_rgb c else fgRgb in
    let bgRgb' := if startsWithFg (c_path c) then bgRgb else c_rgb c in
    contrastRatio pow (rgbToHex fgRgb') (rgbToHex bgRgb') = OK (ratio res) /\
    fg res = rgbToHex fgRgb' /\ bg res = rgbToHex bgRgb' /\
    clamped res = Some isClamped /\
    adjusted res = Some (if startsWithFg (c_path c) then Fg else Bg) /\
    iterations res = Some (c_iterations c).
Proof.
  unfold applyCandidate. destruct best as [c|]; [|discriminate].
  intros H. exists c. split; [reflexivity|].
  destruct (startsWithFg (c_path c)); cbn in *;
    apply bind_OK_inv in H; destruct H as (rho & Hr & H);
    injection H as <-; cbn; auto 10.
Qed.

End SelectionProperties.

Section EarlyReturns.

Variable pow : float -> float -> float.

(** *** The early returns of [snapToPassingColor] *)

Lemma snap_early_return (fgHex bgHex : string) (opts : SnapOptions)
    (rho : float) :
  contrastRatio pow fgHex bgHex = OK rho ->
  (JS.geb rho (requiredThreshold opts - EPSILON) = true ->
   snapToPassingColor pow fgHex bgHex opts
   = OK {| fg := canonicalHex fgHex; bg := canonicalHex bgHex; ratio := rho;
           clamped := None; adjusted := None; iterations := None |})
  /\
  (JS.geb rho (requiredThreshold opts - EPSILON) = false ->
   JS.strictEq rho 1 = true ->
   snapToPassingColor pow fgHex bgHex opts
   = OK {| fg := canonicalHex fgHex; bg := canonicalHex bgHex; ratio := rho;
           clamped := Some true; adjusted := None; iterations := None |}).
Proof.
  intros H.
  destruct (contrastRatio_inv _ _ _ _ H) as (cf & cb & Hf & Hb & _).
  destruct (hexToRgb_inv _ _ Hf) as (_ & Ef & _).
  destruct (hexToRgb_inv _ _ Hb) as (_ & Eb & _).
  unfold snapToPassingColor. rewrite Hf, Hb. cbn [bind].
  rewrite (contrastRatio_canonical _ _ _ _ _ Hf Hb), H. cbn [bind].
  rewrite Ef, Eb. split.
  - now intros ->.
  - intros -> ->.
    assert (T : JS.gtb (requiredThreshold opts) 1 = true).
    { unfold requiredThreshold. now destruct (_ || _). }
    now rewrite T.
Qed.

Lemma threshold_above_one (opts : ContrastOptions) :
  JS.geb 1 (requiredThreshold opts - EPSILON) = false.
Proof. unfold requiredThreshold. now destruct (_ || _). Qed.

End EarlyReturns.

Section SnapProperties.

Variable pow : float -> float -> float.

(** The three ways in which [snapToPassingColor] returns. *)
Lemma snap_inv (fgHex bgHex : string) (opts : SnapOptions) (res : SnapResult) :
  snapToPassingColor pow fgHex bgHex opts = OK res ->
  exists fgRgb bgRgb rho,
    hexToRgb fgHex = OK fgRgb /\ hexToRgb bgHex = OK bgRgb /\
    contrastRatio pow (rgbToHex fgRgb) (rgbToHex bgRgb) = OK rho /\
    ((res = {| fg := rgbToHex fgRgb; bg := rgbToHex bgRgb; ratio := rho;
               clamped := None; adjusted := None; iterations := None |}
      /\ JS.geb rho (requiredThreshold opts - EPSILON) = true)
     \/
     (res = {| fg := rgbToHex fgRgb; bg := rgbToHex bgRgb; ratio := rho;
               clamped := Some true; adjusted := None; iterations := None |})
     \/
     (exists cs best isClamped,
        searchCandidates pow fgRgb bgRgb (requiredThreshold opts) = OK cs /\
        chooseCandidate opts (requiredThreshold opts)
          (rgbToHsl fgRgb) (rgbToHsl bgRgb) cs = (best, isClamped) /\
        applyCandidate pow fgRgb bgRgb best isClamped = OK res)).
Proof.
  unfold snapToPassingColor. intros H.
  apply bind_OK_inv in H. destruct H as (fgRgb & Hf & H).
  apply bind_OK_inv in H. destruct H as (bgRgb & Hb & H).
  apply bind_OK_inv in H. destruct H as (rho & Hr & H).
  exists fgRgb, bgRgb, rho. repeat (split; [assumption|]).
  destruct (JS.geb rho _) eqn:P.
  - injection H as <-. left. now split.
  - destruct (_ && _).
    + injection H as <-. right. now left.
    + apply bind_OK_inv in H. destruct H as (cs & Hc & H).
      destruct (chooseCandidate _ _ _ _ cs) as [best isClamped] eqn:C.
      right. right. now exists cs, best, isClamped.
Qed.

(** C1. Whenever [snapToPassingColor] returns a result that is not marked
    as clamped, the returned pair passes [passesContrast] under the same
    options. *)
Theorem snap_unclamped_passes (fgHex bgHex : string) (opts : SnapOptions)
    (res : SnapResult) :
  snapToPassingColor pow fgHex bgHex opts = OK res ->
  clamped res <> Some true ->
  passesContrast pow (fg res) (bg res) opts = OK true.
Proof.
  intros H NC.
  destruct (snap_inv _ _ _ _ H)
    as (fgRgb & bgRgb & rho & Hf & Hb & Hr &
        [[-> P]|[->|(cs & best & isClamped & Hc & Ch & Ap)]]).
  - unfold passesContrast. cbn [fg bg]. rewrite Hr. cbn [bind]. now rewrite P.
  - now cbn in NC.
  - destruct (applyCandidate_inv _ _ _ _ _ _ Ap)
      as (c & -> & Hfin & -> & -> & Hcl & _).
    rewrite Hcl in NC.
    destruct isClamped; [now elim NC|].
    destruct (chooseCandidate_Some _ _ _ _ _ _ _ Ch) as [Hin Hmeets].
    specialize (Hmeets eq_refl).
    pose proof (searchCandidates_inv _ _ _ _ _ Hc c Hin) as Hm.
    assert (E : ratio res = c_ratio c).
    { destruct (startsWithFg (c_path c)).
      - rewrite Hm in Hfin. now injection Hfin.
      - apply contrastRatio_sym in Hm. rewrite Hm in Hfin. now injection Hfin. }
    unfold passesContrast. rewrite Hfin. cbn [bind].
    rewrite E. exact (f_equal OK Hmeets).
Qed.

(** C6. [passesContrast] holds exactly when the contrast ratio is at least
    the threshold minus 1e-3, the threshold being 3.0 when [isLargeText] or
    [uiComponent] is set and 4.5 otherwise (omitted flags count as
    false). *)
Theorem passesContrast_iff (fgHex bgHex : string) (opts : ContrastOptions) :
  acceptsHex fgHex = true -> acceptsHex bgHex = true ->
  exists rho,
    contrastRatio pow fgHex bgHex = OK rho /\
    let T := (if truthy (isLargeText opts) || truthy (uiComponent opts)
              then 3.0 else 4.5)%float in
    passesContrast pow fgHex bgHex opts = OK (T - 1e-3 <=? rho)%float.
Proof.
  intros Af Ab.
  destruct (hexToRgb_accepts _ Af) as (cf & Hf).
  destruct (hexToRgb_accepts _ Ab) as (cb & Hb).
  eexists. split; [apply (contrastRatio_intro _ _ _ _ _ Hf Hb)|].
  unfold passesContrast.
  rewrite (contrastRatio_intro _ _ _ _ _ Hf Hb). reflexivity.
Qed.

(** C7. Two inputs that denote the same colour have ratio exactly 1, and
    [snapToPassingColor] returns them canonicalised, with [clamped] set,
    ratio 1 and neither [adjusted] nor [iterations].  (The luminance of
    the colour is assumed to be a number: with 0.05 added it is finite
    and not zero.) *)
Theorem snap_identical_colors (fgHex bgHex : string) (opts : SnapOptions)
    (rgb : RGB) :
  hexToRgb fgHex = OK rgb -> hexToRgb bgHex = OK rgb ->
  JS.isFiniteNonZero (relativeLuminanceRgb pow rgb + 0.05)%float = true ->
  contrastRatio pow fgHex bgHex = OK 1%float /\
  snapToPassingColor pow fgHex bgHex opts
  = OK {| fg := canonicalHex fgHex; bg := canonicalHex bgHex;
          ratio := 1%float;
          clamped := Some true; adjusted := None; iterations := None |}.
Proof.
  intros Hf Hb Fin.
  assert (R : contrastRatio pow fgHex bgHex = OK 1%float).
  { rewrite (contrastRatio_intro _ _ _ _ _ Hf Hb).
    now rewrite luminanceRatio_self. }
  split; [exact R|].
  exact (proj2 (snap_early_return _ _ _ opts _ R)
           (threshold_above_one opts) eq_refl).
Qed.


(** C9. A pair that already passes is returned in canonical form with its
    own ratio and no [adjusted], [clamped] or [iterations]; running
    [snapToPassingColor] again on the returned pair returns the very same
    result. *)
Theorem snap_already_passing (fgHex bgHex : string) (opts : SnapOptions)
    (rho : float) :
  contrastRatio pow fgHex bgHex = OK rho ->
  JS.geb rho (requiredThreshold opts - EPSILON) = true ->
  let res := {| fg := canonicalHex fgHex; bg := canonicalHex bgHex;
                ratio := rho;
                clamped := None; adjusted := None; iterations := None |} in
  snapToPassingColor pow fgHex bgHex opts = OK res /\
  snapToPassingColor pow (fg res) (bg res) opts = OK res.
Proof.
  intros R P res. split.
  - now apply (snap_early_return _ _ _ opts _ R).
  - destruct (contrastRatio_inv _ _ _ _ R) as (cf & cb & Hf & Hb & E).
    destruct (hexToRgb_inv _ _ Hf) as (_ & Ef & Pf & _).
    destruct (hexToRgb_inv _ _ Hb) as (_ & Eb & Pb & _).
    destruct (hexToRgb_inv _ _ Pf) as (_ & Ef' & _).
    destruct (hexToRgb_inv _ _ Pb) as (_ & Eb' & _).
    assert (R' : contrastRatio pow (canonicalHex fgHex) (canonicalHex bgHex)
                 = OK rho).
    { now rewrite (contrastRatio_intro _ _ _ _ _ Pf Pb), E. }
    pose proof (proj1 (snap_early_return _ _ _ opts _ R') P) as S.
    cbn [fg bg res]. rewrite S. unfold res.
    now rewrite <- Ef', <- Eb', Ef, Eb.
Qed.

(** C8. Every returned colour string is '#' followed by six upper-case hex
    digits.  When [adjusted] is set, the result comes from the winning
    candidate of the four searches: the side named by [adjusted] carries
    that candidate's colour and the other side is the canonical form of
    the corresponding input. *)
Theorem snap_adjusts_one_side (fgHex bgHex : string) (opts : SnapOptions)
    (res : SnapResult) :
  snapToPassingColor pow fgHex bgHex opts = OK res ->
  (isCanonicalHex (fg res) = true /\ isCanonicalHex (bg res) = true) /\
  forall side, adjusted res = Some side ->
    exists fgRgb bgRgb cs winner isClamped,
      hexToRgb fgHex = OK fgRgb /\ hexToRgb bgHex = OK bgRgb /\
      searchCandidates pow fgRgb bgRgb (requiredThreshold opts) = OK cs /\
      chooseCandidate opts (requiredThreshold opts)
        (rgbToHsl fgRgb) (rgbToHsl bgRgb) cs = (Some winner, isClamped) /\
      In winner cs /\
      startsWithFg (c_path winner)
      = match side with Fg => true | Bg => false end /\
      match side with
      | Fg => fg res = rgbToHex (c_rgb winner) /\ bg res = canonicalHex bgHex
      | Bg => fg res = canonicalHex fgHex /\ bg res = rgbToHex (c_rgb winner)
      end.
Proof.
  intros H.
  destruct (snap_inv _ _ _ _ H)
    as (fgRgb & bgRgb & rho & Hf & Hb & Hr & Cases).
  destruct (hexToRgb_inv _ _ Hf) as (_ & Ef & _).
  destruct (hexToRgb_inv _ _ Hb) as (_ & Eb & _).
  assert (Canon : forall x y q,
            contrastRatio pow (rgbToHex x) (rgbToHex y) = OK q ->
            isCanonicalHex (rgbToHex x) = true /\
            isCanonicalHex (rgbToHex y) = true).
  { intros x y q Q.
    destruct (contrastRatio_inv _ _ _ _ Q) as (cx & cy & Hx & Hy & _).
    split; apply rgbToHex_accepted_canonical;
      eapply hexToRgb_OK_accepts; eauto. }
  destruct Cases as [[-> P]|[->|(cs & best & isClamped & Hc & Ch & Ap)]].
  - split; [exact (Canon _ _ _ Hr)|]. cbn. discriminate.
  - split; [exact (Canon _ _ _ Hr)|]. cbn. discriminate.
  - destruct (applyCandidate_inv _ _ _ _ _ _ Ap)
      as (c & -> & Hfin & Efg & Ebg & _ & Hadj & _).
    split; [rewrite Efg, Ebg; exact (Canon _ _ _ Hfin)|].
    intros side Hs. rewrite Hadj in Hs. injection Hs as <-.
    exists fgRgb, bgRgb, cs, c, isClamped.
    repeat (split; [assumption|]).
    split; [exact (proj1 (chooseCandidate_Some _ _ _ _ _ _ _ Ch))|].
    destruct (startsWithFg (c_path c)); (split; [reflexivity|]);
      split; congruence.
Qed.

End SnapProperties.

Section SearchProperties.

Variable pow : float -> float -> float.

Lemma searchStep_eq (hsl : HSL) (otherRgb : RGB) (threshold : float)
    (isForeground isLightening : bool) (st : SearchState) (rho : float) :
  testRatioOf pow otherRgb isForeground (midpointRgb hsl st) = OK rho ->
  let midL := ((minL st + maxL st) / 2)%float in
  searchStep pow hsl otherRgb threshold isForeground isLightening st
  = OK (if JS.geb rho threshold
        then mkSearchState (if isLightening then minL st else midL)
                           (if isLightening then midL else maxL st)
                           (midpointRgb hsl st) rho (S (iterationCount st))
        else mkSearchState (if isLightening then midL else minL st)
                           (if isLightening then maxL st else midL)
                           (bestRgb st) (bestRatio st)
                           (S (iterationCount st))).
Proof.
  intros H midL. unfold searchStep. fold (midpointRgb hsl st).
  rewrite H. cbn [bind].
  now destruct (JS.geb rho threshold), isLightening.
Qed.

(** C2, amended. Each pass of a search compares the midpoint's ratio with
    the bare threshold: a ratio below the threshold, however close to it,
    leaves the recorded best unchanged and moves the interval away from
    the midpoint; only a ratio of at least the threshold is recorded. *)
Theorem searchStep_bare_threshold (hsl : HSL) (otherRgb : RGB)
    (threshold : float) (isForeground isLightening : bool)
    (st : SearchState) (rho : float) :
  testRatioOf pow otherRgb isForeground (midpointRgb hsl st) = OK rho ->
  let midL := ((minL st + maxL st) / 2)%float in
  ((rho <? threshold)%float = true ->
   searchStep pow hsl otherRgb threshold isForeground isLightening st
   = OK (mkSearchState (if isLightening then midL else minL st)
                       (if isLightening then maxL st else midL)
                       (bestRgb st) (bestRatio st) (S (iterationCount st))))
  /\
  (JS.geb rho threshold = true ->
   searchStep pow hsl otherRgb threshold isForeground isLightening st
   = OK (mkSearchState (if isLightening then minL st else midL)
                       (if isLightening then midL else maxL st)
                       (midpointRgb hsl st) rho (S (iterationCount st)))).
Proof.
  intros H midL.
  pose proof (searchStep_eq hsl otherRgb threshold isForeground isLightening
                st rho H) as E.
  cbv zeta in E. split; intros C.
  - apply FloatFacts.ltb_not_geb in C. now rewrite C in E.
  - now rewrite C in E.
Qed.

Lemma searchStep_recorded (hsl : HSL) (otherRgb : RGB) (threshold : float)
    (isForeground isLightening : bool) (st0 st st' : SearchState) :
  recordedAboveThreshold threshold st0 st ->
  searchStep pow hsl otherRgb threshold isForeground isLightening st = OK st' ->
  recordedAboveThreshold threshold st0 st'.
Proof.
  intros I H. pose proof H as H'. unfold searchStep in H'.
  apply bind_OK_inv in H'. destruct H' as (rho & Hr & _).
  rewrite (searchStep_eq _ _ threshold _ isLightening _ _ Hr) in H.
  injection H as <-.
  destruct (JS.geb rho threshold) eqn:G; [right; exact G|exact I].
Qed.

Lemma searchLoop_recorded (hsl : HSL) (otherRgb : RGB) (threshold : float)
    (isForeground isLightening : bool) (st0 : SearchState) (n : nat) :
  forall st st',
    recordedAboveThreshold threshold st0 st ->
    searchLoop pow hsl otherRgb threshold isForeground isLightening n st
    = OK st' ->
    recordedAboveThreshold threshold st0 st'.
Proof.
  induction n as [|n IH]; intros st st' I H; cbn in H.
  - now injection H as <-.
  - apply bind_OK_inv in H. destruct H as (st1 & H1 & H).
    pose proof (searchStep_recorded _ _ _ _ _ _ _ _ I H1) as I1.
    destruct (_ <? _)%float.
    + now injection H as <-.
    + eapply IH; eauto.
Qed.

(** What a search returns is its starting colour or a colour whose ratio
    is at least the bare threshold: never one admitted by the epsilon
    alone. *)
Lemma binarySearchLightness_recorded (hsl : HSL) (otherRgb : RGB)
    (threshold : float) (isForeground isLightening : bool) (n : nat)
    (sr : SearchResult) :
  binarySearchLightness pow hsl otherRgb threshold isForeground isLightening n
  = OK sr ->
  sr_rgb sr = hslToRgb hsl \/ JS.geb (sr_ratio sr) threshold = true.
Proof.
  unfold binarySearchLightness. intros H.
  apply bind_OK_inv in H. destruct H as (st0 & H0 & H).
  apply bind_OK_inv in H. destruct H as (st & H1 & H).
  injection H as <-. cbn [sr_rgb sr_ratio].
  assert (E0 : bestRgb st0 = hslToRgb hsl).
  { unfold searchInit in H0.
    apply bind_OK_inv in H0. destruct H0 as (q & _ & H0).
    now injection H0 as <-. }
  assert (I0 : recordedAboveThreshold threshold st0 st0) by (left; now split).
  destruct (searchLoop_recorded hsl otherRgb threshold isForeground
              isLightening st0 n st0 st I0 H1) as [[E _]|G].
  - left. now rewrite E.
  - now right.
Qed.

End SearchProperties.

(** *** The order of the tie zone *)

Lemma ltb_irrefl (x : float) : (x <? x)%float = false.
Proof.
  rewrite ltb_spec. unfold SFltb.
  destruct (Prim2SF x) as [[]|[]| |[] m e]; cbn; try reflexivity;
    rewrite Z.compare_refl;
    change (Pos.compare_cont Eq m m) with (Pos.compare m m);
    now rewrite Pos.compare_refl.
Qed.

Lemma ltb_asym (x y : float) : (x <? y)%float = true -> (y <? x)%float = false.
Proof.
  intros H. destruct (y <? x)%float eqn:G; [|reflexivity].
  pose proof (BestFacts.ltb_trans _ _ _ H G) as T.
  now rewrite ltb_irrefl in T.
Qed.

Lemma sortsBefore_iff (x y : CandidateWithChange) :
  sortsBefore x y <-> (change y <? change x)%float = false.
Proof.
  unfold sortsBefore. rewrite !RoundFacts.sub_ltb_zero. split.
  - intros [H|H]; [now apply ltb_asym|exact H].
  - now right.
Qed.

Lemma insertByChange_In (x z : CandidateWithChange)
    (sorted : list CandidateWithChange) :
  In z (insertByChange x sorted) <-> z = x \/ In z sorted.
Proof.
  induction sorted as [|y rest IH]; cbn.
  - intuition congruence.
  - destruct (_ <? _)%float; cbn; rewrite ?IH; intuition congruence.
Qed.

Lemma insertByChange_strongly (x : CandidateWithChange)
    (sorted : list CandidateWithChange) :
  StronglySorted sortsBefore sorted ->
  StronglySorted sortsBefore (insertByChange x sorted).
Proof.
  induction 1 as [|y rest S IH F]; cbn.
  - repeat constructor.
  - destruct (change x - change y <? 0)%float eqn:C.
    + constructor; [now constructor|].
      rewrite RoundFacts.sub_ltb_zero in C.
      constructor; [apply sortsBefore_iff; now apply ltb_asym|].
      rewrite Forall_forall in *. intros z Hz.
      specialize (F z Hz). apply sortsBefore_iff in F.
      apply sortsBefore_iff.
      destruct (change z <? change x)%float eqn:G; [|reflexivity].
      rewrite (BestFacts.ltb_trans _ _ _ G C) in F. discriminate.
    + constructor; [exact IH|].
      rewrite Forall_forall in *. intros z Hz.
      apply insertByChange_In in Hz. destruct Hz as [->|Hz]; [|auto].
      now right.
Qed.

Lemma precedes_insertByChange (x a b : CandidateWithChange)
    (sorted : list CandidateWithChange) :
  precedes sorted a b -> precedes (insertByChange x sorted) a b.
Proof.
  induction 1 as [a b xs I|y a b xs P IH]; cbn.
  - destruct (_ <? _)%float.
    + apply precedes_later. now apply precedes_here.
    + apply precedes_here. apply insertByChange_In. now right.
  - destruct (_ <? _)%float.
    + apply precedes_later. now apply precedes_later.
    + now apply precedes_later.
Qed.

(** An element is inserted behind the elements of the same change. *)
Lemma insertByChange_behind_equal (x a : CandidateWithChange)
    (sorted : list CandidateWithChange) :
  StronglySorted sortsBefore sorted -> In a sorted -> change a = change x ->
  precedes (insertByChange x sorted) a x.
Proof.
  induction 1 as [|y rest S IH F]; intros I E; [destruct I|]. cbn.
  destruct (change x - change y <? 0)%float eqn:C.
  - exfalso. rewrite RoundFacts.sub_ltb_zero in C. destruct I as [->|I].
    + rewrite E, ltb_irrefl in C. discriminate.
    + rewrite Forall_forall in F. specialize (F a I).
      apply sortsBefore_iff in F. rewrite E in F. congruence.
  - destruct I as [->|I].
    + apply precedes_here. apply insertByChange_In. now left.
    + apply precedes_later. now apply IH.
Qed.

Lemma precedes_snoc {A} (xs : list A) (x a b : A) :
  precedes (xs ++ [x]) a b -> precedes xs a b \/ (In a xs /\ b = x).
Proof.
  induction xs as [|y xs IH]; cbn; intros P.
  - inversion P as [? ? ? I|? ? ? ? P']; subst; [destruct I|inversion P'].
  - inversion P as [? ? ? I|? ? ? ? P']; subst.
    + apply in_app_or in I. destruct I as [I|[<-|[]]].
      * left. now apply precedes_here.
      * right. split; [now left|reflexivity].
    + destruct (IH P') as [Q|[Q ->]].
      * left. now apply precedes_later.
      * right. split; [now right|reflexivity].
Qed.

(** The sort is stable. *)
Lemma sortByChange_stable (cs : list CandidateWithChange) :
  stablySorted cs (sortByChange cs).
Proof.
  unfold sortByChange.
  assert (G : forall rest done acc,
            stablySorted done acc ->
            stablySorted (done ++ rest)
              (fold_left (fun sorted x => insertByChange x sorted) rest acc)).
  { induction rest as [|x rest IH]; intros done acc H; cbn.
    - now rewrite app_nil_r.
    - replace (done ++ x :: rest)%list with ((done ++ [x]) ++ rest)%list
        by (rewrite <- app_assoc; reflexivity).
      apply IH. destruct H as (P & S & K).
      split; [|split].
      + eapply Permutation_trans; [apply insertByChange_perm|].
        eapply Permutation_trans; [|apply Permutation_cons_append].
        now constructor.
      + now apply insertByChange_strongly.
      + intros a b E Q. apply precedes_snoc in Q. destruct Q as [Q|[Q ->]].
        * apply precedes_insertByChange. now apply K.
        * apply insertByChange_behind_equal; [exact S| |exact E].
          eapply Permutation_in; [apply Permutation_sym; exact P|exact Q]. }
  apply (G cs [] []). split; [constructor|]. split; [constructor|].
  intros a b _ P. inversion P.
Qed.

Lemma find_first {A} (p : A -> bool) (xs : list A) (w : A) :
  find p xs = Some w ->
  exists before after,
    xs = (before ++ w :: after)%list /\ p w = true /\
    Forall (fun c => p c = false) before.
Proof.
  induction xs as [|x xs IH]; cbn; [discriminate|].
  destruct (p x) eqn:Px.
  - intros E. injection E as <-. now exists [], xs.
  - intros F. destruct (IH F) as (before & after & -> & Pw & Hb).
    exists (x :: before), after. repeat split; auto.
Qed.

Lemma find_none_Forall {A} (p : A -> bool) (xs : list A) :
  find p xs = None -> Forall (fun c => p c = false) xs.
Proof.
  intros F. apply Forall_forall. intros x Hx.
  exact (find_none p xs F x Hx).
Qed.

Lemma breakTie_findOrFirst (opts : SnapOptions)
    (zone : list CandidateWithChange) :
  (1 < List.length zone)%nat ->
  breakTie opts zone = findOrFirst (onPreferredSide opts) zone.
Proof.
  intros L. apply Nat.ltb_lt in L.
  unfold breakTie, onPreferredSide, prefersBackground. rewrite L.
  destruct (truthy (preferForegroundAdjust opts)),
           (truthy (preferBackgroundAdjust opts)); reflexivity.
Qed.

(** The searches are listed in canonical order. *)
Lemma searchCandidates_canonical (pow : float -> float -> float)
    (fgRgb bgRgb : RGB) (threshold : float)
    (cs : list Candidate) :
  searchCandidates pow fgRgb bgRgb threshold = OK cs ->
  map c_path cs = canonicalOrder.
Proof.
  unfold searchCandidates. intros H.
  apply bind_OK_inv in H. destruct H as (a & Ha & H).
  apply bind_OK_inv in H. destruct H as (b & Hb & H).
  apply bind_OK_inv in H. destruct H as (c & Hc & H).
  apply bind_OK_inv in H. destruct H as (d & Hd & H).
  injection H as <-. reflexivity.
Qed.

(** C3, amended. With more than one member in the tie zone, the winner is
    the first member on the preferred side in the order of the tie zone;
    when no member is on the preferred side, the winner is the first member
    of the tie zone.  The tie zone is in the order of the passing set
    stably sorted by ascending lightness change: a candidate of smaller
    change comes first, whatever its path, and only candidates of equal
    change keep the canonical order in which the searches are listed. *)
Theorem tie_break_in_change_order (opts : SnapOptions) (threshold : float)
    (fgHsl bgHsl : HSL) (candidates : list Candidate) :
  let passing := filter (meetsThreshold threshold) candidates in
  let zone := similarCandidatesOf fgHsl bgHsl passing in
  (1 < List.length zone)%nat ->
  (exists sorted first,
     stablySorted (map (addChange fgHsl bgHsl) passing) sorted /\
     hd_error sorted = Some first /\
     zone = filter (similarTo (change first)) sorted)
  /\
  exists winner,
    chooseCandidate opts threshold fgHsl bgHsl candidates
    = (Some (candidate winner), false) /\
    ((exists before after,
        zone = (before ++ winner :: after)%list /\
        onPreferredSide opts (c_path winner) = true /\
        Forall (fun c : CandidateWithChange =>
                  onPreferredSide opts (c_path c) = false) before)
     \/
     (Forall (fun c : CandidateWithChange =>
                onPreferredSide opts (c_path c) = false) zone /\
      hd_error zone = Some winner)).
Proof.
  intros passing zone L.
  assert (Z : zone = similarCandidatesOf fgHsl bgHsl passing) by reflexivity.
  unfold similarCandidatesOf in Z.
  destruct (sortByChange (map (addChange fgHsl bgHsl) passing))
    as [|first rest] eqn:S.
  { rewrite Z in L. cbn in L. lia. }
  split.
  - exists (first :: rest), first. rewrite <- S.
    split; [apply sortByChange_stable|]. rewrite S. now split.
  - assert (P : (0 <? List.length passing)%nat = true).
    { apply Nat.ltb_lt. destruct passing; [discriminate S|cbn; lia]. }
    unfold chooseCandidate. fold passing. rewrite P. fold zone.
    rewrite (breakTie_findOrFirst opts zone L). unfold findOrFirst.
    destruct (find _ zone) as [w|] eqn:F.
    + exists w. split; [reflexivity|]. left.
      apply (find_first (fun c : CandidateWithChange =>
                           onPreferredSide opts (c_path c))) in F.
      exact F.
    + destruct zone as [|w zone'] eqn:Ez; [cbn in L; lia|].
      exists w. split; [reflexivity|]. right.
      split; [|reflexivity].
      apply (find_none_Forall (fun c : CandidateWithChange =>
                                 onPreferredSide opts (c_path c))) in F.
      exact F.
Qed.

(** *** Accepted shapes *)

Lemma isHexAnyCase_not_hash (c : ascii) :
  isHexAnyCase c = true -> Ascii.eqb c "#" = false.
Proof.
  intros H. destruct (Ascii.eqb c "#") eqn:E; [|reflexivity].
  apply Ascii.eqb_eq in E. subst c. discriminate H.
Qed.

Lemma replaceFirstHash_no_hash (s : string) :
  Str.forallChars isHexAnyCase s = true -> Str.replaceFirstHash s = s.
Proof.
  induction s as [|c s IH]; cbn; [reflexivity|].
  intros H. apply andb_prop in H. destruct H as [Hc Hs].
  now rewrite (isHexAnyCase_not_hash c Hc), IH.
Qed.

Lemma forallChars_toUpperCase (s : string) :
  Str.forallChars isHexAnyCase s = true ->
  Str.forallChars Str.isHexUpper (Str.toUpperCase s) = true.
Proof.
  induction s as [|c s IH]; cbn; [reflexivity|].
  intros H. apply andb_prop in H. destruct H as [Hc Hs].
  unfold isHexAnyCase in Hc. now rewrite Hc, IH.
Qed.

(** Every string of a shape the specification names is accepted. *)
Lemma specifiedHexShape_accepted (hex : string) :
  specifiedHexShape hex = true -> acceptsHex hex = true.
Proof.
  unfold specifiedHexShape, acceptsHex, Str.testHexPattern.
  intros H. apply andb_prop in H. destruct H as [L A].
  assert (E : Str.replaceFirstHash hex
              = match hex with
                | String c rest => if Ascii.eqb c "#" then rest else hex
                | EmptyString => hex
                end).
  { destruct hex as [|c rest]; [reflexivity|].
    destruct (Ascii.eqb c "#") eqn:C.
    - cbn. now rewrite C.
    - now apply replaceFirstHash_no_hash. }
  rewrite E, StrFacts.length_toUpperCase, L.
  now apply forallChars_toUpperCase.
Qed.

(** C4. A string with '#' between its digits is none of the shapes the
    specification names, and [hexToRgb] parses it. *)
Theorem hexToRgb_accepts_inner_hash :
  specifiedHexShape "1#23" = false /\
  hexToRgb "1#23" = OK {| r := 17; g := 34; b := 51 |}.
Proof. split; vm_compute; reflexivity. Qed.

(** ** Symmetry and self-ratio *)

Section SelfRatio.

Variable pow : float -> float -> float.

(** The ratio of a colour against itself is exactly 1 whenever its
    luminance is a number. *)
Lemma contrastRatio_self (hex : string) (rgb : RGB) :
  hexToRgb hex = OK rgb ->
  JS.isFiniteNonZero (relativeLuminanceRgb pow rgb + 0.05)%float = true ->
  contrastRatio pow hex hex = OK 1%float.
Proof.
  intros H Fin. rewrite (contrastRatio_intro _ _ _ _ _ H H).
  now rewrite luminanceRatio_self.
Qed.

(** On accepted inputs [contrastRatio] returns a number and does not
    depend on the order of its arguments. *)
Lemma contrastRatio_comm (a c : string) :
  acceptsHex a = true -> acceptsHex c = true ->
  exists rho, contrastRatio pow a c = OK rho /\ contrastRatio pow c a = OK rho.
Proof.
  intros Ha Hc.
  destruct (hexToRgb_accepts _ Ha) as (ca & Ea).
  destruct (hexToRgb_accepts _ Hc) as (cc & Ec).
  eexists. split; [apply (contrastRatio_intro _ _ _ _ _ Ea Ec)|].
  apply contrastRatio_sym. apply (contrastRatio_intro _ _ _ _ _ Ea Ec).
Qed.

End SelfRatio.

(** ** Concrete runs *)

(** C2, counterexample. [snapToPassingColor('#C9C9C9', '#E2E2E2')]: the
    first midpoint of the darken-foreground search is #656565, whose ratio
    against #E2E2E2 (about 4.4995) lies in [4.5 - 1e-3, 4.5) and passes
    [passesContrast]; the pass does not record it and moves the upper end
    of the interval down to the midpoint, away from it.  The search ends on
    #636363. *)
Lemma search_rejects_ratio_within_epsilon :
  let fgRgb := {| r := 201; g := 201; b := 201 |} in
  let bgRgb := {| r := 226; g := 226; b := 226 |} in
  let hsl := rgbToHsl fgRgb in
  hexToRgb "#C9C9C9" = OK fgRgb /\ hexToRgb "#E2E2E2" = OK bgRgb /\
  exists st0 rho st1,
    searchInit PowModel.pow hsl bgRgb false = OK st0 /\
    testRatioOf PowModel.pow bgRgb true (midpointRgb hsl st0) = OK rho /\
    searchStep PowModel.pow hsl bgRgb 4.5 true false st0 = OK st1 /\
    rgbToHex (midpointRgb hsl st0) = "#656565" /\
    JS.geb rho (4.5 - EPSILON) = true /\ (rho <? 4.5)%float = true /\
    passesContrast PowModel.pow "#656565" "#E2E2E2" noContrastOptions
    = OK true /\
    bestRgb st1 = bestRgb st0 /\ bestRatio st1 = bestRatio st0 /\
    rgbToHex (bestRgb st1) = "#C9C9C9" /\
    minL st1 = minL st0 /\ maxL st1 = ((minL st0 + maxL st0) / 2)%float /\
    exists res,
      snapToPassingColor PowModel.pow "#C9C9C9" "#E2E2E2" noSnapOptions
      = OK res /\
      fg res = "#636363" /\ bg res = "#E2E2E2" /\ adjusted res = Some Fg.
Proof.
  cbv zeta. split; [vm_compute; reflexivity|].
  split; [vm_compute; reflexivity|].
  eexists. eexists. eexists.
  split; [vm_compute; reflexivity|].
  split; [vm_compute; reflexivity|].
  split; [vm_compute; reflexivity|].
  repeat (split; [vm_compute; reflexivity|]).
  eexists. split; [vm_compute; reflexivity|].
  repeat split.
Qed.

(** C3, counterexample. [snapToPassingColor('#49670F', '#5840E1',
    { isLargeText: true })]: the tie zone holds the darken-foreground
    candidate #0A0E02 (change 20.0) followed by the lighten-foreground
    candidate #89C21C (change about 20.39).  The first foreground member
    in canonical order is the lighten-foreground one; the engine returns
    the darken-foreground one. *)
Lemma tie_break_not_in_canonical_order :
  let fgRgb := {| r := 73; g := 103; b := 15 |} in
  let bgRgb := {| r := 88; g := 64; b := 225 |} in
  hexToRgb "#49670F" = OK fgRgb /\ hexToRgb "#5840E1" = OK bgRgb /\
  exists candidates zone specified res,
    searchCandidates PowModel.pow fgRgb bgRgb 3.0 = OK candidates /\
    similarCandidatesOf (rgbToHsl fgRgb) (rgbToHsl bgRgb)
      (filter (meetsThreshold 3.0) candidates) = zone /\
    map (fun c : CandidateWithChange => c_path c) zone
    = [FgDarken; FgLighten] /\
    map (fun c : CandidateWithChange => rgbToHex (c_rgb c)) zone
    = ["#0A0E02"; "#89C21C"] /\
    specifiedTieBreak largeTextOptions zone = Some specified /\
    c_path specified = FgLighten /\
    rgbToHex (c_rgb specified) = "#89C21C" /\
    snapToPassingColor PowModel.pow "#49670F" "#5840E1" largeTextOptions
    = OK res /\
    fg res = "#0A0E02" /\ bg res = "#5840E1" /\ adjusted res = Some Fg /\
    clamped res = Some false.
Proof.
  cbv zeta. split; [vm_compute; reflexivity|].
  split; [vm_compute; reflexivity|].
  eexists. eexists. eexists. eexists.
  split; [vm_compute; reflexivity|].
  split; [vm_compute; reflexivity|].
  split; [vm_compute; reflexivity|].
  split; [vm_compute; reflexivity|].
  split; [vm_compute; reflexivity|].
  split; [vm_compute; reflexivity|].
  split; [vm_compute; reflexivity|].
  split; [vm_compute; reflexivity|].
  repeat split.
Qed.

(** ** The theorems on concrete inputs *)

(** [snapToPassingColor('#888888', '#FFFFFF')] returns an unclamped pair,
    which passes. *)
Lemma snap_unclamped_passes_witness :
  exists res,
    snapToPassingColor PowModel.pow "#888888" "#FFFFFF" noSnapOptions = OK res
    /\ clamped res <> Some true
    /\ passesContrast PowModel.pow (fg res) (bg res) noSnapOptions = OK true.
Proof.
  eexists. split; [vm_compute; reflexivity|].
  split; [discriminate|].
  eapply (snap_unclamped_passes PowModel.pow "#888888" "#FFFFFF");
    [vm_compute; reflexivity | discriminate].
Defined.

(** [passesContrast('#777777', 'fff')] compares the ratio with 4.5 - 1e-3. *)
Lemma passesContrast_iff_witness :
  acceptsHex "#777777" = true /\ acceptsHex "fff" = true /\
  exists rho,
    contrastRatio PowModel.pow "#777777" "fff" = OK rho /\
    passesContrast PowModel.pow "#777777" "fff" noContrastOptions
    = OK (4.5 - 1e-3 <=? rho)%float.
Proof.
  split; [reflexivity|]. split; [reflexivity|].
  exact (passesContrast_iff PowModel.pow "#777777" "fff" noContrastOptions
           eq_refl eq_refl).
Defined.

(** White against white, written in two ways. *)
Lemma snap_identical_colors_witness :
  let white := {| r := 255; g := 255; b := 255 |} in
  hexToRgb "#FFFFFF" = OK white /\ hexToRgb "fff" = OK white /\
  JS.isFiniteNonZero (relativeLuminanceRgb PowModel.pow white + 0.05)%float
  = true /\
  contrastRatio PowModel.pow "#FFFFFF" "fff" = OK 1%float /\
  snapToPassingColor PowModel.pow "#FFFFFF" "fff" noSnapOptions
  = OK {| fg := "#FFFFFF"; bg := "#FFFFFF"; ratio := 1%float;
          clamped := Some true; adjusted := None; iterations := None |}.
Proof.
  cbv zeta. split; [reflexivity|]. split; [reflexivity|].
  split; [vm_compute; reflexivity|].
  apply (snap_identical_colors PowModel.pow "#FFFFFF" "fff" noSnapOptions
           {| r := 255; g := 255; b := 255 |});
    vm_compute; reflexivity.
Defined.


(** Black on white passes; so does the returned pair, with the same
    result. *)
Lemma snap_already_passing_witness :
  contrastRatio PowModel.pow "#000" "#ffffff" = OK 21%float /\
  JS.geb 21 (requiredThreshold noSnapOptions - EPSILON) = true /\
  let res := {| fg := "#000000"; bg := "#FFFFFF"; ratio := 21%float;
                clamped := None; adjusted := None; iterations := None |} in
  snapToPassingColor PowModel.pow "#000" "#ffffff" noSnapOptions = OK res /\
  snapToPassingColor PowModel.pow "#000000" "#FFFFFF" noSnapOptions = OK res.
Proof.
  split; [vm_compute; reflexivity|]. split; [vm_compute; reflexivity|].
  apply (snap_already_passing PowModel.pow "#000" "#ffffff" noSnapOptions
           21%float); vm_compute; reflexivity.
Defined.

(** [snapToPassingColor('#888', '#ffffff')] adjusts the foreground and
    returns the background in canonical form. *)
Lemma snap_adjusts_one_side_witness :
  exists res,
    snapToPassingColor PowModel.pow "#888" "#ffffff" noSnapOptions = OK res /\
    adjusted res = Some Fg /\
    isCanonicalHex (fg res) = true /\ isCanonicalHex (bg res) = true /\
    bg res = canonicalHex "#ffffff".
Proof.
  eexists. split; [vm_compute; reflexivity|]. split; [reflexivity|].
  match goal with
  | |- isCanonicalHex (fg ?res) = true /\ _ =>
      assert (H : snapToPassingColor PowModel.pow "#888" "#ffffff"
                    noSnapOptions = OK res) by (vm_compute; reflexivity);
      destruct (snap_adjusts_one_side PowModel.pow _ _ _ _ H) as [[Cf Cb] S];
      destruct (S Fg eq_refl)
        as (fgRgb & bgRgb & cs & winner & isClamped &
            _ & _ & _ & _ & _ & _ & _ & Eb)
  end.
  split; [exact Cf|]. split; [exact Cb|exact Eb].
Defined.

(** The first pass of the darken-foreground search of
    [snapToPassingColor('#C9C9C9', '#E2E2E2')]. *)
Lemma searchStep_bare_threshold_witness :
  let bgRgb := {| r := 226; g := 226; b := 226 |} in
  let hsl := rgbToHsl {| r := 201; g := 201; b := 201 |} in
  let st0 := mkSearchState 0 (l hsl) (hslToRgb hsl) 1.2782717118348828 0 in
  let rho := 4.4995023749048837%float in
  testRatioOf PowModel.pow bgRgb true (midpointRgb hsl st0) = OK rho /\
  (rho <? 4.5)%float = true /\
  searchStep PowModel.pow hsl bgRgb 4.5 true false st0
  = OK (mkSearchState (minL st0) ((minL st0 + maxL st0) / 2)%float
          (bestRgb st0) (bestRatio st0) 1).
Proof.
  cbv zeta. split; [vm_compute; reflexivity|]. split; [reflexivity|].
  apply (searchStep_bare_threshold PowModel.pow
           (rgbToHsl {| r := 201; g := 201; b := 201 |})
           {| r := 226; g := 226; b := 226 |} 4.5%float true false
           (mkSearchState 0
              (l (rgbToHsl {| r := 201; g := 201; b := 201 |}))
              (hslToRgb (rgbToHsl {| r := 201; g := 201; b := 201 |}))
              1.2782717118348828 0)
           4.4995023749048837%float);
    vm_compute; reflexivity.
Defined.

(** [snapToPassingColor('#856107', '#B8302E', { isLargeText: true })]: the
    two foreground candidates have the same change and stay in canonical
    order, so the lighten-foreground one is returned. *)
Lemma tie_break_in_change_order_witness :
  let fgRgb := {| r := 133; g := 97; b := 7 |} in
  let bgRgb := {| r := 184; g := 48; b := 46 |} in
  let passing := filter (meetsThreshold 3.0) equalChangeCandidates in
  let zone := similarCandidatesOf (rgbToHsl fgRgb) (rgbToHsl bgRgb) passing in
  hexToRgb "#856107" = OK fgRgb /\ hexToRgb "#B8302E" = OK bgRgb /\
  searchCandidates PowModel.pow fgRgb bgRgb 3.0 = OK equalChangeCandidates /\
  map (fun c : CandidateWithChange => (c_path c, change c)) zone
  = [(FgLighten, 21.372549019607845%float);
     (FgDarken, 21.372549019607845%float)] /\
  (exists res,
     snapToPassingColor PowModel.pow "#856107" "#B8302E" largeTextOptions
     = OK res /\ fg res = "#EDAD0C" /\ bg res = "#B8302E") /\
  (1 < List.length zone)%nat /\
  (exists sorted first,
     stablySorted (map (addChange (rgbToHsl fgRgb) (rgbToHsl bgRgb)) passing)
       sorted /\
     hd_error sorted = Some first /\
     zone = filter (similarTo (change first)) sorted)
  /\
  exists winner,
    chooseCandidate largeTextOptions 3.0 (rgbToHsl fgRgb) (rgbToHsl bgRgb)
      equalChangeCandidates = (Some (candidate winner), false) /\
    ((exists before after,
        zone = (before ++ winner :: after)%list /\
        onPreferredSide largeTextOptions (c_path winner) = true /\
        Forall (fun c : CandidateWithChange =>
                  onPreferredSide largeTextOptions (c_path c) = false) before)
     \/
     (Forall (fun c : CandidateWithChange =>
                onPreferredSide largeTextOptions (c_path c) = false) zone /\
      hd_error zone = Some winner)).
Proof.
  cbv zeta. split; [vm_compute; reflexivity|].
  split; [vm_compute; reflexivity|].
  split; [vm_compute; reflexivity|].
  split; [vm_compute; reflexivity|].
  split; [eexists; split; [vm_compute; reflexivity|split; reflexivity]|].
  split; [apply Nat.ltb_lt; vm_compute; reflexivity|].
  apply (tie_break_in_change_order largeTextOptions 3.0%float
           (rgbToHsl {| r := 133; g := 97; b := 7 |})
           (rgbToHsl {| r := 184; g := 48; b := 46 |})
           equalChangeCandidates).
  apply Nat.ltb_lt; vm_compute; reflexivity.
Defined.

Example luminance_black_white :
  relativeLuminance PowModel.pow (inr "#000000") = OK 0%float /\
  relativeLuminance PowModel.pow (inr "#FFFFFF") = OK 1%float /\
  contrastRatio PowModel.pow "#000000" "#FFFFFF" = OK 21%float.
Proof. repeat split; vm_compute; reflexivity. Qed.

(** * Further properties of the engine *)


(** ** Formatting a channel *)

Module ClampFacts.
Local Open Scope float_scope.

Lemma digits2_pos_bound (m : positive) :
  (Zpos m < 2 ^ Zpos (digits2_pos m))%Z.
Proof.
  induction m as [m IH|m IH|]; cbn [digits2_pos];
    rewrite ?Pos2Z.inj_succ, ?Z.pow_succ_r by lia; lia.
Qed.

(** The mantissa of a binary64 number has at most 53 bits. *)
Lemma mantissa_bound (x : float) (sg : bool) (m : positive) (e : Z) :
  Prim2SF x = S754_finite sg m e -> (Zpos m < 2 ^ 53)%Z.
Proof.
  intros E. pose proof (Prim2SF_valid x) as V. rewrite E in V.
  cbn [valid_binary] in V. unfold bounded, canonical_mantissa in V.
  apply andb_prop in V. destruct V as [V _]. apply Z.eqb_eq in V.
  unfold fexp in V.
  assert (D : (Zpos (digits2_pos m) <= 53)%Z) by (unfold prec in V; lia).
  pose proof (digits2_pos_bound m) as B.
  eapply Z.lt_le_trans; [exact B|].
  apply Z.pow_le_mono_r; lia.
Qed.

Lemma Prim2SF_255 : Prim2SF 255 = S754_finite false 8972014882652160 (-45).
Proof. reflexivity. Qed.

(** What clamping to [0, 255] yields. *)
Lemma clamp_cases (n : float) :
  let c := JS.Math_max 0 (JS.Math_min 255 n) in
  (isNaN n = true /\ c = nan) \/ c = 0 \/ c = 255 \/
  (c = n /\ exists m e,
      Prim2SF n = S754_finite false m e /\ (e <= -45)%Z /\
      (e = (-45)%Z -> (Zpos m <= 8972014882652160)%Z)).
Proof.
  cbv zeta. unfold JS.Math_min. rewrite compare_spec, Prim2SF_255.
  unfold isNaN.
  destruct (Prim2SF n) as [sg|sg| |sg m e] eqn:E; cbn [SFcompare flatten_cmp_opt].
  - (* zero *)
    right. left. unfold JS.Math_max. rewrite compare_spec, E.
    reflexivity.
  - destruct sg; cbn [flatten_cmp_opt].
    + right. left. unfold JS.Math_max. rewrite compare_spec, E. reflexivity.
    + right. right. left. reflexivity.
  - left. split; reflexivity.
  - destruct sg; cbn [flatten_cmp_opt].
    + right. left. unfold JS.Math_max. rewrite compare_spec, E. reflexivity.
    + assert (K : JS.Math_max 0 n = n).
      { unfold JS.Math_max. rewrite compare_spec, E. reflexivity. }
      destruct (Z.compare_spec (-45) e) as [He|He|He]; cbn [flatten_cmp_opt].
      * subst e.
        change (Pos.compare_cont Eq 8972014882652160 m)
          with (Z.compare 8972014882652160 (Zpos m)).
        destruct (Z.compare_spec 8972014882652160 (Zpos m)) as [Hm|Hm|Hm];
          cbn [flatten_cmp_opt].
        -- change (JS.isNegZero 255) with false. cbv iota.
           right. right. right. split; [exact K|].
           exists m, (-45)%Z. repeat split; lia.
        -- right. right. left. reflexivity.
        -- right. right. right. split; [exact K|].
           exists m, (-45)%Z. repeat split; lia.
      * right. right. left. reflexivity.
      * right. right. right. split; [exact K|].
        exists m, e. repeat split; lia.
Qed.

(** Rounding a number of (0, 255] gives an integer of [0, 255]. *)
Lemma round_in_range (n : float) (m : positive) (e : Z) :
  Prim2SF n = S754_finite false m e -> (e <= -45)%Z ->
  (e = (-45)%Z -> (Zpos m <= 8972014882652160)%Z) ->
  exists k, (0 <= k <= 255)%Z /\ JS.Math_round n = JS.ofZ k.
Proof.
  intros E He Hm. pose proof (mantissa_bound n _ _ _ E) as B.
  unfold JS.Math_round. rewrite E.
  assert (Hneg : (0 <=? e)%Z = false) by (apply Z.leb_gt; lia).
  rewrite Hneg. cbv zeta.
  set (P := (2 ^ (- e))%Z).
  assert (HP : (2 ^ (1 - e) = 2 * P)%Z).
  { unfold P. replace (1 - e)%Z with (Z.succ (- e)) by lia.
    apply Z.pow_succ_r. lia. }
  rewrite HP.
  assert (P45 : (35184372088832 <= P)%Z).
  { change 35184372088832%Z with (2 ^ 45)%Z. unfold P.
    apply Z.pow_le_mono_r; lia. }
  assert (Hm' : (2 * Zpos m < 511 * P)%Z).
  { destruct (Z.eq_dec e (-45)) as [->|Ne].
    - specialize (Hm eq_refl). lia.
    - assert (P46 : (70368744177664 <= P)%Z).
      { change 70368744177664%Z with (2 ^ 46)%Z. unfold P.
        apply Z.pow_le_mono_r; lia. }
      change (2 ^ 53)%Z with 9007199254740992%Z in B. lia. }
  set (k := ((2 * Zpos m + P) / (2 * P))%Z).
  assert (K0 : (0 <= k)%Z) by (apply Z.div_pos; lia).
  assert (K1 : (k < 256)%Z) by (apply Z.div_lt_upper_bound; lia).
  exists k. split; [lia|].
  destruct (k =? 0)%Z eqn:Z0; [|reflexivity].
  apply Z.eqb_eq in Z0. rewrite Z0. reflexivity.
Qed.

(** The integer a channel that is not [NaN] is formatted as lies between
    0 and 255. *)
Lemma clampChannel_byte (n : float) :
  isNaN n = false -> isByte (clampChannel n).
Proof.
  intros NN. unfold clampChannel, isByte.
  destruct (clamp_cases n) as [[N _]|[->|[->|(-> & m & e & E & He & Hm)]]].
  - congruence.
  - exists 0%Z. split; [lia|reflexivity].
  - exists 255%Z. split; [lia|reflexivity].
  - exact (round_in_range n m e E He Hm).
Qed.

Lemma clampChannel_nan (n : float) : isNaN n = true -> clampChannel n = nan.
Proof.
  intros N. apply OrderFacts.isNaN_nan in N. now subst n.
Qed.

End ClampFacts.

(** ** Formatting and parsing channels *)

Module FormatFacts.
Local Open Scope float_scope.

Lemma forallChars_append (p : ascii -> bool) (s t : string) :
  Str.forallChars p (s ++ t)
  = Str.forallChars p s && Str.forallChars p t.
Proof.
  induction s as [|c s IH]; cbn; [reflexivity|].
  now rewrite IH, andb_assoc.
Qed.

(** Every integer of [0, 255] is formatted as two upper-case digits that
    parse back to it, and is left alone by the clamping. *)
Lemma format_byte_table :
  forallb (fun i : nat =>
    let v := JS.ofZ (Z.of_nat i) in
    let str := toHex v in
    (String.length str =? 2)%nat && Str.forallChars Str.isHexUpper str
    && Leibniz.eqb (JS.parseInt16 str) v && Leibniz.eqb (clampChannel v) v
    && negb (isNaN v))
    (seq 0 256) = true.
Proof. vm_compute. reflexivity. Qed.

Lemma format_byte (v : float) :
  isByte v ->
  String.length (toHex v) = 2%nat /\
  Str.forallChars Str.isHexUpper (toHex v) = true /\
  JS.parseInt16 (toHex v) = v /\ clampChannel v = v /\ isNaN v = false.
Proof.
  intros (k & Hk & ->). pose proof format_byte_table as T.
  rewrite forallb_forall in T. specialize (T (Z.to_nat k)).
  rewrite Z2Nat.id in T by lia. cbv zeta in T.
  assert (I : In (Z.to_nat k) (seq 0 256)) by (apply in_seq; lia).
  specialize (T I).
  apply andb_prop in T. destruct T as [T T5].
  apply andb_prop in T. destruct T as [T T4].
  apply andb_prop in T. destruct T as [T T3].
  apply andb_prop in T. destruct T as [T1 T2].
  apply Nat.eqb_eq in T1. apply Leibniz.eqb_spec in T3, T4.
  apply negb_true_iff in T5. auto.
Qed.

(** Formatting only looks at the clamped and rounded channel. *)
Lemma toHex_clampChannel (n : float) :
  isNaN n = false -> toHex n = toHex (clampChannel n).
Proof.
  intros NN. destruct (format_byte _ (ClampFacts.clampChannel_byte n NN))
    as (_ & _ & _ & E & _).
  unfold toHex. fold (clampChannel n).
  fold (clampChannel (clampChannel n)). now rewrite E.
Qed.

Lemma toHex_digits (n : float) :
  isNaN n = false ->
  exists c1 c2,
    toHex n = String c1 (String c2 EmptyString) /\
    In c1 hexUpperChars /\ In c2 hexUpperChars /\
    JS.parseInt16 (String c1 (String c2 EmptyString)) = clampChannel n.
Proof.
  intros NN. rewrite (toHex_clampChannel n NN).
  destruct (format_byte _ (ClampFacts.clampChannel_byte n NN))
    as (L & A & P & _ & _).
  destruct (toHex (clampChannel n)) as [|c1 [|c2 [|c3 s]]];
    try discriminate L.
  cbn [Str.forallChars] in A.
  apply andb_prop in A. destruct A as [A1 A].
  apply andb_prop in A. destruct A as [A2 _].
  exists c1, c2. repeat split; auto using StrFacts.isHexUpper_In.
Qed.

Lemma toHex_nan : toHex nan = "NAN".
Proof. reflexivity. Qed.

End FormatFacts.

(** ** Round trips between hex strings and colours *)

Lemma compare_of_ltb (a c : float) :
  (a <? c)%float = true -> (a ?= c)%float = FLt /\ (c ?= a)%float = FGt.
Proof.
  rewrite ltb_spec, (FloatFacts.compare_swap a c), compare_spec.
  unfold SFltb.
  destruct (SFcompare (Prim2SF a) (Prim2SF c)) as [[| |]|];
    try discriminate. now split.
Qed.

Lemma compare_of_leb (a c : float) :
  (a <=? c)%float = true ->
  ((a ?= c)%float = FLt /\ (c ?= a)%float = FGt)
  \/ ((a ?= c)%float = FEq /\ (c ?= a)%float = FEq).
Proof.
  rewrite leb_spec, (FloatFacts.compare_swap a c), compare_spec.
  unfold SFleb.
  destruct (SFcompare (Prim2SF a) (Prim2SF c)) as [[| |]|];
    try discriminate; auto.
Qed.

Lemma byteChannel_isByte (v : float) : byteChannel v -> isByte v.
Proof.
  intros (c1 & c2 & H1 & H2 & ->). unfold JS.parseInt16.
  assert (D : forall c, In c hexUpperChars ->
            exists d, (0 <= d <= 15)%Z /\ Str.hexDigitValue c = Some d).
  { intros c Hc. simpl in Hc.
    repeat (destruct Hc as [<-|Hc];
            [eexists; split; [|reflexivity]; vm_compute; split; discriminate|]).
    contradiction. }
  destruct (D c1 H1) as (d1 & B1 & E1). destruct (D c2 H2) as (d2 & B2 & E2).
  cbn [Str.hexPrefixValue]. rewrite E1, E2.
  exists (16 * d1 + d2)%Z. split; [lia|reflexivity].
Qed.

(** X1. A parsed colour has three integer channels between 0 and 255. *)
Theorem hexToRgb_channels_are_bytes (hex : string) (rgb : RGB) :
  hexToRgb hex = OK rgb ->
  isByte (r rgb) /\ isByte (g rgb) /\ isByte (b rgb).
Proof.
  intros H. destruct (hexToRgb_inv hex rgb H) as ((Br & Bg & Bb) & _).
  auto using byteChannel_isByte.
Qed.

(** X2. Formatting a parsed colour gives the canonical form of the input:
    '#' followed by the six upper-case digits the input stands for (its
    '#' removed, letters upper-cased, shorthand digits doubled); that
    string parses to the same colour and is its own canonical form. *)
Theorem rgbToHex_of_parsed (hex : string) (rgb : RGB) :
  hexToRgb hex = OK rgb ->
  rgbToHex rgb
  = String "#" (expandShorthand (Str.toUpperCase (Str.replaceFirstHash hex)))
  /\ isCanonicalHex (rgbToHex rgb) = true
  /\ hexToRgb (rgbToHex rgb) = OK rgb
  /\ rgbToHex rgb = canonicalHex (rgbToHex rgb).
Proof.
  intros H. destruct (hexToRgb_inv hex rgb H) as (_ & E & P & C).
  rewrite E. repeat split; auto.
  symmetry. now apply canonicalHex_fixed.
Qed.

Lemma rgbToHex_parse (rgb : RGB) :
  isNaN (r rgb) = false -> isNaN (g rgb) = false -> isNaN (b rgb) = false ->
  isCanonicalHex (rgbToHex rgb) = true /\
  hexToRgb (rgbToHex rgb) = OK (clampRgb rgb).
Proof.
  intros Nr Ng Nb.
  destruct (FormatFacts.toHex_digits _ Nr) as (c1 & c2 & Er & H1 & H2 & Pr).
  destruct (FormatFacts.toHex_digits _ Ng) as (c3 & c4 & Eg & H3 & H4 & Pg).
  destruct (FormatFacts.toHex_digits _ Nb) as (c5 & c6 & Eb & H5 & H6 & Pb).
  destruct (hexToRgb_six c1 c2 c3 c4 c5 c6 H1 H2 H3 H4 H5 H6)
    as (Q1 & _ & Q3).
  cbv zeta in Q1, Q3. unfold rgbToHex. rewrite Er, Eg, Eb.
  cbn [append]. split; [exact Q3|].
  rewrite Q1. unfold clampRgb. now rewrite Pr, Pg, Pb.
Qed.

Lemma toHex_not_hex_of_nan (n : float) :
  isNaN n = true -> Str.forallChars Str.isHexUpper (toHex n) = false.
Proof.
  intros N. apply OrderFacts.isNaN_nan in N. subst n. reflexivity.
Qed.

Lemma rgbToHex_nan_rejected (rgb : RGB) :
  isNaN (r rgb) || isNaN (g rgb) || isNaN (b rgb) = true ->
  acceptsHex (rgbToHex rgb) = false.
Proof.
  intros N. unfold acceptsHex, rgbToHex.
  change ("#" ++ ?x) with (String "#" x).
  cbn [Str.replaceFirstHash Ascii.eqb Bool.eqb].
  rewrite !StrFacts.toUpperCase_append, !toHex_upper.
  unfold Str.testHexPattern. rewrite !FormatFacts.forallChars_append.
  apply orb_prop in N. destruct N as [N|N];
    [apply orb_prop in N; destruct N as [N|N]|];
    rewrite (toHex_not_hex_of_nan _ N);
    rewrite ?andb_false_r, ?andb_false_l; reflexivity.
Qed.

(** X3. [rgbToHex] clamps and rounds: when no channel is [NaN], whatever
    the channels are (fractions, negative or huge numbers, infinities),
    the output is '#' and six upper-case hex digits, and parsing it yields
    each channel clamped to [0, 255] and rounded, which is an integer
    between 0 and 255.  With a [NaN] channel the output holds NAN and
    [hexToRgb] rejects it. *)
Theorem rgbToHex_clamps (rgb : RGB) :
  if isNaN (r rgb) || isNaN (g rgb) || isNaN (b rgb) then
    hexToRgb (rgbToHex rgb)
    = Throw (Error (formatErrorMessage (rgbToHex rgb)))
  else
    isCanonicalHex (rgbToHex rgb) = true /\
    hexToRgb (rgbToHex rgb)
    = OK {| r := JS.Math_round (JS.Math_max 0 (JS.Math_min 255 (r rgb)));
            g := JS.Math_round (JS.Math_max 0 (JS.Math_min 255 (g rgb)));
            b := JS.Math_round (JS.Math_max 0 (JS.Math_min 255 (b rgb))) |} /\
    isByte (clampChannel (r rgb)) /\ isByte (clampChannel (g rgb)) /\
    isByte (clampChannel (b rgb)).
Proof.
  destruct (isNaN (r rgb) || isNaN (g rgb) || isNaN (b rgb)) eqn:N.
  - apply hexToRgb_rejects. now apply rgbToHex_nan_rejected.
  - apply orb_false_elim in N. destruct N as [N Nb].
    apply orb_false_elim in N. destruct N as [Nr Ng].
    destruct (rgbToHex_parse rgb Nr Ng Nb) as [C P].
    repeat split; auto using ClampFacts.clampChannel_byte.
Qed.

(** X4. Parsing a formatted colour gives the colour back when its channels
    are integers between 0 and 255. *)
Theorem hexToRgb_of_formatted (rgb : RGB) :
  isByte (r rgb) -> isByte (g rgb) -> isByte (b rgb) ->
  hexToRgb (rgbToHex rgb) = OK rgb.
Proof.
  intros Br Bg Bb.
  destruct (FormatFacts.format_byte _ Br) as (_ & _ & _ & Er & Nr).
  destruct (FormatFacts.format_byte _ Bg) as (_ & _ & _ & Eg & Ng).
  destruct (FormatFacts.format_byte _ Bb) as (_ & _ & _ & Eb & Nb).
  rewrite (proj2 (rgbToHex_parse rgb Nr Ng Nb)).
  unfold clampRgb. rewrite Er, Eg, Eb. now destruct rgb.
Qed.

(** X5. Out-of-range channels saturate: a channel of at most 0 (negative
    infinity included) is formatted as 00 and one of at least 255
    (infinity included) as FF; [NaN] is formatted as NAN. *)
Theorem toHex_saturates (n : float) :
  ((n <=? 0)%float = true -> toHex n = "00") /\
  ((255 <=? n)%float = true -> toHex n = "FF") /\
  (isNaN n = true -> toHex n = "NAN").
Proof.
  split; [|split].
  - intros L.
    assert (L2 : (n <? 255)%float = true).
    { apply (OrderFacts.leb_ltb_trans n 0 255 L). reflexivity. }
    destruct (compare_of_ltb _ _ L2) as [_ C1].
    unfold toHex, JS.Math_min. rewrite C1. unfold JS.Math_max.
    destruct (compare_of_leb _ _ L) as [[_ C2]|[_ C2]]; rewrite C2;
      reflexivity.
  - intros L. unfold toHex, JS.Math_min.
    destruct (compare_of_leb _ _ L) as [[C _]|[C _]]; rewrite C.
    + reflexivity.
    + destruct (FloatFacts.compare_Eq_cases _ _ C) as [<-|(sa & sb & Z & _)].
      * reflexivity.
      * discriminate Z.
  - intros N. apply OrderFacts.isNaN_nan in N. now subst n.
Qed.

(** ** Where a string is accepted *)

Lemma isHexUpper_toUpperCase (s : string) :
  Str.forallChars Str.isHexUpper (Str.toUpperCase s)
  = Str.forallChars isHexAnyCase s.
Proof. induction s as [|c s IH]; cbn; [reflexivity|]. now rewrite IH. Qed.

Lemma acceptsHex_eq (hex : string) :
  acceptsHex hex
  = ((String.length (Str.replaceFirstHash hex) =? 3)%nat
     || (String.length (Str.replaceFirstHash hex) =? 6)%nat)
    && Str.forallChars isHexAnyCase (Str.replaceFirstHash hex).
Proof.
  unfold acceptsHex, Str.testHexPattern.
  now rewrite StrFacts.length_toUpperCase, isHexUpper_toUpperCase.
Qed.

(** Removing the first '#': either there is none, or the string splits
    around it. *)
Lemma replaceFirstHash_cases (s : string) :
  Str.replaceFirstHash s = s
  \/ exists pre post, s = pre ++ String "#" post /\
                      Str.replaceFirstHash s = pre ++ post.
Proof.
  induction s as [|c s IH]; cbn; [now left|].
  destruct (Ascii.eqb c "#") eqn:C.
  - apply Ascii.eqb_eq in C. subst c. right. now exists EmptyString, s.
  - destruct IH as [->|(pre & post & E & ->)]; [now left|].
    right. exists (String c pre), post. cbn. now rewrite <- E.
Qed.

Lemma replaceFirstHash_insert (pre post : string) :
  Str.forallChars isHexAnyCase pre = true ->
  Str.replaceFirstHash (pre ++ String "#" post) = pre ++ post.
Proof.
  induction pre as [|c pre IH]; cbn; [reflexivity|].
  intros H. apply andb_prop in H. destruct H as [Hc Hp].
  now rewrite (isHexAnyCase_not_hash c Hc), IH.
Qed.

Lemma length_replaceFirstHash (s : string) :
  String.length (Str.replaceFirstHash s) = String.length s
  \/ S (String.length (Str.replaceFirstHash s)) = String.length s.
Proof.
  destruct (replaceFirstHash_cases s) as [->|(pre & post & E & ->)];
    [now left|].
  right. rewrite E, !StrFacts.length_append. cbn. lia.
Qed.

Lemma forallChars_replaceFirstHash (s : string) :
  Str.forallChars isHexAnyCase (Str.replaceFirstHash s) = true ->
  Str.forallChars isHexOrHash s = true.
Proof.
  unfold isHexOrHash.
  induction s as [|c s IH]; cbn; [reflexivity|].
  destruct (Ascii.eqb c "#") eqn:C.
  - intros H. rewrite orb_true_r. cbn.
    clear IH. induction s as [|d s IH]; cbn in *; [reflexivity|].
    apply andb_prop in H. destruct H as [-> H]. cbn. auto.
  - cbn. intros H. apply andb_prop in H. destruct H as [-> H]. cbn. auto.
Qed.

(** X6. Among the strings of ASCII characters, the ones [hexToRgb]
    accepts are exactly three or six hexadecimal digits, in either case,
    with at most one '#' put anywhere among them (in front, as documented,
    but also between two digits or at the end). *)
Theorem hexToRgb_accepts_iff (hex : string) :
  isAsciiString hex = true ->
  ((exists rgb, hexToRgb hex = OK rgb) <->
   exists pre post,
     (hex = pre ++ post \/ hex = pre ++ String "#" post) /\
     (String.length (pre ++ post) = 3%nat
      \/ String.length (pre ++ post) = 6%nat) /\
     Str.forallChars isHexAnyCase (pre ++ post) = true).
Proof.
  intros _. split.
  - intros (rgb & H). apply hexToRgb_OK_accepts in H.
    rewrite acceptsHex_eq in H. apply andb_prop in H. destruct H as [L A].
    assert (L' : String.length (Str.replaceFirstHash hex) = 3%nat
                 \/ String.length (Str.replaceFirstHash hex) = 6%nat).
    { apply orb_prop in L. destruct L as [L|L]; apply Nat.eqb_eq in L; auto. }
    destruct (replaceFirstHash_cases hex) as [E|(pre & post & E & R)].
    + exists EmptyString, hex. cbn. rewrite E in *. auto.
    + exists pre, post. rewrite R in *. auto.
  - intros (pre & post & S & L & A). apply hexToRgb_accepts.
    assert (R : Str.replaceFirstHash hex = pre ++ post).
    { destruct S as [->| ->].
      - now apply replaceFirstHash_no_hash.
      - apply replaceFirstHash_insert.
        rewrite FormatFacts.forallChars_append in A.
        now apply andb_prop in A. }
    rewrite acceptsHex_eq, R, A, andb_true_r.
    destruct L as [->| ->]; reflexivity.
Qed.

(** X7. On strings of ASCII characters, [hexToRgb] throws the format
    error, which quotes the input as it was given, for the empty string,
    for every string whose length is not 3, 4, 6 or 7, and for every string
    holding a character other than a hexadecimal digit or '#'. *)
Theorem hexToRgb_rejects_malformed (hex : string) :
  isAsciiString hex = true ->
  (String.length hex <> 3 /\ String.length hex <> 4 /\
   String.length hex <> 6 /\ String.length hex <> 7)%nat
  \/ Str.forallChars isHexOrHash hex = false ->
  hexToRgb hex
  = Throw (Error ("Invalid hex color format: " ++ hex
                  ++ ". Expected #RGB or #RRGGBB format.")).
Proof.
  intros _ H. apply hexToRgb_rejects.
  destruct (acceptsHex hex) eqn:A; [exfalso|reflexivity].
  rewrite acceptsHex_eq in A. apply andb_prop in A. destruct A as [L A].
  destruct H as [H|H].
  - pose proof (length_replaceFirstHash hex) as R.
    apply orb_prop in L. destruct L as [L|L]; apply Nat.eqb_eq in L; lia.
  - apply forallChars_replaceFirstHash in A. congruence.
Qed.

(** ** Errors, symmetry and the result of snapping *)

Section ResultProperties.

Variable pow : float -> float -> float.

Lemma passesContrast_throws (fgHex bgHex : string) (opts : ContrastOptions) :
  acceptsHex fgHex && acceptsHex bgHex = false ->
  passesContrast pow fgHex bgHex opts
  = Throw (Error (formatErrorMessage
                    (if acceptsHex fgHex then bgHex else fgHex))).
Proof.
  intros A. unfold passesContrast, contrastRatio, relativeLuminance.
  destruct (acceptsHex fgHex) eqn:Af.
  - destruct (hexToRgb_accepts _ Af) as (cf & Hf).
    cbn [andb] in A. apply hexToRgb_rejects in A. now rewrite Hf, A.
  - apply hexToRgb_rejects in Af. now rewrite Af.
Qed.

(** X8. Errors come from parsing only, foreground first: an invalid
    foreground makes [contrastRatio], [passesContrast] and
    [snapToPassingColor] throw the format error quoting the foreground,
    whatever the background is; a valid foreground with an invalid
    background makes them throw the error quoting the background; with
    two valid inputs [contrastRatio] and [passesContrast] return. *)
Theorem contrast_errors (fgHex bgHex : string) (copts : ContrastOptions)
    (sopts : SnapOptions) :
  (acceptsHex fgHex = false ->
   let e := Error (formatErrorMessage fgHex) in
   contrastRatio pow fgHex bgHex = Throw e /\
   passesContrast pow fgHex bgHex copts = Throw e /\
   snapToPassingColor pow fgHex bgHex sopts = Throw e) /\
  (acceptsHex fgHex = true -> acceptsHex bgHex = false ->
   let e := Error (formatErrorMessage bgHex) in
   contrastRatio pow fgHex bgHex = Throw e /\
   passesContrast pow fgHex bgHex copts = Throw e /\
   snapToPassingColor pow fgHex bgHex sopts = Throw e) /\
  (acceptsHex fgHex = true -> acceptsHex bgHex = true ->
   exists rho passes,
     contrastRatio pow fgHex bgHex = OK rho /\
     passesContrast pow fgHex bgHex copts = OK passes).
Proof.
  split; [|split].
  - intros A. apply hexToRgb_rejects in A.
    unfold passesContrast, contrastRatio, relativeLuminance,
      snapToPassingColor. now rewrite A.
  - intros Af Ab. destruct (hexToRgb_accepts _ Af) as (cf & Hf).
    apply hexToRgb_rejects in Ab.
    unfold passesContrast, contrastRatio, relativeLuminance,
      snapToPassingColor. now rewrite Hf, Ab.
  - intros Af Ab. destruct (hexToRgb_accepts _ Af) as (cf & Hf).
    destruct (hexToRgb_accepts _ Ab) as (cb & Hb).
    eexists. eexists. unfold passesContrast.
    rewrite (contrastRatio_intro _ _ _ _ _ Hf Hb). split; reflexivity.
Qed.

(** X9. Unless both inputs are invalid, [contrastRatio] and
    [passesContrast] do not depend on which colour is given as the
    foreground: they return the same value, or throw the same error. *)
Theorem contrast_symmetric (a c : string) (opts : ContrastOptions) :
  acceptsHex a = true \/ acceptsHex c = true ->
  contrastRatio pow a c = contrastRatio pow c a /\
  passesContrast pow a c opts = passesContrast pow c a opts.
Proof.
  intros H.
  assert (E : contrastRatio pow a c = contrastRatio pow c a).
  { destruct (acceptsHex a) eqn:Aa, (acceptsHex c) eqn:Ac.
    - destruct (hexToRgb_accepts _ Aa) as (ca & Ea).
      destruct (hexToRgb_accepts _ Ac) as (cc & Ec).
      rewrite (contrastRatio_intro _ _ _ _ _ Ea Ec),
              (contrastRatio_intro _ _ _ _ _ Ec Ea).
      f_equal. apply luminanceRatio_comm.
    - destruct (hexToRgb_accepts _ Aa) as (ca & Ea).
      apply hexToRgb_rejects in Ac.
      unfold contrastRatio, relativeLuminance. now rewrite Ea, Ac.
    - destruct (hexToRgb_accepts _ Ac) as (cc & Ec).
      apply hexToRgb_rejects in Aa.
      unfold contrastRatio, relativeLuminance. now rewrite Ec, Aa.
    - destruct H; discriminate. }
  split; [exact E|]. unfold passesContrast. now rewrite E.
Qed.

(** X10. Two accepted strings that denote the same colour have ratio
    exactly 1 and pass under no options.  (The luminance of the colour is
    assumed to be a number: with 0.05 added it is finite and not zero.) *)
Theorem same_colour_never_passes (a c : string) (rgb : RGB)
    (opts : ContrastOptions) :
  hexToRgb a = OK rgb -> hexToRgb c = OK rgb ->
  JS.isFiniteNonZero (relativeLuminanceRgb pow rgb + 0.05)%float = true ->
  contrastRatio pow a c = OK 1%float /\
  passesContrast pow a c opts = OK false.
Proof.
  intros Ha Hc Fin.
  assert (R : contrastRatio pow a c = OK 1%float).
  { rewrite (contrastRatio_intro _ _ _ _ _ Ha Hc).
    now rewrite luminanceRatio_self. }
  split; [exact R|]. unfold passesContrast. rewrite R. cbn [bind].
  now rewrite (threshold_above_one opts).
Qed.

Lemma threshold_le_normal (opts : ContrastOptions) :
  ((requiredThreshold opts - EPSILON)
   <=? (requiredThreshold noContrastOptions - EPSILON))%float = true.
Proof. unfold requiredThreshold. now destruct (_ || _). Qed.

(** X11. The thresholds are nested: a pair that passes as normal text
    (no flag set) passes under every options. *)
Theorem passes_normal_passes_all (fgHex bgHex : string)
    (opts : ContrastOptions) :
  passesContrast pow fgHex bgHex noContrastOptions = OK true ->
  passesContrast pow fgHex bgHex opts = OK true.
Proof.
  unfold passesContrast. intros H.
  apply bind_OK_inv in H. destruct H as (rho & R & H).
  injection H as H. rewrite R. cbn [bind]. f_equal.
  unfold JS.geb in *.
  exact (OrderFacts.leb_trans _ _ _ (threshold_le_normal opts) H).
Qed.

(** *** The three exits of [snapToPassingColor], with their conditions *)

Lemma chooseCandidate_clamped (opts : SnapOptions) (threshold : float)
    (fgHsl bgHsl : HSL) (cs : list Candidate) (best : option Candidate) :
  chooseCandidate opts threshold fgHsl bgHsl cs = (best, true) ->
  best = bestAchievable cs /\
  forall c, In c cs -> meetsThreshold threshold c = false.
Proof.
  unfold chooseCandidate.
  destruct (filter (meetsThreshold threshold) cs) as [|x xs] eqn:F;
    cbn [List.length Nat.ltb Nat.leb]; [|discriminate].
  intros E. injection E as <-. split; [reflexivity|].
  intros c Hc. destruct (meetsThreshold threshold c) eqn:M; [|reflexivity].
  assert (I : In c (filter (meetsThreshold threshold) cs))
    by (apply filter_In; now split).
  rewrite F in I. contradiction.
Qed.

Lemma candidate_ratio (fgRgb bgRgb : RGB) (threshold : float)
    (cs : list Candidate) (best : option Candidate) (isClamped : bool)
    (res : SnapResult) :
  searchCandidates pow fgRgb bgRgb threshold = OK cs ->
  (forall c, best = Some c -> In c cs) ->
  applyCandidate pow fgRgb bgRgb best isClamped = OK res ->
  exists c, best = Some c /\ ratio res = c_ratio c /\
            iterations res = Some (c_iterations c) /\
            clamped res = Some isClamped /\ adjusted res <> None /\
            contrastRatio pow (fg res) (bg res) = OK (ratio res).
Proof.
  intros Hc Hin Ap.
  destruct (applyCandidate_inv _ _ _ _ _ _ Ap)
    as (c & -> & Hfin & -> & -> & Hcl & Hadj & Hit).
  pose proof (searchCandidates_inv _ _ _ _ _ Hc c (Hin c eq_refl)) as Hm.
  exists c. split; [reflexivity|].
  split; [|rewrite Hadj; repeat split; auto; discriminate].
  destruct (startsWithFg (c_path c)).
  - rewrite Hm in Hfin. now injection Hfin.
  - apply contrastRatio_sym in Hm. rewrite Hm in Hfin. now injection Hfin.
Qed.

(** What every result satisfies: its ratio is the measured ratio of the
    returned pair, which meets the threshold (up to the epsilon) exactly
    when the result is not marked as clamped. *)
Lemma snap_result (fgHex bgHex : string) (opts : SnapOptions)
    (res : SnapResult) :
  snapToPassingColor pow fgHex bgHex opts = OK res ->
  contrastRatio pow (fg res) (bg res) = OK (ratio res) /\
  JS.geb (ratio res) (requiredThreshold opts - EPSILON)
  = negb (truthy (clamped res)) /\
  isCanonicalHex (fg res) = true /\ isCanonicalHex (bg res) = true.
Proof.
  intros H.
  assert (Canon : forall x y q,
            contrastRatio pow x y = OK q ->
            acceptsHex x = true /\ acceptsHex y = true).
  { intros x y q Q.
    destruct (contrastRatio_inv _ _ _ _ Q) as (cx & cy & Hx & Hy & _).
    split; eapply hexToRgb_OK_accepts; eauto. }
  unfold snapToPassingColor in H.
  apply bind_OK_inv in H. destruct H as (fgRgb & Hf & H).
  apply bind_OK_inv in H. destruct H as (bgRgb & Hb & H).
  apply bind_OK_inv in H. destruct H as (rho & Hr & H).
  destruct (Canon _ _ _ Hr) as [Cf Cb].
  apply rgbToHex_accepted_canonical in Cf, Cb.
  destruct (JS.geb rho _) eqn:P.
  - injection H as <-. cbn. auto.
  - destruct (_ && _).
    + injection H as <-. cbn. auto.
    + apply bind_OK_inv in H. destruct H as (cs & Hc & H).
      destruct (chooseCandidate _ _ _ _ cs) as [best isClamped] eqn:C.
      assert (Hin : forall c, best = Some c -> In c cs).
      { intros c ->.
        exact (proj1 (chooseCandidate_Some _ _ _ _ _ _ _ C)). }
      destruct (candidate_ratio _ _ _ _ _ _ _ Hc Hin H)
        as (c & -> & Er & _ & Hcl & _ & Hm).
      split; [exact Hm|].
      destruct (Canon _ _ _ Hm) as [Cf' Cb'].
      pose proof H as Ap.
      destruct (applyCandidate_inv _ _ _ _ _ _ Ap)
        as (c' & _ & _ & Efg & Ebg & _).
      rewrite Efg in Cf'. rewrite Ebg in Cb'.
      apply rgbToHex_accepted_canonical in Cf', Cb'.
      rewrite <- Efg in Cf'. rewrite <- Ebg in Cb'.
      split; [|now split].
      rewrite Hcl, Er. cbn [truthy]. destruct isClamped; cbn [negb].
      * destruct (chooseCandidate_clamped _ _ _ _ _ _ C) as [_ F].
        exact (F c (Hin c eq_refl)).
      * exact (proj2 (chooseCandidate_Some _ _ _ _ _ _ _ C) eq_refl).
Qed.

(** X12. The ratio a result reports is the contrast ratio of the pair it
    returns, as [contrastRatio] computes it. *)
Theorem snap_reports_measured_ratio (fgHex bgHex : string)
    (opts : SnapOptions) (res : SnapResult) :
  snapToPassingColor pow fgHex bgHex opts = OK res ->
  contrastRatio pow (fg res) (bg res) = OK (ratio res).
Proof. intros H. exact (proj1 (snap_result _ _ _ _ H)). Qed.

(** X13. A result marked as clamped does not pass: [passesContrast] is
    false on the returned pair under the same options. *)
Theorem snap_clamped_fails (fgHex bgHex : string) (opts : SnapOptions)
    (res : SnapResult) :
  snapToPassingColor pow fgHex bgHex opts = OK res ->
  clamped res = Some true ->
  passesContrast pow (fg res) (bg res) opts = OK false.
Proof.
  intros H C. destruct (snap_result _ _ _ _ H) as (M & G & _).
  unfold passesContrast. rewrite M. cbn [bind]. rewrite G, C. reflexivity.
Qed.

(** X14. Snapping is idempotent on what it fixed: given the pair of a
    result that is not marked as clamped, [snapToPassingColor] returns
    that pair with the same ratio and changes nothing. *)
Theorem snap_idempotent (fgHex bgHex : string) (opts : SnapOptions)
    (res : SnapResult) :
  snapToPassingColor pow fgHex bgHex opts = OK res ->
  clamped res <> Some true ->
  snapToPassingColor pow (fg res) (bg res) opts
  = OK {| fg := fg res; bg := bg res; ratio := ratio res;
          clamped := None; adjusted := None; iterations := None |}.
Proof.
  intros H NC. destruct (snap_result _ _ _ _ H) as (M & G & Cf & Cb).
  assert (P : JS.geb (ratio res) (requiredThreshold opts - EPSILON) = true).
  { rewrite G. destruct (clamped res) as [[|]|]; try reflexivity.
    now elim NC. }
  rewrite (proj1 (snap_early_return _ _ _ opts _ M) P).
  now rewrite (canonicalHex_fixed _ Cf), (canonicalHex_fixed _ Cb).
Qed.

End ResultProperties.

(** ** The searches *)

Section SearchBounds.

Variable pow : float -> float -> float.

Lemma searchStep_count (hsl : HSL) (otherRgb : RGB) (threshold : float)
    (isForeground isLightening : bool) (st st' : SearchState) :
  searchStep pow hsl otherRgb threshold isForeground isLightening st = OK st' ->
  iterationCount st' = S (iterationCount st).
Proof.
  unfold searchStep. intros H.
  apply bind_OK_inv in H. destruct H as (rho & _ & H).
  destruct (JS.geb rho threshold), isLightening; now injection H as <-.
Qed.

Lemma searchLoop_count (hsl : HSL) (otherRgb : RGB) (threshold : float)
    (isForeground isLightening : bool) (n : nat) :
  forall st st',
    searchLoop pow hsl otherRgb threshold isForeground isLightening n st
    = OK st' ->
    (iterationCount st' <= iterationCount st + n)%nat /\
    ((0 < n)%nat -> (iterationCount st < iterationCount st')%nat) /\
    ((iterationCount st' < iterationCount st + n)%nat ->
     (JS.Math_abs (maxL st' - minL st') <? 0.1)%float = true).
Proof.
  induction n as [|n IH]; intros st st' H; cbn in H.
  - injection H as <-. repeat split; lia.
  - apply bind_OK_inv in H. destruct H as (st1 & H1 & H).
    apply searchStep_count in H1.
    destruct (_ <? _)%float eqn:W.
    + injection H as <-. repeat split; auto; lia.
    + destruct (IH _ _ H) as (U & L & X). split; [lia|]. split.
      * intros _. destruct n; [cbn in H; injection H as <-|]; lia.
      * intros Lt. apply X. lia.
Qed.

Lemma searchInit_count (hsl : HSL) (otherRgb : RGB) (isLightening : bool)
    (st0 : SearchState) :
  searchInit pow hsl otherRgb isLightening = OK st0 ->
  iterationCount st0 = 0%nat.
Proof.
  unfold searchInit. intros H0.
  apply bind_OK_inv in H0. destruct H0 as (q & _ & H0).
  now injection H0 as <-.
Qed.

(** X15. A search makes at least one pass and at most [maxIterations]
    passes (none when [maxIterations] is 0) and reports their number; it
    stops before the last pass only when the interval between the two
    lightness bounds has become narrower than 0.1. *)
Theorem binarySearchLightness_iterations (hsl : HSL) (otherRgb : RGB)
    (threshold : float) (isForeground isLightening : bool)
    (maxIterations : nat) (sr : SearchResult) :
  binarySearchLightness pow hsl otherRgb threshold isForeground isLightening
    maxIterations = OK sr ->
  (sr_iterations sr <= maxIterations)%nat /\
  ((0 < maxIterations)%nat -> (1 <= sr_iterations sr)%nat) /\
  exists st0 st,
    searchInit pow hsl otherRgb isLightening = OK st0 /\
    searchLoop pow hsl otherRgb threshold isForeground isLightening
      maxIterations st0 = OK st /\
    sr = mkSearchResult (bestRgb st) (bestRatio st) (iterationCount st) /\
    ((sr_iterations sr < maxIterations)%nat ->
     (JS.Math_abs (maxL st - minL st) <? 0.1)%float = true).
Proof.
  unfold binarySearchLightness. intros H.
  apply bind_OK_inv in H. destruct H as (st0 & H0 & H).
  apply bind_OK_inv in H. destruct H as (st & H1 & H).
  injection H as <-. cbn [sr_iterations].
  pose proof (searchInit_count _ _ _ _ H0) as E0.
  destruct (searchLoop_count _ _ _ _ _ _ _ _ H1) as (U & L & X).
  rewrite E0 in *. split; [lia|]. split; [intros P; specialize (L P); lia|].
  exists st0, st. repeat split; auto.
Qed.

Lemma searchCandidates_iterations (fgRgb bgRgb : RGB) (threshold : float)
    (cs : list Candidate) :
  searchCandidates pow fgRgb bgRgb threshold = OK cs ->
  forall c, In c cs -> (1 <= c_iterations c <= 7)%nat.
Proof.
  unfold searchCandidates. intros H.
  apply bind_OK_inv in H. destruct H as (a & Ha & H).
  apply bind_OK_inv in H. destruct H as (b & Hb & H).
  apply bind_OK_inv in H. destruct H as (c & Hc & H).
  apply bind_OK_inv in H. destruct H as (d & Hd & H).
  injection H as <-.
  assert (B : forall hsl other isFg isL sr,
            binarySearchLightness pow hsl other threshold isFg isL
              defaultMaxIterations = OK sr ->
            (1 <= sr_iterations sr <= 7)%nat).
  { intros hsl other isFg isL sr S. unfold binarySearchLightness in S.
    apply bind_OK_inv in S. destruct S as (st0 & S0 & S).
    apply bind_OK_inv in S. destruct S as (st & S1 & S).
    injection S as <-. cbn [sr_iterations].
    pose proof (searchInit_count _ _ _ _ S0) as E0.
    destruct (searchLoop_count _ _ _ _ _ _ _ _ S1) as (U & L & _).
    unfold defaultMaxIterations in *. rewrite E0 in *.
    specialize (L ltac:(lia)). lia. }
  apply B in Ha, Hb, Hc, Hd.
  intros x [<-|[<-|[<-|[<-|[]]]]]; cbn; lia.
Qed.

(** X16. A result names a number of iterations exactly when it names an
    adjusted side, and that number lies between 1 and 7. *)
Theorem snap_iterations_bounds (fgHex bgHex : string) (opts : SnapOptions)
    (res : SnapResult) :
  snapToPassingColor pow fgHex bgHex opts = OK res ->
  (iterations res = None <-> adjusted res = None) /\
  forall k, iterations res = Some k -> (1 <= k <= 7)%nat.
Proof.
  intros H.
  destruct (snap_inv _ _ _ _ _ H)
    as (fgRgb & bgRgb & rho & Hf & Hb & Hr &
        [[-> P]|[->|(cs & best & isClamped & Hc & Ch & Ap)]]).
  - cbn. split; [tauto|discriminate].
  - cbn. split; [tauto|discriminate].
  - assert (Hin : forall c, best = Some c -> In c cs).
    { intros c ->.
      exact (proj1 (chooseCandidate_Some _ _ _ _ _ _ _ Ch)). }
    destruct (candidate_ratio _ _ _ _ _ _ _ _ Hc Hin Ap)
      as (c & -> & _ & Hit & _ & Hadj & _).
    split.
    + rewrite Hit. split; [discriminate|]. intros E. now elim Hadj.
    + intros k E. rewrite Hit in E. injection E as <-.
      exact (searchCandidates_iterations _ _ _ _ Hc c (Hin c eq_refl)).
Qed.

End SearchBounds.

(** ** Preferences *)

Lemma breakTie_prefers (o1 o2 : SnapOptions)
    (zone : list CandidateWithChange) :
  prefersBackground o1 = prefersBackground o2 ->
  breakTie o1 zone = breakTie o2 zone.
Proof.
  unfold breakTie, prefersBackground.
  destruct (truthy (preferForegroundAdjust o1)),
           (truthy (preferBackgroundAdjust o1)),
           (truthy (preferForegroundAdjust o2)),
           (truthy (preferBackgroundAdjust o2));
    cbn; try discriminate; reflexivity.
Qed.

(** X17. The options reach the result through two values only: the
    threshold, and whether [preferBackgroundAdjust] is set without
    [preferForegroundAdjust].  In particular [lockHue] and [lockChroma]
    change nothing, and neither does [preferForegroundAdjust] unless it
    cancels [preferBackgroundAdjust]. *)
Theorem snap_depends_on_two_choices (pow : float -> float -> float)
    (fgHex bgHex : string) (o1 o2 : SnapOptions) :
  (truthy (isLargeText o1) || truthy (uiComponent o1))
  = (truthy (isLargeText o2) || truthy (uiComponent o2)) ->
  (truthy (preferBackgroundAdjust o1)
   && negb (truthy (preferForegroundAdjust o1)))
  = (truthy (preferBackgroundAdjust o2)
     && negb (truthy (preferForegroundAdjust o2))) ->
  snapToPassingColor pow fgHex bgHex o1 = snapToPassingColor pow fgHex bgHex o2.
Proof.
  intros T P.
  assert (ET : requiredThreshold o1 = requiredThreshold o2).
  { unfold requiredThreshold. now rewrite T. }
  unfold snapToPassingColor. rewrite ET.
  destruct (hexToRgb fgHex) as [fgRgb|]; [|reflexivity].
  destruct (hexToRgb bgHex) as [bgRgb|]; [|reflexivity].
  cbn [bind].
  destruct (contrastRatio pow _ _) as [rho|]; [|reflexivity].
  cbn [bind].
  destruct (JS.geb rho _); [reflexivity|].
  destruct (JS.strictEq rho 1 && JS.gtb (requiredThreshold o2) 1);
    [reflexivity|].
  destruct (searchCandidates pow _ _ _) as [cs|]; [|reflexivity].
  cbn [bind]. unfold chooseCandidate.
  now rewrite (breakTie_prefers o1 o2 _ P).
Qed.

(** ** The best-effort choice *)


Lemma fold_best (xs : list Candidate) :
  forall acc,
    isNaN (c_ratio acc) = false ->
    Forall (fun c => isNaN (c_ratio c) = false) xs ->
    let best := fold_left
                  (fun best current : Candidate =>
                     if JS.gtb (c_ratio current) (c_ratio best)
                     then current else best) xs acc in
    (best = acc /\ Forall (ratioAtLeast acc) xs)
    \/ exists before after,
         xs = (before ++ best :: after)%list /\ ratioAbove best acc /\
         Forall (ratioAbove best) before /\ Forall (ratioAtLeast best) after.
Proof.
  unfold ratioAtLeast, ratioAbove, JS.geb, JS.gtb.
  induction xs as [|x xs IH]; intros acc Na Nx; cbn [fold_left].
  - left. split; [reflexivity|constructor].
  - inversion Nx as [|x' xs' Nx0 Nxs]; subst.
    destruct (c_ratio acc <? c_ratio x)%float eqn:G.
    + destruct (IH x Nx0 Nxs)
        as [[E F]|(before & after & E & A & B & C)].
      * right. exists [], xs. cbn [app]. rewrite E. repeat split; auto.
      * right. exists (x :: before), after. cbn [app].
        split; [now rewrite <- E|].
        split; [exact (BestFacts.ltb_trans _ _ _ G A)|].
        split; [constructor; assumption|assumption].
    + destruct (IH acc Na Nxs)
        as [[E F]|(before & after & E & A & B & C)].
      * left. split; [exact E|]. constructor; [|exact F].
        now apply OrderFacts.leb_total.
      * right. exists (x :: before), after. cbn [app].
        split; [now rewrite <- E|].
        split; [exact A|].
        split; [|assumption]. constructor; [|assumption].
        apply (OrderFacts.leb_ltb_trans _ (c_ratio acc)); [|exact A].
        now apply OrderFacts.leb_total.
Qed.

(** X18. When no candidate meets the threshold, the candidate kept as the
    best effort has the highest ratio of the four, and of several with
    that ratio it is the first in the order of the array: every candidate
    in front of it has a lower ratio, none behind it has a higher one.
    (The ratios are assumed to be numbers.) *)
Theorem best_effort_is_first_maximum (opts : SnapOptions) (threshold : float)
    (fgHsl bgHsl : HSL) (candidates : list Candidate) (best : Candidate) :
  Forall (fun c => isNaN (c_ratio c) = false) candidates ->
  chooseCandidate opts threshold fgHsl bgHsl candidates = (Some best, true) ->
  Forall (fun c => meetsThreshold threshold c = false) candidates /\
  exists before after,
    candidates = (before ++ best :: after)%list /\
    Forall (ratioAbove best) before /\ Forall (ratioAtLeast best) after.
Proof.
  intros N H.
  destruct (chooseCandidate_clamped _ _ _ _ _ _ H) as [E F].
  split; [now apply Forall_forall|].
  destruct candidates as [|first rest]; [discriminate E|].
  cbn [bestAchievable] in E. injection E as E.
  inversion N as [|x xs N0 Ns]; subst x xs.
  pose proof (fold_best rest first N0 Ns) as B. cbv zeta in B.
  rewrite <- E in B.
  destruct B as [[-> G]|(before & after & -> & A & B & C)].
  - exists [], rest. cbn [app]. repeat split; auto.
  - exists (first :: before), after. cbn [app]. repeat split; auto.
Qed.

(** ** Grays *)

Module GrayFacts.
Local Open Scope float_scope.

(** A finite number minus itself is +0. *)
Lemma sub_self (x : float) : isFinite x = true -> x - x = 0.
Proof.
  unfold isFinite. intros F. apply Prim2SF_inj. rewrite sub_spec.
  destruct (Prim2SF x) as [sg|sg| |sg m e]; try discriminate F.
  - now destruct sg.
  - unfold SF64sub, SFsub. now rewrite Z.sub_diag.
Qed.

Lemma hslToRgb_gray (h0 l0 : float) :
  isGray (hslToRgb {| h := h0; s := 0; l := l0 |}).
Proof. unfold hslToRgb, isGray. cbn. split; reflexivity. Qed.

Lemma rgbToHsl_gray (v : float) :
  isFinite (v / 255) = true ->
  rgbToHsl {| r := v; g := v; b := v |}
  = {| h := 0; s := 0; l := (v / 255 + v / 255) / 2 * 100 |}.
Proof.
  intros F. unfold rgbToHsl. cbn [r g b]. unfold JS.Math_max3, JS.Math_min3.
  rewrite !FloatFacts.Math_max_self, !FloatFacts.Math_min_self.
  rewrite (sub_self _ F). reflexivity.
Qed.

End GrayFacts.

Section GraySearch.

Variable pow : float -> float -> float.

Lemma searchStep_gray (otherRgb : RGB) (threshold h0 l0 : float)
    (isForeground isLightening : bool) (st st' : SearchState) :
  isGray (bestRgb st) ->
  searchStep pow {| h := h0; s := 0; l := l0 |} otherRgb threshold
    isForeground isLightening st = OK st' ->
  isGray (bestRgb st').
Proof.
  unfold searchStep. intros I H.
  apply bind_OK_inv in H. destruct H as (rho & _ & H).
  cbn [h s l] in H.
  destruct (JS.geb rho threshold), isLightening;
    injection H as <-; cbn [bestRgb]; auto using GrayFacts.hslToRgb_gray.
Qed.

Lemma searchLoop_gray (otherRgb : RGB) (threshold h0 l0 : float)
    (isForeground isLightening : bool) (n : nat) :
  forall st st',
    isGray (bestRgb st) ->
    searchLoop pow {| h := h0; s := 0; l := l0 |} otherRgb threshold
      isForeground isLightening n st = OK st' ->
    isGray (bestRgb st').
Proof.
  induction n as [|n IH]; intros st st' I H; cbn [searchLoop] in H.
  - now injection H as <-.
  - apply bind_OK_inv in H. destruct H as (st1 & H1 & H).
    pose proof (searchStep_gray _ _ _ _ _ _ _ _ I H1) as I1.
    destruct (_ <? _)%float.
    + now injection H as <-.
    + eapply IH; eauto.
Qed.

(** X19. Searches keep a gray gray: a colour with three equal (finite)
    channels has hue 0 and saturation 0, every colour a search from it
    tests has three equal channels, and so has the colour it returns,
    whatever the other colour, the threshold and the direction are. *)
Theorem search_from_gray_returns_gray (v : float) (otherRgb : RGB)
    (threshold : float) (isForeground isLightening : bool)
    (maxIterations : nat) (sr : SearchResult) :
  isFinite (v / 255) = true ->
  let gray := {| r := v; g := v; b := v |} in
  binarySearchLightness pow (rgbToHsl gray) otherRgb threshold
    isForeground isLightening maxIterations = OK sr ->
  h (rgbToHsl gray) = 0%float /\ s (rgbToHsl gray) = 0%float /\
  (forall st, isGray (midpointRgb (rgbToHsl gray) st)) /\
  isGray (sr_rgb sr).
Proof.
  intros F gray H. unfold gray in *.
  rewrite (GrayFacts.rgbToHsl_gray v F) in *. cbn [h s].
  split; [reflexivity|]. split; [reflexivity|].
  split; [intros st; apply GrayFacts.hslToRgb_gray|].
  unfold binarySearchLightness in H.
  apply bind_OK_inv in H. destruct H as (st0 & H0 & H).
  apply bind_OK_inv in H. destruct H as (st & H1 & H).
  injection H as <-. cbn [sr_rgb].
  eapply searchLoop_gray; [|exact H1].
  unfold searchInit in H0.
  apply bind_OK_inv in H0. destruct H0 as (q & _ & H0).
  injection H0 as <-. cbn [bestRgb]. apply GrayFacts.hslToRgb_gray.
Qed.

End GraySearch.

(** ** Large text *)

Lemma ltb_not_NaN (a c : float) :
  (a <? c)%float = true -> isNaN a = false /\ isNaN c = false.
Proof.
  intros H. apply OrderFacts.leb_not_NaN. now apply BestFacts.ltb_leb.
Qed.

(** X20. The two large-text helpers agree except in two cases, in both of
    which [isLargeTextFromCSS] (the one the theme guard calls) says large
    and [isLargeTextPerWCAG] does not: bold text (weight at least 600) of
    a size from 18.66 px up to, but not including, 19 px; and a weight
    that is [NaN] with a size of at least 24 px. *)
Theorem large_text_helpers_differ (fontSize : float)
    (fontWeight : option float) :
  let weight := withDefault 400 fontWeight in
  let boldBetween :=
    JS.geb weight 600 && JS.geb fontSize 18.66
    && negb (JS.geb fontSize 19) in
  let weightless := isNaN weight && JS.geb fontSize 24 in
  isLargeTextFromCSS fontSize fontWeight
  = isLargeTextPerWCAG fontSize fontWeight || boldBetween || weightless
  /\ (boldBetween || weightless = true ->
      isLargeTextPerWCAG fontSize fontWeight = false).
Proof.
  cbv zeta. unfold isLargeTextFromCSS, isLargeTextPerWCAG.
  set (w := withDefault 400 fontWeight).
  assert (T : JS.geb fontSize 19 = true -> JS.geb fontSize 18.66 = true).
  { intros S19. apply (OrderFacts.geb_trans fontSize 19 18.66 S19).
    reflexivity. }
  assert (N1 : isNaN w = true -> JS.geb w 600 = false).
  { intros N. destruct (JS.geb w 600) eqn:B; [|reflexivity].
    rewrite (proj2 (OrderFacts.leb_not_NaN _ _ B)) in N. discriminate. }
  assert (N2 : isNaN w = true -> (w <? 600)%float = false).
  { intros N. destruct (w <? 600)%float eqn:B; [|reflexivity].
    rewrite (proj1 (ltb_not_NaN _ _ B)) in N. discriminate. }
  split.
  - destruct (JS.geb w 600) eqn:B.
    + rewrite (OrderFacts.geb_not_ltb _ _ B).
      rewrite (proj2 (OrderFacts.leb_not_NaN _ _ B)).
      destruct (JS.geb fontSize 24), (JS.geb fontSize 19),
               (JS.geb fontSize 18.66); try reflexivity;
        now specialize (T eq_refl).
    + destruct (JS.geb fontSize 24) eqn:S24;
        [|now destruct (JS.geb fontSize 19), (w <? 600)%float, (isNaN w)].
      destruct (w <? 600)%float eqn:L; [reflexivity|].
      destruct (isNaN w) eqn:N;
        [now destruct (JS.geb fontSize 19)|].
      assert (G : (600 <=? w)%float = true).
      { apply OrderFacts.leb_total; [exact N|reflexivity|exact L]. }
      unfold JS.geb in B. congruence.
  - intros H. apply orb_prop in H. destruct H as [H|H].
    + apply andb_prop in H. destruct H as [H S19].
      apply andb_prop in H. destruct H as [B _].
      apply negb_true_iff in S19.
      rewrite (OrderFacts.geb_not_ltb _ _ B), S19.
      now rewrite andb_false_r.
    + apply andb_prop in H. destruct H as [N _].
      rewrite (N1 N), (N2 N). now rewrite !andb_false_r.
Qed.

(** ** The range of the contrast ratio *)

Module LumFacts.
Import MonoFacts.
Local Open Scope float_scope.

Lemma isCorrected_nice (c : float) : isCorrected c -> isNice c.
Proof. now apply zeroOrWithin_nice. Qed.

Lemma isCorrected_le_one (c : float) : isCorrected c -> (c <=? 1) = true.
Proof. intros [->|[_ U]]; [reflexivity|exact U]. Qed.

Lemma isCorrected_zero : isCorrected 0.
Proof. now left. Qed.

Lemma isCorrected_const (c : float) :
  (0.0003 <=? c) = true -> (c <=? 1) = true -> isCorrected c.
Proof. intros L U. right. now split. Qed.

(** The terms and the partial sums of the weighted sum are zero or in
    range. *)
Lemma weightedSum_nice (R G B : float) :
  isCorrected R -> isCorrected G -> isCorrected B ->
  isNice (0.2126 * R) /\ isNice (0.7152 * G) /\ isNice (0.0722 * B) /\
  isNice (0.2126 * R + 0.7152 * G) /\ isNice (weightedSum R G B).
Proof.
  intros HR HG HB.
  pose proof (zeroOrWithin_mul 0.2126 0.0003 1 R eq_refl eq_refl eq_refl HR)
    as TR.
  pose proof (zeroOrWithin_mul 0.7152 0.0003 1 G eq_refl eq_refl eq_refl HG)
    as TG.
  pose proof (zeroOrWithin_mul 0.0722 0.0003 1 B eq_refl eq_refl eq_refl HB)
    as TB.
  pose proof (zeroOrWithin_add (0.2126 * 0.0003) (0.2126 * 1)
                (0.7152 * 0.0003) (0.7152 * 1) 0x1p-20 2 _ _
                eq_refl eq_refl eq_refl eq_refl TR TG
                eq_refl eq_refl eq_refl eq_refl eq_refl eq_refl) as S.
  pose proof (zeroOrWithin_add 0x1p-20 2 (0.0722 * 0.0003) (0.0722 * 1)
                0x1p-20 3 _ _
                eq_refl eq_refl eq_refl eq_refl S TB
                eq_refl eq_refl eq_refl eq_refl eq_refl eq_refl) as L.
  repeat split.
  - exact (zeroOrWithin_nice (0.2126 * 0.0003) (0.2126 * 1) _
             eq_refl eq_refl TR).
  - exact (zeroOrWithin_nice (0.7152 * 0.0003) (0.7152 * 1) _
             eq_refl eq_refl TG).
  - exact (zeroOrWithin_nice (0.0722 * 0.0003) (0.0722 * 1) _
             eq_refl eq_refl TB).
  - exact (zeroOrWithin_nice 0x1p-20 2 _ eq_refl eq_refl S).
  - exact (zeroOrWithin_nice 0x1p-20 3 _ eq_refl eq_refl L).
Qed.

(** The luminance grows with each corrected channel. *)
Lemma weightedSum_mono (R G B R' G' B' : float) :
  isCorrected R -> isCorrected G -> isCorrected B ->
  isCorrected R' -> isCorrected G' -> isCorrected B' ->
  (R <=? R') = true -> (G <=? G') = true -> (B <=? B') = true ->
  (weightedSum R G B <=? weightedSum R' G' B') = true /\
  (weightedSum R G B + 0.05 <=? weightedSum R' G' B' + 0.05) = true.
Proof.
  intros HR HG HB HR' HG' HB' LR LG LB.
  destruct (weightedSum_nice R G B HR HG HB) as (N1 & N2 & N3 & N4 & N5).
  destruct (weightedSum_nice R' G' B' HR' HG' HB')
    as (N1' & N2' & N3' & N4' & N5').
  assert (T1 : (0.2126 * R <=? 0.2126 * R') = true)
    by (apply mul_nice_mono; auto using isCorrected_nice).
  assert (T2 : (0.7152 * G <=? 0.7152 * G') = true)
    by (apply mul_nice_mono; auto using isCorrected_nice).
  assert (T3 : (0.0722 * B <=? 0.0722 * B') = true)
    by (apply mul_nice_mono; auto using isCorrected_nice).
  assert (S : (0.2126 * R + 0.7152 * G <=? 0.2126 * R' + 0.7152 * G') = true)
    by (apply add_nice_mono; assumption).
  assert (L : (weightedSum R G B <=? weightedSum R' G' B') = true)
    by (unfold weightedSum; apply add_nice_mono; assumption).
  split; [exact L|].
  apply add_nice_mono; try assumption; try (right; reflexivity).
  reflexivity.
Qed.

(** [luminance + 0.05] lies between 0.05 and 1.05. *)
Lemma offset_bounds (R G B : float) :
  isCorrected R -> isCorrected G -> isCorrected B ->
  (0.05 <=? weightedSum R G B + 0.05) = true /\
  (weightedSum R G B + 0.05 <=? 1.05) = true.
Proof.
  intros HR HG HB.
  pose proof (isCorrected_const 1 eq_refl eq_refl) as H1.
  split.
  - exact (proj2 (weightedSum_mono 0 0 0 R G B isCorrected_zero
             isCorrected_zero isCorrected_zero HR HG HB
             (isNice_nonneg _ (isCorrected_nice _ HR))
             (isNice_nonneg _ (isCorrected_nice _ HG))
             (isNice_nonneg _ (isCorrected_nice _ HB)))).
  - exact (proj2 (weightedSum_mono R G B 1 1 1 HR HG HB H1 H1 H1
             (isCorrected_le_one _ HR) (isCorrected_le_one _ HG)
             (isCorrected_le_one _ HB))).
Qed.

(** With a channel that is not full the colour stays below white. *)
Lemma offset_below_white (R G B : float) :
  isCorrected R -> isCorrected G -> isCorrected B ->
  (R <=? 0.995) = true \/ (G <=? 0.995) = true \/ (B <=? 0.995) = true ->
  (weightedSum R G B + 0.05 <=? belowWhite) = true.
Proof.
  intros HR HG HB H.
  pose proof (isCorrected_const 1 eq_refl eq_refl) as H1.
  pose proof (isCorrected_const 0.995 eq_refl eq_refl) as H9.
  pose proof (isCorrected_le_one _ HR) as UR.
  pose proof (isCorrected_le_one _ HG) as UG.
  pose proof (isCorrected_le_one _ HB) as UB.
  destruct H as [L|[L|L]].
  - refine (OrderFacts.leb_trans _ (weightedSum 0.995 1 1 + 0.05) belowWhite _ eq_refl).
    now apply weightedSum_mono.
  - refine (OrderFacts.leb_trans _ (weightedSum 1 0.995 1 + 0.05) belowWhite _ eq_refl).
    now apply weightedSum_mono.
  - refine (OrderFacts.leb_trans _ (weightedSum 1 1 0.995 + 0.05) belowWhite _ eq_refl).
    now apply weightedSum_mono.
Qed.

(** With a channel that is not zero the colour stays above black. *)
Lemma offset_above_black (R G B : float) :
  isCorrected R -> isCorrected G -> isCorrected B ->
  (0.0003 <=? R) = true \/ (0.0003 <=? G) = true \/ (0.0003 <=? B) = true ->
  (aboveBlack <=? weightedSum R G B + 0.05) = true.
Proof.
  intros HR HG HB H.
  pose proof isCorrected_zero as H0.
  pose proof (isCorrected_const 0.0003 eq_refl eq_refl) as H3.
  pose proof (isNice_nonneg _ (isCorrected_nice _ HR)) as LR.
  pose proof (isNice_nonneg _ (isCorrected_nice _ HG)) as LG.
  pose proof (isNice_nonneg _ (isCorrected_nice _ HB)) as LB.
  destruct H as [L|[L|L]].
  - refine (OrderFacts.leb_trans aboveBlack (weightedSum 0.0003 0 0 + 0.05) _ eq_refl _).
    now apply weightedSum_mono.
  - refine (OrderFacts.leb_trans aboveBlack (weightedSum 0 0.0003 0 + 0.05) _ eq_refl _).
    now apply weightedSum_mono.
  - refine (OrderFacts.leb_trans aboveBlack (weightedSum 0 0 0.0003 + 0.05) _ eq_refl _).
    now apply weightedSum_mono.
Qed.

End LumFacts.

Module RatioFacts.
Import MonoFacts.
Local Open Scope float_scope.

Lemma isNice_shape (x : float) :
  isNice x ->
  Prim2SF x = S754_zero false \/ exists m e, Prim2SF x = S754_finite false m e.
Proof.
  intros [->|R]; [now left|right].
  destruct (inRange_midRange x R) as (m & e & -> & _). eauto.
Qed.

(** Of two luminances, [Math.max] and [Math.min] return one each. *)
Lemma max_min_cases (x y : float) :
  isNice x -> isNice y ->
  (JS.Math_max x y = x /\ JS.Math_min x y = y /\ (y <=? x) = true) \/
  (JS.Math_max x y = y /\ JS.Math_min x y = x /\ (x <=? y) = true).
Proof.
  intros Hx Hy. unfold JS.Math_max, JS.Math_min, JS.isNegZero.
  rewrite compare_spec, !leb_spec. unfold SFleb.
  rewrite (FloatFacts.SFcompare_swap (Prim2SF x) (Prim2SF y)).
  destruct (isNice_shape x Hx) as [Ex|(mx & ex & Ex)];
    destruct (isNice_shape y Hy) as [Ey|(my & ey & Ey)];
    rewrite Ex, Ey;
    destruct (SFcompare _ _) as [[| |]|] eqn:C; cbn;
    try discriminate C; auto.
  all: cbn in C; destruct (ex ?= ey)%Z; discriminate C.
Qed.

Lemma luminanceRatio_cases (x y : float) :
  isNice x -> isNice y ->
  (luminanceRatio x y = (x + 0.05) / (y + 0.05) /\ (y <=? x) = true) \/
  (luminanceRatio x y = (y + 0.05) / (x + 0.05) /\ (x <=? y) = true).
Proof.
  intros Hx Hy. unfold luminanceRatio.
  destruct (max_min_cases x y Hx Hy) as [(-> & -> & L)|(-> & -> & L)]; auto.
Qed.

Lemma inRange_isFiniteNonZero (x : float) :
  inRange x = true -> JS.isFiniteNonZero x = true.
Proof.
  intros R. unfold JS.isFiniteNonZero.
  destruct (inRange_midRange x R) as (m & e & -> & _). reflexivity.
Qed.

(** The quotient of two offset luminances. *)
Lemma quotient_bounds (u v : float) :
  (0.05 <=? v) = true -> (v <=? u) = true -> (u <=? 1.05) = true ->
  (1 <=? u / v) = true /\ (u / v <=? 21) = true /\
  ((u <=? belowWhite) = true -> (u / v <? 21) = true) /\
  ((aboveBlack <=? v) = true -> (u / v <? 21) = true).
Proof.
  intros Lv Lvu Lu.
  assert (Rv : inRange v = true).
  { apply (inRange_between 0.05 1.05); try reflexivity; [exact Lv|].
    exact (OrderFacts.leb_trans _ _ _ Lvu Lu). }
  assert (Ru : inRange u = true).
  { apply (inRange_between 0.05 1.05); try reflexivity; [|exact Lu].
    exact (OrderFacts.leb_trans _ _ _ Lv Lvu). }
  pose proof (inRange_refl v Rv) as Ev. pose proof (inRange_refl u Ru) as Eu.
  split; [|split; [|split]].
  - rewrite <- (FloatFacts.div_self v (inRange_isFiniteNonZero v Rv)) at 1.
    now apply div_mono.
  - change 21 with (1.05 / 0.05). now apply div_mono.
  - intros B.
    apply (OrderFacts.leb_ltb_trans _ (belowWhite / 0.05)); [|reflexivity].
    now apply div_mono.
  - intros B.
    apply (OrderFacts.leb_ltb_trans _ (1.05 / aboveBlack)); [|reflexivity].
    now apply div_mono.
Qed.

End RatioFacts.

Section RatioRange.
Import MonoFacts.
Local Open Scope float_scope.

Variable pow : float -> float -> float.
Hypothesis powOK : powInRange pow = true.

Lemma eqb_one (x : float) : (x =? 1) = true -> x = 1.
Proof.
  rewrite eqb_spec. unfold SFeqb. intros H.
  destruct (SFcompare (Prim2SF x) (Prim2SF 1)) as [[| |]|] eqn:E;
    try discriminate.
  destruct (FloatFacts.SFcompare_Eq_inv _ _ E) as [K|(sx & sy & _ & K)].
  - now apply Prim2SF_inj.
  - discriminate K.
Qed.

Lemma linearChannels_ok :
  forallb (linearChannelCheck pow) linearChannels = true.
Proof. vm_compute. reflexivity. Qed.

(** The three kinds of channel. *)
Lemma corrected_cases (k : Z) :
  (0 <= k <= 255)%Z ->
  (k = 0%Z /\ corrected pow k = 0) \/
  ((0 < k < 255)%Z /\ (0.0003 <=? corrected pow k) = true
   /\ (corrected pow k <=? 0.995) = true) \/
  (k = 255%Z /\ corrected pow k = 1).
Proof.
  intros B.
  assert (I : In k linearChannels \/ In k powChannels).
  { destruct (Z.le_gt_cases k 10) as [L|G]; [left|right];
      unfold linearChannels, powChannels; apply in_map_iff;
      exists (Z.to_nat k); (split; [lia|apply in_seq; lia]). }
  assert (C : (k = 0%Z /\ corrected pow k = 0) \/
              (k <> 0%Z /\ correctedInRange pow k = true)).
  { destruct I as [I|I].
    - pose proof (proj1 (forallb_forall _ _) linearChannels_ok k I) as C.
      unfold linearChannelCheck in C.
      destruct (Z.eqb_spec k 0) as [E|N].
      + left. split; [exact E|]. now apply FloatAxioms.Leibniz.eqb_spec in C.
      + right. now split.
    - right. split.
      + unfold powChannels in I. apply in_map_iff in I.
        destruct I as (n & <- & I). apply in_seq in I. lia.
      + exact (proj1 (forallb_forall _ _) powOK k I). }
  destruct C as [C|[N C]]; [now left|right].
  unfold correctedInRange in C.
  destruct (Z.eqb_spec k 255) as [E|N'].
  - right. split; [exact E|]. now apply eqb_one.
  - left. apply andb_prop in C. split; [lia|exact C].
Qed.

Lemma corrected_isCorrected (k : Z) :
  (0 <= k <= 255)%Z -> isCorrected (corrected pow k).
Proof.
  intros B.
  destruct (corrected_cases k B) as [[_ ->]|[(_ & L & U)|[_ ->]]].
  - now left.
  - right. split; [exact L|].
    exact (OrderFacts.leb_trans _ _ 1 U eq_refl).
  - right. split; reflexivity.
Qed.

Lemma corrected_not_full (k : Z) :
  (0 <= k <= 255)%Z -> k <> 255%Z -> (corrected pow k <=? 0.995) = true.
Proof.
  intros B N.
  destruct (corrected_cases k B) as [[_ ->]|[(_ & _ & U)|[E _]]];
    [reflexivity|exact U|contradiction].
Qed.

Lemma corrected_not_zero (k : Z) :
  (0 <= k <= 255)%Z -> k <> 0%Z -> (0.0003 <=? corrected pow k) = true.
Proof.
  intros B N.
  destruct (corrected_cases k B) as [[E _]|[(_ & L & _)|[_ ->]]];
    [contradiction|exact L|reflexivity].
Qed.

(** The luminance of a parsed colour. *)
Lemma luminance_facts (rgb : RGB) :
  isByte (r rgb) -> isByte (g rgb) -> isByte (b rgb) ->
  let L := relativeLuminanceRgb pow rgb in
  isNice L /\
  (0.05 <=? L + 0.05) = true /\ (L + 0.05 <=? 1.05) = true /\
  (rgb = white \/ (L + 0.05 <=? belowWhite) = true) /\
  (rgb = black \/ (aboveBlack <=? L + 0.05) = true).
Proof.
  destruct rgb as [vr vg vb]. cbn [r g b].
  intros (kr & Br & ->) (kg & Bg & ->) (kb & Bb & ->). cbv zeta.
  set (L := relativeLuminanceRgb pow _).
  assert (EL : L = weightedSum (corrected pow kr) (corrected pow kg)
                     (corrected pow kb)) by reflexivity.
  pose proof (corrected_isCorrected kr Br) as Cr.
  pose proof (corrected_isCorrected kg Bg) as Cg.
  pose proof (corrected_isCorrected kb Bb) as Cb.
  rewrite EL.
  destruct (LumFacts.weightedSum_nice _ _ _ Cr Cg Cb) as (_ & _ & _ & _ & N).
  destruct (LumFacts.offset_bounds _ _ _ Cr Cg Cb) as [L0 L1].
  split; [exact N|]. split; [exact L0|]. split; [exact L1|]. split.
  - destruct (Z.eq_dec kr 255) as [->|Nr];
      [destruct (Z.eq_dec kg 255) as [->|Ng];
       [destruct (Z.eq_dec kb 255) as [->|Nb]; [now left|]|]|];
      right; apply LumFacts.offset_below_white;
      auto using corrected_not_full.
  - destruct (Z.eq_dec kr 0) as [->|Nr];
      [destruct (Z.eq_dec kg 0) as [->|Ng];
       [destruct (Z.eq_dec kb 0) as [->|Nb]; [now left|]|]|];
      right; apply LumFacts.offset_above_black;
      auto using corrected_not_zero.
Qed.

Lemma luminance_black : relativeLuminanceRgb pow black = 0.
Proof. reflexivity. Qed.

Lemma luminance_white : relativeLuminanceRgb pow white = 1.
Proof.
  destruct (corrected_cases 255 ltac:(lia)) as [[E _]|[([_ E] & _)|[_ E]]];
    try discriminate E; try lia.
  unfold relativeLuminanceRgb, white. cbn [r g b].
  change (linearize pow (255 / 255)) with (corrected pow 255).
  rewrite E. reflexivity.
Qed.

End RatioRange.

Section RangeOfTheRatio.
Local Open Scope float_scope.

(** C5. For a [Math.pow] in range ([powInRange]: on the channels above
    10 the corrected value lies between 0.0003 and 0.995, and is 1 for the
    channel 255), and two accepted colours: the contrast ratio is a number
    that does not depend on the order of the colours, the ratio of a colour
    against itself is exactly 1, the ratio lies between 1 and 21, and it is
    21 exactly for black against white. *)
Theorem contrastRatio_range (pow : float -> float -> float) (a c : string) :
  powInRange pow = true ->
  acceptsHex a = true -> acceptsHex c = true ->
  exists rho,
    contrastRatio pow a c = OK rho /\ contrastRatio pow c a = OK rho /\
    contrastRatio pow a a = OK 1 /\
    (1 <=? rho) = true /\ (rho <=? 21) = true /\
    (rho = 21 <->
     (hexToRgb a = OK black /\ hexToRgb c = OK white) \/
     (hexToRgb a = OK white /\ hexToRgb c = OK black)).
Proof.
  intros powOK Ha Hc.
  destruct (hexToRgb_accepts _ Ha) as (ca & Ea).
  destruct (hexToRgb_accepts _ Hc) as (cc & Ec).
  destruct (hexToRgb_inv _ _ Ea) as ((Ar & Ag & Ab) & _).
  destruct (hexToRgb_inv _ _ Ec) as ((Cr & Cg & Cb) & _).
  apply byteChannel_isByte in Ar, Ag, Ab, Cr, Cg, Cb.
  destruct (luminance_facts pow powOK ca Ar Ag Ab) as (Na & La0 & La1 & Wa & Ka).
  destruct (luminance_facts pow powOK cc Cr Cg Cb) as (Nc & Lc0 & Lc1 & Wc & Kc).
  set (La := relativeLuminanceRgb pow ca) in *.
  set (Lc := relativeLuminanceRgb pow cc) in *.
  exists (luminanceRatio La Lc).
  split; [exact (contrastRatio_intro pow a c ca cc Ea Ec)|].
  split.
  { rewrite (contrastRatio_intro pow c a cc ca Ec Ea). f_equal.
    apply luminanceRatio_comm. }
  split.
  { rewrite (contrastRatio_intro pow a a ca ca Ea Ea). f_equal.
    apply luminanceRatio_self. apply RatioFacts.inRange_isFiniteNonZero.
    exact (MonoFacts.inRange_between 0.05 1.05 _ eq_refl eq_refl La0 La1). }
  assert (N5 : isNice 0.05) by (right; reflexivity).
  assert (Black : forall x y, x = black -> y = white ->
            luminanceRatio (relativeLuminanceRgb pow x)
              (relativeLuminanceRgb pow y) = 21).
  { intros x y -> ->.
    now rewrite (luminance_black pow), (luminance_white pow powOK). }
  destruct (RatioFacts.luminanceRatio_cases La Lc Na Nc) as [[E L]|[E L]];
    rewrite E.
  - assert (M : (Lc + 0.05 <=? La + 0.05) = true)
      by (apply MonoFacts.add_nice_mono; auto).
    destruct (RatioFacts.quotient_bounds _ _ Lc0 M La1) as (Q1 & Q2 & Q3 & Q4).
    split; [exact Q1|]. split; [exact Q2|]. split.
    + intros E21. right.
      destruct Wa as [->|Wa];
        [|rewrite E21 in Q3; specialize (Q3 Wa);
          now rewrite ltb_irrefl in Q3].
      destruct Kc as [->|Kc];
        [|rewrite E21 in Q4; specialize (Q4 Kc);
          now rewrite ltb_irrefl in Q4].
      now split.
    + rewrite <- E. intros [[Xa Xc]|[Xa Xc]].
      * rewrite Ea in Xa. rewrite Ec in Xc. injection Xa as Xa.
        injection Xc as Xc. unfold La, Lc. now apply Black.
      * rewrite Ea in Xa. rewrite Ec in Xc. injection Xa as Xa.
        injection Xc as Xc. unfold La, Lc.
        rewrite luminanceRatio_comm. now apply Black.
  - assert (M : (La + 0.05 <=? Lc + 0.05) = true)
      by (apply MonoFacts.add_nice_mono; auto).
    destruct (RatioFacts.quotient_bounds _ _ La0 M Lc1) as (Q1 & Q2 & Q3 & Q4).
    split; [exact Q1|]. split; [exact Q2|]. split.
    + intros E21. left.
      destruct Wc as [->|Wc];
        [|rewrite E21 in Q3; specialize (Q3 Wc);
          now rewrite ltb_irrefl in Q3].
      destruct Ka as [->|Ka];
        [|rewrite E21 in Q4; specialize (Q4 Ka);
          now rewrite ltb_irrefl in Q4].
      now split.
    + rewrite <- E. intros [[Xa Xc]|[Xa Xc]].
      * rewrite Ea in Xa. rewrite Ec in Xc. injection Xa as Xa.
        injection Xc as Xc. unfold La, Lc. now apply Black.
      * rewrite Ea in Xa. rewrite Ec in Xc. injection Xa as Xa.
        injection Xc as Xc. unfold La, Lc.
        rewrite luminanceRatio_comm. now apply Black.
Qed.

End RangeOfTheRatio.

(** The stand-in [PowModel.pow] is in range; black on white. *)
Lemma contrastRatio_range_witness :
  powInRange PowModel.pow = true /\
  exists rho,
    contrastRatio PowModel.pow "#000" "#ffffff" = OK rho /\
    contrastRatio PowModel.pow "#ffffff" "#000" = OK rho /\
    contrastRatio PowModel.pow "#000" "#000" = OK 1%float /\
    (1 <=? rho)%float = true /\ (rho <=? 21)%float = true /\
    (rho = 21%float <->
     (hexToRgb "#000" = OK black /\ hexToRgb "#ffffff" = OK white) \/
     (hexToRgb "#000" = OK white /\ hexToRgb "#ffffff" = OK black)).
Proof.
  split; [vm_compute; reflexivity|].
  apply (contrastRatio_range PowModel.pow);
    [vm_compute; reflexivity|reflexivity|reflexivity].
Defined.

(** * Properties of the theme guard *)

(** ** Token sets *)

Lemma getToken_setToken (k key value : string) (tokens : ColorTokenSet) :
  getToken k (setToken key value tokens)
  = if String.eqb key k then Some value else getToken k tokens.
Proof.
  induction tokens as [|[k0 v0] rest IH]; cbn.
  - now rewrite String.eqb_sym.
  - destruct (String.eqb k0 key) eqn:E0; cbn.
    + apply String.eqb_eq in E0. subst k0.
      now destruct (String.eqb key k).
    + destruct (String.eqb k0 k) eqn:E1; [|exact IH].
      apply String.eqb_eq in E1. subst k0. now rewrite String.eqb_sym, E0.
Qed.

Lemma keys_setToken (key value v : string) (tokens : ColorTokenSet) :
  getToken key tokens = Some v ->
  map fst (setToken key value tokens) = map fst tokens.
Proof.
  induction tokens as [|[k0 v0] rest IH]; cbn; [discriminate|].
  destruct (String.eqb k0 key); cbn; [reflexivity|].
  intros H. now rewrite IH.
Qed.

(** ** Focus rings *)

Lemma pushIfPresent_fold (tokens : ColorTokenSet) (fgToken : string)
    (backgrounds : list string) :
  forall found pairs,
    let '(found', pairs') :=
      fold_left (pushIfPresent tokens fgToken) backgrounds (found, pairs) in
    exists added,
      pairs' = (pairs ++ added)%list /\
      Forall (fun p => p_fg p = fgToken /\ p_type p = FocusIndicator /\
                       p_threshold p = 3.0%float /\
                       truthyValue (getToken (p_bg p) tokens) = true) added /\
      (found' = false -> found = false /\ added = []) /\
      (found = false -> found' = true -> added <> []).
Proof.
  induction backgrounds as [|bgToken rest IH]; intros found pairs;
    cbn [fold_left].
  - exists []. rewrite app_nil_r. repeat split; auto. congruence.
  - unfold pushIfPresent at 2.
    destruct (truthyValue (getToken bgToken tokens)) eqn:T.
    + specialize (IH true (push pairs (focusPair fgToken bgToken))).
      destruct (fold_left _ rest _) as [found' pairs'].
      destruct IH as (added & -> & F & N & _).
      exists (focusPair fgToken bgToken :: added). unfold push.
      rewrite <- app_assoc. split; [reflexivity|]. split; [|split].
      * constructor; [|exact F]. cbn. auto.
      * intros E. destruct (N E) as [D _]. discriminate D.
      * intros _ _. discriminate.
    + specialize (IH found pairs).
      destruct (fold_left _ rest _) as [found' pairs'].
      exact IH.
Qed.

Lemma validateRing_pairs (tokens : ColorTokenSet) (fgToken : string)
    (backgrounds : list string) (warning : string) (ws : list string)
    (pairs : list SemanticPair) :
  let '(ws', pairs') :=
    validateRing tokens fgToken backgrounds warning (ws, pairs) in
  exists added,
    pairs' = (pairs ++ added)%list /\ added <> [] /\
    Forall (fun p => p_fg p = fgToken /\ p_type p = FocusIndicator /\
                     p_threshold p = 3.0%float) added /\
    ((Forall (fun p => truthyValue (getToken (p_bg p) tokens) = true) added
      /\ ws' = ws)
     \/ exists w, ws' = push ws w).
Proof.
  unfold validateRing.
  pose proof (pushIfPresent_fold tokens fgToken backgrounds false pairs) as F.
  destruct (fold_left _ backgrounds _) as [found pairs'].
  destruct F as (added & -> & A & N & P).
  assert (A' : Forall (fun p => p_fg p = fgToken /\
                                p_type p = FocusIndicator /\
                                p_threshold p = 3.0%float) added).
  { eapply Forall_impl; [|exact A]. cbn. tauto. }
  destruct found; cbn [negb].
  - exists added. repeat split; auto.
    left. split; [|reflexivity].
    eapply Forall_impl; [|exact A]. cbn. tauto.
  - destruct (N eq_refl) as [_ ->].
    exists [focusPair fgToken (fallbackBackground tokens)].
    unfold push. rewrite app_nil_r. repeat split; auto.
    + discriminate.
    + right. now eexists.
Qed.

(** X21. The pairs [validateFocusRings] adds are all focus-indicator pairs
    at threshold 3.0 whose foreground is [--focus-ring-inset] or
    [--focus-ring-outset]; whenever a ring is reported as validated at
    least one pair for it is added, the fallback pair if no known
    background has a value; and every added pair names a background
    that has a value, unless a warning is issued. *)
Theorem validateFocusRings_pairs (tokens : ColorTokenSet) :
  let v := validateFocusRings tokens in
  Forall (fun p => p_type p = FocusIndicator /\ p_threshold p = 3.0%float /\
                   (p_fg p = "--focus-ring-inset"
                    \/ p_fg p = "--focus-ring-outset"))
         (additionalPairs v) /\
  (insetValidated v = true ->
   exists p, In p (additionalPairs v) /\ p_fg p = "--focus-ring-inset") /\
  (outsetValidated v = true ->
   exists p, In p (additionalPairs v) /\ p_fg p = "--focus-ring-outset") /\
  (Forall (fun p => truthyValue (getToken (p_bg p) tokens) = true)
          (additionalPairs v)
   \/ warnings v <> []).
Proof.
  cbv zeta. unfold validateFocusRings.
  set (hasInset := someKeyIncludes "focus-ring-inset" tokens).
  set (hasOutset := someKeyIncludes "focus-ring-outset" tokens).
  set (W1 := "WCAG 1.4.11: No component backgrounds found for inset focus ring validation - using fallback to ").
  set (W2 := "WCAG 1.4.11: No page backgrounds found for outset focus ring validation - using fallback to ").
  assert (NE : forall (ws : list string) (w : string), push ws w <> []).
  { intros ws w E. apply (f_equal (@List.length string)) in E.
    unfold push in E. rewrite length_app in E. cbn in E. lia. }
  assert (HD : forall (xs : list SemanticPair) (P : SemanticPair -> Prop),
            xs <> [] -> Forall P xs -> exists p, In p xs /\ P p).
  { intros [|x xs] P Hne F; [now elim Hne|].
    exists x. split; [now left|]. now inversion F. }
  pose proof (validateRing_pairs tokens "--focus-ring-inset"
                componentBackgrounds W1 [] []) as R1.
  destruct (validateRing tokens "--focus-ring-inset" componentBackgrounds
              W1 ([], [])) as [ws1 ps1].
  destruct R1 as (a1 & E1 & N1 & F1 & T1). cbn [app] in E1. subst ps1.
  destruct hasInset, hasOutset; cbn [negb andb].
  - pose proof (validateRing_pairs tokens "--focus-ring-outset"
                  pageBackgrounds W2 ws1 a1) as R2.
    destruct (validateRing tokens "--focus-ring-outset" pageBackgrounds
                W2 (ws1, a1)) as [ws2 ps2].
    destruct R2 as (a2 & E2 & N2 & F2 & T2). subst ps2.
    cbn [insetValidated outsetValidated warnings additionalPairs].
    split; [|split; [|split]].
    + apply Forall_app. split.
      * eapply Forall_impl; [|exact F1]. cbn. tauto.
      * eapply Forall_impl; [|exact F2]. cbn. tauto.
    + intros _. destruct (HD _ _ N1 F1) as (p & I & Q & _).
      exists p. split; [apply in_or_app; now left|exact Q].
    + intros _. destruct (HD _ _ N2 F2) as (p & I & Q & _).
      exists p. split; [apply in_or_app; now right|exact Q].
    + destruct T2 as [[T2 ->]|(w2 & ->)]; [|right; apply NE].
      destruct T1 as [[T1 ->]|(w1 & ->)]; [|right; apply NE].
      left. apply Forall_app. now split.
  - cbn [insetValidated outsetValidated warnings additionalPairs].
    split; [|split; [|split]].
    + eapply Forall_impl; [|exact F1]. cbn. tauto.
    + intros _. destruct (HD _ _ N1 F1) as (p & I & Q & _). now exists p.
    + discriminate.
    + destruct T1 as [[T1 ->]|(w1 & ->)]; [now left|right; apply NE].
  - pose proof (validateRing_pairs tokens "--focus-ring-outset"
                  pageBackgrounds W2 [] []) as R2.
    destruct (validateRing tokens "--focus-ring-outset" pageBackgrounds
                W2 ([], [])) as [ws2 ps2].
    destruct R2 as (a2 & E2 & N2 & F2 & T2). cbn [app] in E2. subst ps2.
    cbn [insetValidated outsetValidated warnings additionalPairs].
    split; [|split; [|split]].
    + eapply Forall_impl; [|exact F2]. cbn. tauto.
    + discriminate.
    + intros _. destruct (HD _ _ N2 F2) as (p & I & Q & _). now exists p.
    + destruct T2 as [[T2 ->]|(w2 & ->)]; [now left|right; apply NE].
  - cbn [insetValidated outsetValidated additionalPairs].
    split; [constructor|]. split; [discriminate|]. split; [discriminate|].
    left. constructor.
Qed.

(** ** The loop over the pairs *)

Section GuardProperties.

Variable pow : float -> float -> float.
Variable toFixed2 : float -> string.
Variable toString : float -> string.

(** What one turn of the loop does: nothing that shows in the outcome, or
    the repair of a pair that fails [passesContrast]. *)
Lemma checkPair_cases (options : ThemeGuardOptions) (pair : SemanticPair)
    (st st' : GuardState) :
  checkPair pow toFixed2 toString options pair st = OK st' ->
  (sameOutcome st st' /\
   (st_exemptTokens st' = st_exemptTokens st
    \/ isTextType (p_type pair) && isExemptFromTextContrast (p_fg pair)
       = true))
  \/ exists fgValue bgValue st1,
       getToken (p_fg pair) (st_sanitizedTokens st) = Some fgValue /\
       getToken (p_bg pair) (st_sanitizedTokens st) = Some bgValue /\
       sameOutcome st st1 /\ st_exemptTokens st1 = st_exemptTokens st /\
       let isLargeText :=
         isLargeTextType (p_type pair) || detectedAsLarge options pair in
       passesContrast pow fgValue bgValue
         (pairContrastOptions isLargeText pair) = OK false /\
       repairPair pow toFixed2 toString options pair fgValue bgValue
         isLargeText (detectedAsLarge options pair) st1 = OK st'.
Proof.
  unfold checkPair. intros H.
  assert (Same : sameOutcome st st) by (repeat split).
  destruct (getToken (p_fg pair) (st_sanitizedTokens st)) as [fgValue|];
    [|injection H as <-; auto].
  destruct (getToken (p_bg pair) (st_sanitizedTokens st)) as [bgValue|];
    [|injection H as <-; auto].
  destruct (negb _ || negb _); [injection H as <-; auto|].
  destruct (isTextType (p_type pair)
            && isExemptFromTextContrast (p_fg pair)) eqn:X.
  { injection H as <-. left. split; [repeat split|now right]. }
  cbv zeta in H.
  match type of H with
  | bind (passesContrast _ _ _ _) _ = _ =>
      apply bind_OK_inv in H; destruct H as (passes & P & H)
  end.
  destruct passes; cbn [negb] in H.
  - injection H as <-. left.
    destruct (detectedAsLarge options pair); split; auto; repeat split.
  - right. exists fgValue, bgValue.
    eexists. split; [reflexivity|]. split; [reflexivity|].
    split; [|split; [|split; [exact P|exact H]]];
      destruct (detectedAsLarge options pair); repeat split.
Qed.

(** The state a repair leaves. *)
Lemma repairPair_inv (options : ThemeGuardOptions) (pair : SemanticPair)
    (fgValue bgValue : string) (isLargeText wasEvaluatedAsLarge : bool)
    (st st' : GuardState) :
  repairPair pow toFixed2 toString options pair fgValue bgValue isLargeText
    wasEvaluatedAsLarge st = OK st' ->
  exists snapResult,
    snapToPassingColor pow fgValue bgValue
      (pairSnapOptions options isLargeText pair) = OK snapResult /\
    st_sanitizedTokens st'
    = match adjusted snapResult with
      | Some Fg =>
          setToken (p_fg pair) (fg snapResult) (st_sanitizedTokens st)
      | Some Bg =>
          setToken (p_bg pair) (bg snapResult) (st_sanitizedTokens st)
      | None => st_sanitizedTokens st
      end /\
    List.length (st_violations st')
    = (List.length (st_violations st) + 1
       + (if truthy (clamped snapResult) then 1 else 0))%nat /\
    st_clampedCount st'
    = (st_clampedCount st + (if truthy (clamped snapResult) then 1 else 0))%nat
    /\
    (truthy (logAdjustments options) = false ->
     st_adjustments st' = st_adjustments st) /\
    (truthy (logAdjustments options) = true ->
     exists a,
       st_adjustments st' = (st_adjustments st ++ [a])%list /\
       log_ratio a = ratio snapResult /\
       log_clamped a = truthy (clamped snapResult) /\
       log_thresholdUsed a = loggedThreshold isLargeText /\
       log_thresholdType a = p_type pair /\
       log_largeTextDetected a = wasEvaluatedAsLarge) /\
    st_exemptTokens st' = st_exemptTokens st.
Proof.
  unfold repairPair. intros H.
  apply bind_OK_inv in H. destruct H as (snapResult & S & H).
  exists snapResult. split; [exact S|].
  destruct (truthy (clamped snapResult)), (truthy (logAdjustments options));
    injection H as <-; cbn; unfold push; rewrite ?length_app; cbn;
    repeat split; try discriminate; try lia; try eauto 10.
Qed.

(** *** Keys *)

Lemma checkPair_keys (options : ThemeGuardOptions) (pair : SemanticPair)
    (st st' : GuardState) :
  checkPair pow toFixed2 toString options pair st = OK st' ->
  map fst (st_sanitizedTokens st') = map fst (st_sanitizedTokens st).
Proof.
  intros H.
  destruct (checkPair_cases _ _ _ _ H)
    as [[(E & _) _]|(fgValue & bgValue & st1 & Gf & Gb & (E1 & _) & _ & _ & R)].
  - now rewrite E.
  - destruct (repairPair_inv _ _ _ _ _ _ _ _ R) as (sr & _ & E & _).
    rewrite E, E1.
    destruct (adjusted sr) as [[|]|]; [| |reflexivity];
      eapply keys_setToken; eauto.
Qed.

Lemma checkPairs_keys (options : ThemeGuardOptions)
    (pairs : list SemanticPair) :
  forall st st',
    checkPairs pow toFixed2 toString options pairs st = OK st' ->
    map fst (st_sanitizedTokens st') = map fst (st_sanitizedTokens st).
Proof.
  induction pairs as [|p rest IH]; intros st st' H; cbn in H.
  - now injection H as <-.
  - apply bind_OK_inv in H. destruct H as (st1 & H1 & H).
    rewrite (IH _ _ H). exact (checkPair_keys _ _ _ _ H1).
Qed.

(** X22. The guard never adds, removes or reorders a token: the sanitized
    set has the keys of the input, in the same order. *)
Theorem sanitize_keeps_keys (tokens : ColorTokenSet)
    (options : ThemeGuardOptions) (res : ThemeGuardResult) :
  sanitizeThemeTokens pow toFixed2 toString tokens options = OK res ->
  map fst (sanitizedTokens res) = map fst tokens.
Proof.
  unfold sanitizeThemeTokens.
  destruct (truthy (bypassGuard options)).
  - intros H. now injection H as <-.
  - intros H. apply bind_OK_inv in H. destruct H as (st & L & H).
    injection H as <-. cbn [sanitizedTokens].
    exact (checkPairs_keys _ _ _ _ L).
Qed.

(** *** Values *)

Lemma checkPair_values (options : ThemeGuardOptions) (pair : SemanticPair)
    (st st' : GuardState) :
  checkPair pow toFixed2 toString options pair st = OK st' ->
  forall key v,
    getToken key (st_sanitizedTokens st') = Some v ->
    getToken key (st_sanitizedTokens st) = Some v
    \/ isCanonicalHex v = true.
Proof.
  intros H key v G.
  destruct (checkPair_cases _ _ _ _ H)
    as [[(E & _) _]|(fgValue & bgValue & st1 & Gf & Gb & (E1 & _) & _ & _ & R)].
  - left. now rewrite <- E.
  - destruct (repairPair_inv _ _ _ _ _ _ _ _ R) as (sr & S & E & _).
    destruct (snap_result _ _ _ _ _ S) as (_ & _ & Cf & Cb).
    rewrite E, E1 in G.
    destruct (adjusted sr) as [[|]|]; [| |now left];
      rewrite getToken_setToken in G;
      destruct (String.eqb _ key); auto;
      injection G as <-; now right.
Qed.

Lemma checkPairs_values (options : ThemeGuardOptions)
    (pairs : list SemanticPair) :
  forall st st',
    checkPairs pow toFixed2 toString options pairs st = OK st' ->
    forall key v,
      getToken key (st_sanitizedTokens st') = Some v ->
      getToken key (st_sanitizedTokens st) = Some v
      \/ isCanonicalHex v = true.
Proof.
  induction pairs as [|p rest IH]; intros st st' H key v G; cbn in H.
  - injection H as <-. now left.
  - apply bind_OK_inv in H. destruct H as (st1 & H1 & H).
    destruct (IH _ _ H key v G) as [G1|C]; [|now right].
    exact (checkPair_values _ _ _ _ H1 key v G1).
Qed.

(** X23. Every value of the sanitized set is the value the input has
    under that key, or a colour written by a repair, which is '#' and six
    upper-case hex digits. *)
Theorem sanitize_values (tokens : ColorTokenSet) (options : ThemeGuardOptions)
    (res : ThemeGuardResult) :
  sanitizeThemeTokens pow toFixed2 toString tokens options = OK res ->
  forall key v,
    getToken key (sanitizedTokens res) = Some v ->
    getToken key tokens = Some v \/ isCanonicalHex v = true.
Proof.
  unfold sanitizeThemeTokens.
  destruct (truthy (bypassGuard options)).
  - intros H. injection H as <-. cbn. auto.
  - intros H. apply bind_OK_inv in H. destruct H as (st & L & H).
    injection H as <-. cbn [sanitizedTokens].
    exact (checkPairs_values _ _ _ _ L).
Qed.

End GuardProperties.

Section GuardSummary.

Variable pow : float -> float -> float.
Variable toFixed2 : float -> string.
Variable toString : float -> string.

(** *** Counting *)

Lemma checkPairs_counts (options : ThemeGuardOptions)
    (pairs : list SemanticPair) :
  forall st st',
    checkPairs pow toFixed2 toString options pairs st = OK st' ->
    exists failed clampedNew : nat,
      List.length (st_violations st')
      = (List.length (st_violations st) + failed + clampedNew)%nat /\
      st_clampedCount st' = (st_clampedCount st + clampedNew)%nat /\
      (clampedNew <= failed)%nat /\ (failed <= List.length pairs)%nat /\
      List.length (st_adjustments st')
      = (List.length (st_adjustments st)
         + (if truthy (logAdjustments options) then failed else 0))%nat /\
      (failed = 0%nat ->
       st_sanitizedTokens st' = st_sanitizedTokens st /\
       st_adjustments st' = st_adjustments st /\
       st_violations st' = st_violations st).
Proof.
  induction pairs as [|p rest IH]; intros st st' H; cbn [checkPairs] in H.
  - injection H as <-. exists 0%nat, 0%nat. cbn.
    destruct (truthy (logAdjustments options)); repeat split; lia.
  - apply bind_OK_inv in H. destruct H as (st1 & H1 & H).
    destruct (IH _ _ H) as (f & c & V & C & Le & Lf & A & U).
    destruct (checkPair_cases _ _ _ _ _ _ _ H1)
      as [[(E1 & E2 & E3 & E4) _]
         |(fgValue & bgValue & st0 & _ & _ & (F1 & F2 & F3 & F4) & _ & _ & R)].
    + exists f, c. rewrite V, C, A, E2, E3, E4. cbn [List.length].
      repeat split; try lia.
      * rewrite <- E1. now apply U.
      * rewrite <- E2. now apply U.
      * rewrite <- E3. now apply U.
    + destruct (repairPair_inv _ _ _ _ _ _ _ _ _ _ _ R)
        as (sr & _ & _ & RV & RC & RA0 & RA1 & _).
      exists (S f), ((if truthy (clamped sr) then 1 else 0) + c)%nat.
      rewrite V, C, A, RV, RC, F3, F4. cbn [List.length].
      split; [lia|]. split; [lia|].
      split; [destruct (truthy (clamped sr)); lia|].
      split; [lia|]. split; [|discriminate].
      destruct (truthy (logAdjustments options)).
      * destruct (RA1 eq_refl) as (a & -> & _).
        rewrite length_app, F2. cbn. lia.
      * rewrite (RA0 eq_refl), F2. lia.
Qed.

(** X24. The figures of a result.  With [failed] the number of pairs that
    failed [passesContrast]: the violation count is [failed] plus the
    clamped count (a clamped pair is listed twice), the clamped count is
    at most [failed], which is at most the number of checks; one
    adjustment is logged per failed pair when [logAdjustments] is set and
    none otherwise; and the status is pass when no pair failed, fail when
    some repair was clamped, warnings otherwise. *)
Theorem sanitize_summary (tokens : ColorTokenSet)
    (options : ThemeGuardOptions) (res : ThemeGuardResult) :
  sanitizeThemeTokens pow toFixed2 toString tokens options = OK res ->
  exists failed : nat,
    violationCount (summary res) = List.length (violations res) /\
    adjustmentCount (summary res) = List.length (adjustments res) /\
    violationCount (summary res)
    = (failed + clampedTotal (summary res))%nat /\
    (clampedTotal (summary res) <= failed)%nat /\
    (failed <= totalChecks (summary res))%nat /\
    adjustmentCount (summary res)
    = (if truthy (logAdjustments options) then failed else 0%nat) /\
    status res
    = (if (failed =? 0)%nat then Pass
       else if (clampedTotal (summary res) =? 0)%nat then Warnings
       else Fail).
Proof.
  unfold sanitizeThemeTokens.
  destruct (truthy (bypassGuard options)).
  - intros H. injection H as <-. exists 0%nat. cbn.
    destruct (truthy (logAdjustments options)); repeat split; lia.
  - cbv zeta.
    generalize (SEMANTIC_PAIRS
                ++ additionalPairs (validateFocusRings tokens))%list.
    intros allPairs H. apply bind_OK_inv in H. destruct H as (st & L & H).
    injection H as <-.
    cbn [summary violations adjustments status violationCount
         adjustmentCount clampedTotal totalChecks].
    destruct (checkPairs_counts _ _ _ _ L) as (f & c & V & C & Le & Lf & A & _).
    cbn [st_violations st_clampedCount st_adjustments] in V, C, A.
    change (@List.length string []) with 0%nat in V.
    change (@List.length AdjustmentLog []) with 0%nat in A.
    cbn [Nat.add] in V, C, A.
    exists f. rewrite V, C, A.
    split; [reflexivity|]. split; [reflexivity|]. split; [lia|].
    split; [exact Le|]. split; [exact Lf|]. split; [reflexivity|].
    destruct f as [|f]; [|reflexivity].
    assert (Z : c = 0%nat) by lia. rewrite Z. reflexivity.
Qed.

(** X25. A result with status pass leaves everything as it was: the
    sanitized set is the input, and no violation or adjustment is
    listed. *)
Theorem sanitize_pass_changes_nothing (tokens : ColorTokenSet)
    (options : ThemeGuardOptions) (res : ThemeGuardResult) :
  sanitizeThemeTokens pow toFixed2 toString tokens options = OK res ->
  status res = Pass ->
  sanitizedTokens res = tokens /\ violations res = [] /\ adjustments res = [].
Proof.
  unfold sanitizeThemeTokens.
  destruct (truthy (bypassGuard options)).
  - intros H. injection H as <-. cbn. auto.
  - intros H. apply bind_OK_inv in H. destruct H as (st & L & H).
    injection H as <-. cbn [status sanitizedTokens violations adjustments].
    destruct (checkPairs_counts _ _ _ _ L) as (f & c & V & _ & _ & _ & _ & U).
    cbn [st_violations List.length Nat.add] in V.
    destruct (List.length (st_violations st) =? 0)%nat eqn:Z.
    + intros _. apply Nat.eqb_eq in Z.
      assert (F0 : f = 0%nat) by lia.
      destruct (U F0) as (U1 & U2 & U3). cbn in U1, U2, U3. auto.
    + destruct (st_clampedCount st =? 0)%nat; discriminate.
Qed.

(** *** Exemptions *)

Lemma semantic_pairs_not_exempt :
  forallb (fun p => negb (isTextType (p_type p)
                          && isExemptFromTextContrast (p_fg p)))
    SEMANTIC_PAIRS = true.
Proof. vm_compute. reflexivity. Qed.

Lemma validateRing_types (tokens : ColorTokenSet) (fgToken : string)
    (backgrounds : list string) (warning : string) (ws : list string)
    (pairs : list SemanticPair) :
  Forall (fun p => p_type p = FocusIndicator) pairs ->
  Forall (fun p => p_type p = FocusIndicator)
    (snd (validateRing tokens fgToken backgrounds warning (ws, pairs))).
Proof.
  intros F.
  pose proof (validateRing_pairs tokens fgToken backgrounds warning ws pairs)
    as R.
  destruct (validateRing _ _ _ _ _) as [ws' pairs'].
  destruct R as (added & -> & _ & A & _). cbn [snd].
  apply Forall_app. split; [exact F|].
  eapply Forall_impl; [|exact A]. cbn. tauto.
Qed.

Lemma additionalPairs_types (tokens : ColorTokenSet) :
  Forall (fun p => p_type p = FocusIndicator)
    (additionalPairs (validateFocusRings tokens)).
Proof.
  unfold validateFocusRings.
  set (W1 := "WCAG 1.4.11: No component backgrounds found for inset focus ring validation - using fallback to ").
  set (W2 := "WCAG 1.4.11: No page backgrounds found for outset focus ring validation - using fallback to ").
  assert (F0 : Forall (fun p => p_type p = FocusIndicator)
                 (snd (@nil string, @nil SemanticPair))) by constructor.
  set (acc0 := (@nil string, @nil SemanticPair)) in *.
  set (acc1 := if someKeyIncludes "focus-ring-inset" tokens
               then validateRing tokens "--focus-ring-inset"
                      componentBackgrounds W1 acc0
               else acc0).
  assert (F1 : Forall (fun p => p_type p = FocusIndicator) (snd acc1)).
  { unfold acc1. destruct (someKeyIncludes "focus-ring-inset" tokens);
      [|exact F0].
    apply (validateRing_types tokens _ _ _ [] []). constructor. }
  set (acc2 := if someKeyIncludes "focus-ring-outset" tokens
               then validateRing tokens "--focus-ring-outset"
                      pageBackgrounds W2 acc1
               else acc1).
  assert (F2 : Forall (fun p => p_type p = FocusIndicator) (snd acc2)).
  { unfold acc2. destruct (someKeyIncludes "focus-ring-outset" tokens);
      [|exact F1].
    destruct acc1 as [ws1 ps1]. now apply validateRing_types. }
  destruct acc2 as [ws2 ps2]. exact F2.
Qed.

Lemma checked_pairs_not_exempt (tokens : ColorTokenSet) (p : SemanticPair) :
  In p (SEMANTIC_PAIRS ++ additionalPairs (validateFocusRings tokens))%list ->
  isTextType (p_type p) && isExemptFromTextContrast (p_fg p) = false.
Proof.
  intros I. apply in_app_or in I. destruct I as [I|I].
  - pose proof semantic_pairs_not_exempt as T.
    rewrite forallb_forall in T. specialize (T p I).
    now apply negb_true_iff in T.
  - pose proof (additionalPairs_types tokens) as F.
    rewrite Forall_forall in F. now rewrite (F p I).
Qed.

Lemma checkPairs_exempt (options : ThemeGuardOptions)
    (pairs : list SemanticPair) :
  (forall p, In p pairs ->
     isTextType (p_type p) && isExemptFromTextContrast (p_fg p) = false) ->
  forall st st',
    checkPairs pow toFixed2 toString options pairs st = OK st' ->
    st_exemptTokens st' = st_exemptTokens st.
Proof.
  induction pairs as [|p rest IH]; intros N st st' H; cbn [checkPairs] in H.
  - now injection H as <-.
  - apply bind_OK_inv in H. destruct H as (st1 & H1 & H).
    rewrite (IH (fun q I => N q (or_intror I)) _ _ H).
    destruct (checkPair_cases _ _ _ _ _ _ _ H1)
      as [[_ [E|X]]|(fgValue & bgValue & st0 & _ & _ & _ & E0 & _ & R)].
    + exact E.
    + rewrite (N p (or_introl eq_refl)) in X. discriminate.
    + destruct (repairPair_inv _ _ _ _ _ _ _ _ _ _ _ R)
        as (sr & _ & _ & _ & _ & _ & _ & E).
      now rewrite E.
Qed.

(** X26. No pair the guard checks is ever exempted: the exemption test is
    applied to the foreground names of the text pairs only, none of which
    holds one of the exemption words, so [exemptions] is [undefined] in
    every result, whatever the tokens are called. *)
Theorem sanitize_never_exempts (tokens : ColorTokenSet)
    (options : ThemeGuardOptions) (res : ThemeGuardResult) :
  sanitizeThemeTokens pow toFixed2 toString tokens options = OK res ->
  exemptions res = None.
Proof.
  unfold sanitizeThemeTokens.
  destruct (truthy (bypassGuard options)).
  - intros H. now injection H as <-.
  - intros H. apply bind_OK_inv in H. destruct H as (st & L & H).
    injection H as <-. cbn [exemptions].
    rewrite (checkPairs_exempt _ _ (checked_pairs_not_exempt tokens) _ _ L).
    reflexivity.
Qed.

(** *** The adjustment log *)

Lemma detectedAsLarge_ui (options : ThemeGuardOptions) (pair : SemanticPair) :
  isUiType (p_type pair) = true -> detectedAsLarge options pair = false.
Proof.
  unfold detectedAsLarge. intros U.
  destruct (largeTextContext options); [|reflexivity].
  now destruct (p_type pair).
Qed.

Lemma checkPairs_logs (options : ThemeGuardOptions)
    (pairs : list SemanticPair) :
  forall st st',
    Forall logIsConsistent (st_adjustments st) ->
    checkPairs pow toFixed2 toString options pairs st = OK st' ->
    Forall logIsConsistent (st_adjustments st').
Proof.
  induction pairs as [|p rest IH]; intros st st' I H; cbn [checkPairs] in H.
  - now injection H as <-.
  - apply bind_OK_inv in H. destruct H as (st1 & H1 & H).
    apply (IH _ _) in H; [exact H|]. clear H IH.
    destruct (checkPair_cases _ _ _ _ _ _ _ H1)
      as [[(_ & E & _) _]
         |(fgValue & bgValue & st0 & _ & _ & (_ & E0 & _) & _ & _ & R)].
    + now rewrite E.
    + destruct (repairPair_inv _ _ _ _ _ _ _ _ _ _ _ R)
        as (sr & S & _ & _ & _ & RA0 & RA1 & _).
      destruct (truthy (logAdjustments options)).
      * destruct (RA1 eq_refl) as (a & -> & Er & Ec & Eu & Ety & Ed).
        rewrite E0. apply Forall_app. split; [exact I|].
        constructor; [|constructor].
        unfold logIsConsistent. rewrite Eu, Ety, Ed, Er, Ec.
        split; [reflexivity|]. intros U.
        rewrite (detectedAsLarge_ui options p U) in *.
        assert (L : isLargeTextType (p_type p) = false)
          by (now destruct (p_type p)).
        rewrite L in *. split; [reflexivity|]. intros NC.
        destruct (snap_result _ _ _ _ _ S) as (_ & G & _).
        rewrite NC in G. cbn [negb] in G.
        unfold requiredThreshold, pairSnapOptions, pairContrastOptions in G.
        cbn in G. rewrite U in G. exact G.
      * now rewrite (RA0 eq_refl), E0.
Qed.

(** X27. What an adjustment log records as [thresholdUsed] is 3.0 when the
    pair is a large-text pair or was detected as large text, and 4.5
    otherwise: for a ui-component or focus-indicator pair it is 4.5,
    whereas the pair was checked and repaired against 3.0, so that an
    entry not marked as clamped has a ratio of at least 3.0 - 1e-3 (and
    may well be below the 4.5 it records). *)
Theorem sanitize_logged_thresholds (tokens : ColorTokenSet)
    (options : ThemeGuardOptions) (res : ThemeGuardResult) :
  sanitizeThemeTokens pow toFixed2 toString tokens options = OK res ->
  Forall (fun a =>
    log_thresholdUsed a
    = (if isLargeTextType (log_thresholdType a) || log_largeTextDetected a
       then 3.0 else 4.5)%float /\
    (isUiType (log_thresholdType a) = true ->
     log_thresholdUsed a = 4.5%float /\
     (log_clamped a = false ->
      JS.geb (log_ratio a) (3.0 - EPSILON) = true)))
    (adjustments res).
Proof.
  unfold sanitizeThemeTokens.
  destruct (truthy (bypassGuard options)).
  - intros H. injection H as <-. constructor.
  - intros H. apply bind_OK_inv in H. destruct H as (st & L & H).
    injection H as <-. cbn [adjustments].
    refine (checkPairs_logs _ _ _ _ _ L). constructor.
Qed.

(** *** Values that are not colours *)

(** X28. The guard throws on a value that is not a hex colour: when
    [--text-primary] and [--bg-primary] both have a value and one of the
    two is not accepted by [hexToRgb], [sanitizeThemeTokens] throws the
    format error quoting it (the foreground's if both are invalid),
    unless the guard is bypassed. *)
Theorem sanitize_throws_on_invalid_colour (tokens : ColorTokenSet)
    (options : ThemeGuardOptions) (fgValue bgValue : string) :
  truthy (bypassGuard options) = false ->
  getToken "--text-primary" tokens = Some fgValue ->
  getToken "--bg-primary" tokens = Some bgValue ->
  truthyValue (Some fgValue) = true -> truthyValue (Some bgValue) = true ->
  acceptsHex fgValue && acceptsHex bgValue = false ->
  sanitizeThemeTokens pow toFixed2 toString tokens options
  = Throw (Error (formatErrorMessage
                    (if acceptsHex fgValue then bgValue else fgValue))).
Proof.
  intros B Gf Gb Tf Tb A. unfold sanitizeThemeTokens. rewrite B.
  cbv zeta. cbn [SEMANTIC_PAIRS app checkPairs].
  unfold checkPair at 1. cbn [p_fg p_bg p_type st_sanitizedTokens].
  rewrite Gf, Gb, Tf, Tb. cbn [negb orb].
  replace (isTextType NormalText
           && isExemptFromTextContrast "--text-primary") with false
    by (vm_compute; reflexivity).
  cbv zeta. rewrite (passesContrast_throws pow _ _ _ A). reflexivity.
Qed.

End GuardSummary.

(** ** The further theorems on concrete inputs *)

(** [hexToRgb('#1a2B3c')]. *)
Lemma hexToRgb_channels_are_bytes_witness :
  hexToRgb "#1a2B3c" = OK {| r := 26; g := 43; b := 60 |} /\
  isByte 26 /\ isByte 43 /\ isByte 60.
Proof.
  split; [reflexivity|].
  exact (hexToRgb_channels_are_bytes "#1a2B3c"
           {| r := 26; g := 43; b := 60 |} eq_refl).
Defined.

(** [rgbToHex(hexToRgb('a#bc'))]. *)
Lemma rgbToHex_of_parsed_witness :
  let rgb := {| r := 170; g := 187; b := 204 |} in
  hexToRgb "a#bc" = OK rgb /\
  rgbToHex rgb = "#AABBCC" /\ isCanonicalHex (rgbToHex rgb) = true /\
  hexToRgb (rgbToHex rgb) = OK rgb /\
  rgbToHex rgb = canonicalHex (rgbToHex rgb).
Proof.
  cbv zeta. split; [reflexivity|].
  exact (rgbToHex_of_parsed "a#bc" {| r := 170; g := 187; b := 204 |}
           eq_refl).
Defined.

(** [rgbToHex({ r: -3.5, g: 127.5, b: Infinity })] is [#0080FF]. *)
Lemma rgbToHex_clamps_witness :
  let rgb := {| r := -3.5; g := 127.5; b := infinity |} in
  rgbToHex rgb = "#0080FF" /\
  isCanonicalHex (rgbToHex rgb) = true /\
  hexToRgb (rgbToHex rgb) = OK {| r := 0; g := 128; b := 255 |}.
Proof.
  cbv zeta. split; [reflexivity|].
  destruct (rgbToHex_clamps {| r := -3.5; g := 127.5; b := infinity |})
    as (C & P & _).
  split; [exact C|exact P].
Defined.

Lemma hexToRgb_of_formatted_witness :
  let rgb := {| r := 18; g := 52; b := 86 |} in
  rgbToHex rgb = "#123456" /\ hexToRgb (rgbToHex rgb) = OK rgb.
Proof.
  cbv zeta. split; [reflexivity|].
  apply (hexToRgb_of_formatted {| r := 18; g := 52; b := 86 |});
    [exists 18%Z|exists 52%Z|exists 86%Z]; (split; [lia|reflexivity]).
Defined.

(** The empty string and a string with a letter that is no digit. *)
Lemma hexToRgb_rejects_malformed_witness :
  hexToRgb ""
  = Throw (Error "Invalid hex color format: . Expected #RGB or #RRGGBB format.")
  /\ hexToRgb "#GGGGGG"
     = Throw (Error "Invalid hex color format: #GGGGGG. Expected #RGB or #RRGGBB format.").
Proof.
  split.
  - apply (hexToRgb_rejects_malformed "" eq_refl). left. cbn. lia.
  - apply (hexToRgb_rejects_malformed "#GGGGGG" eq_refl). right. reflexivity.
Defined.

Lemma contrast_symmetric_witness :
  contrastRatio PowModel.pow "#767676" "fff"
  = contrastRatio PowModel.pow "fff" "#767676" /\
  contrastRatio PowModel.pow "#767676" "red"
  = contrastRatio PowModel.pow "red" "#767676" /\
  passesContrast PowModel.pow "#767676" "fff" noContrastOptions
  = passesContrast PowModel.pow "fff" "#767676" noContrastOptions.
Proof.
  split; [|split].
  - exact (proj1 (contrast_symmetric PowModel.pow "#767676" "fff"
                    noContrastOptions (or_introl eq_refl))).
  - exact (proj1 (contrast_symmetric PowModel.pow "#767676" "red"
                    noContrastOptions (or_introl eq_refl))).
  - exact (proj2 (contrast_symmetric PowModel.pow "#767676" "fff"
                    noContrastOptions (or_introl eq_refl))).
Defined.

(** Red against red, written in two ways, for a UI component. *)
Lemma same_colour_never_passes_witness :
  contrastRatio PowModel.pow "#FF0000" "f00" = OK 1%float /\
  passesContrast PowModel.pow "#FF0000" "f00"
    (mkContrastOptions None (Some true)) = OK false.
Proof.
  apply (same_colour_never_passes PowModel.pow "#FF0000" "f00"
           {| r := 255; g := 0; b := 0 |});
    vm_compute; reflexivity.
Defined.

Lemma passes_normal_passes_all_witness :
  passesContrast PowModel.pow "#767676" "#FFFFFF" noContrastOptions = OK true
  /\ passesContrast PowModel.pow "#767676" "#FFFFFF"
       (mkContrastOptions (Some true) None) = OK true.
Proof.
  split; [vm_compute; reflexivity|].
  apply (passes_normal_passes_all PowModel.pow "#767676" "#FFFFFF").
  vm_compute; reflexivity.
Defined.

(** [snapToPassingColor('#888888', '#FFFFFF')] returns #767676 on
    #FFFFFF. *)
Lemma snap_reports_measured_ratio_witness :
  exists res,
    snapToPassingColor PowModel.pow "#888888" "#FFFFFF" noSnapOptions = OK res
    /\ fg res = "#767676" /\ bg res = "#FFFFFF"
    /\ contrastRatio PowModel.pow (fg res) (bg res) = OK (ratio res).
Proof.
  eexists. split; [vm_compute; reflexivity|].
  split; [reflexivity|]. split; [reflexivity|].
  eapply (snap_reports_measured_ratio PowModel.pow "#888888" "#FFFFFF"
            noSnapOptions).
  vm_compute; reflexivity.
Defined.

(** A colour against itself is returned as clamped. *)
Lemma snap_clamped_fails_witness :
  exists res,
    snapToPassingColor PowModel.pow "#808080" "808080" largeTextOptions
    = OK res /\
    clamped res = Some true /\
    passesContrast PowModel.pow (fg res) (bg res) largeTextOptions = OK false.
Proof.
  eexists. split; [vm_compute; reflexivity|]. split; [reflexivity|].
  eapply (snap_clamped_fails PowModel.pow "#808080" "808080");
    [vm_compute; reflexivity|reflexivity].
Defined.

Lemma snap_idempotent_witness :
  exists res,
    snapToPassingColor PowModel.pow "#888" "#ffffff" noSnapOptions = OK res /\
    clamped res <> Some true /\ adjusted res = Some Fg /\
    snapToPassingColor PowModel.pow (fg res) (bg res) noSnapOptions
    = OK {| fg := fg res; bg := bg res; ratio := ratio res;
            clamped := None; adjusted := None; iterations := None |}.
Proof.
  eexists. split; [vm_compute; reflexivity|]. split; [discriminate|].
  split; [reflexivity|].
  eapply (snap_idempotent PowModel.pow "#888" "#ffffff");
    [vm_compute; reflexivity|discriminate].
Defined.

(** The darken-foreground search of [snapToPassingColor('#888888',
    '#FFFFFF')]. *)
Lemma binarySearchLightness_iterations_witness :
  exists sr,
    binarySearchLightness PowModel.pow
      (rgbToHsl {| r := 136; g := 136; b := 136 |})
      {| r := 255; g := 255; b := 255 |} 4.5 true false 7 = OK sr /\
    (sr_iterations sr <= 7)%nat /\ (1 <= sr_iterations sr)%nat.
Proof.
  eexists. split; [vm_compute; reflexivity|].
  match goal with
  | |- (sr_iterations ?sr <= _)%nat /\ _ =>
      destruct (binarySearchLightness_iterations PowModel.pow
                  (rgbToHsl {| r := 136; g := 136; b := 136 |})
                  {| r := 255; g := 255; b := 255 |} 4.5%float true false 7
                  sr ltac:(vm_compute; reflexivity)) as (U & L & _)
  end.
  split; [exact U|apply L; lia].
Defined.

Lemma snap_iterations_bounds_witness :
  exists res k,
    snapToPassingColor PowModel.pow "#888888" "#FFFFFF" noSnapOptions = OK res
    /\ adjusted res = Some Fg /\ iterations res = Some k
    /\ (1 <= k <= 7)%nat.
Proof.
  eexists. eexists. split; [vm_compute; reflexivity|].
  split; [reflexivity|]. split; [reflexivity|].
  match goal with
  | |- (1 <= ?k <= 7)%nat =>
      eapply (proj2 (snap_iterations_bounds PowModel.pow "#888888" "#FFFFFF"
                       noSnapOptions _ ltac:(vm_compute; reflexivity)) k)
  end.
  reflexivity.
Defined.

(** [{ preferForegroundAdjust: true }] and [{}] give the same result. *)
Lemma snap_depends_on_two_choices_witness :
  snapToPassingColor PowModel.pow "#999999" "#AAAAAA" preferForegroundOptions
  = snapToPassingColor PowModel.pow "#999999" "#AAAAAA" noSnapOptions.
Proof.
  exact (snap_depends_on_two_choices PowModel.pow "#999999" "#AAAAAA"
           preferForegroundOptions noSnapOptions eq_refl eq_refl).
Defined.

(** Four candidates below the threshold, two of them with the highest
    ratio: the first of the two is kept. *)
Lemma best_effort_is_first_maximum_witness :
  let hsl := {| h := 0; s := 0; l := 50 |} in
  let rgb := {| r := 128; g := 128; b := 128 |} in
  let c1 := mkCandidate rgb 2.5 7 FgLighten in
  let c2 := mkCandidate rgb 4.25 7 FgDarken in
  let c3 := mkCandidate rgb 4.25 7 BgDarken in
  let c4 := mkCandidate rgb 1.5 7 BgLighten in
  chooseCandidate noSnapOptions 4.5 hsl hsl [c1; c2; c3; c4]
  = (Some c2, true) /\
  exists before after,
    [c1; c2; c3; c4] = (before ++ c2 :: after)%list /\
    Forall (ratioAbove c2) before /\ Forall (ratioAtLeast c2) after.
Proof.
  cbv zeta. split; [reflexivity|].
  refine (proj2 (best_effort_is_first_maximum noSnapOptions 4.5%float
                   {| h := 0; s := 0; l := 50 |} {| h := 0; s := 0; l := 50 |}
                   [mkCandidate {| r := 128; g := 128; b := 128 |} 2.5 7
                      FgLighten;
                    mkCandidate {| r := 128; g := 128; b := 128 |} 4.25 7
                      FgDarken;
                    mkCandidate {| r := 128; g := 128; b := 128 |} 4.25 7
                      BgDarken;
                    mkCandidate {| r := 128; g := 128; b := 128 |} 1.5 7
                      BgLighten]
                   (mkCandidate {| r := 128; g := 128; b := 128 |} 4.25 7
                      FgDarken) _ eq_refl)).
  repeat constructor.
Defined.

(** The darken search from the gray #C9C9C9 against #E2E2E2. *)
Lemma search_from_gray_returns_gray_witness :
  let gray := {| r := 201; g := 201; b := 201 |} in
  isFinite (201 / 255) = true /\
  exists sr,
    binarySearchLightness PowModel.pow (rgbToHsl gray)
      {| r := 226; g := 226; b := 226 |} 4.5 true false 7 = OK sr /\
    rgbToHex (sr_rgb sr) = "#636363" /\ isGray (sr_rgb sr).
Proof.
  cbv zeta. split; [reflexivity|].
  eexists. split; [vm_compute; reflexivity|]. split; [reflexivity|].
  eapply (search_from_gray_returns_gray PowModel.pow 201
            {| r := 226; g := 226; b := 226 |} 4.5%float true false 7);
    [reflexivity|vm_compute; reflexivity].
Defined.

(** *** The guard on a small theme *)

(** A theme whose text and border are too light, with an inset focus ring
    and no component background. *)
Lemma sanitize_keeps_keys_witness :
  let tokens := [("--text-primary", "#888888"); ("--bg-primary", "#FFFFFF");
                 ("--focus-ring-inset", "#DDDDDD");
                 ("--border-primary", "#BBBBBB")] in
  exists res,
    sanitizeThemeTokens PowModel.pow noFormat noFormat tokens loggingOptions
    = OK res /\
    sanitizedTokens res
    = [("--text-primary", "#767676"); ("--bg-primary", "#FFFFFF");
       ("--focus-ring-inset", "#949494"); ("--border-primary", "#949494")] /\
    map fst (sanitizedTokens res) = map fst tokens.
Proof.
  cbv zeta. eexists. split; [vm_compute; reflexivity|].
  split; [reflexivity|].
  eapply (sanitize_keeps_keys PowModel.pow noFormat noFormat
            [("--text-primary", "#888888"); ("--bg-primary", "#FFFFFF");
             ("--focus-ring-inset", "#DDDDDD");
             ("--border-primary", "#BBBBBB")] loggingOptions).
  vm_compute; reflexivity.
Defined.

Lemma sanitize_values_witness :
  let tokens := [("--text-primary", "#888"); ("--bg-primary", "#fff")] in
  exists res,
    sanitizeThemeTokens PowModel.pow noFormat noFormat tokens
      noThemeGuardOptions = OK res /\
    getToken "--text-primary" (sanitizedTokens res) = Some "#767676" /\
    (getToken "--text-primary" tokens = Some "#767676"
     \/ isCanonicalHex "#767676" = true) /\
    getToken "--bg-primary" (sanitizedTokens res) = Some "#fff" /\
    (getToken "--bg-primary" tokens = Some "#fff"
     \/ isCanonicalHex "#fff" = true).
Proof.
  cbv zeta. eexists. split; [vm_compute; reflexivity|].
  split; [reflexivity|].
  match goal with
  | |- _ /\ getToken _ (sanitizedTokens ?res) = _ /\ _ =>
      pose proof (sanitize_values PowModel.pow noFormat noFormat
                    [("--text-primary", "#888"); ("--bg-primary", "#fff")]
                    noThemeGuardOptions res
                    ltac:(vm_compute; reflexivity)) as V
  end.
  split; [exact (V "--text-primary" "#767676" eq_refl)|].
  split; [reflexivity|].
  exact (V "--bg-primary" "#fff" eq_refl).
Defined.

(** A text colour equal to its background cannot be repaired: one failed
    pair, clamped, listed twice. *)
Lemma sanitize_summary_witness :
  exists res,
    sanitizeThemeTokens PowModel.pow noFormat noFormat
      [("--text-primary", "#FFFFFF"); ("--bg-primary", "#FFFFFF")]
      loggingOptions = OK res /\
    summary res = mkSummary 23 2 1 1 /\ status res = Fail /\
    exists failed : nat,
      violationCount (summary res) = List.length (violations res) /\
      adjustmentCount (summary res) = List.length (adjustments res) /\
      violationCount (summary res)
      = (failed + clampedTotal (summary res))%nat /\
      (clampedTotal (summary res) <= failed)%nat /\
      (failed <= totalChecks (summary res))%nat /\
      adjustmentCount (summary res)
      = (if truthy (logAdjustments loggingOptions) then failed else 0%nat) /\
      status res
      = (if (failed =? 0)%nat then Pass
         else if (clampedTotal (summary res) =? 0)%nat then Warnings
         else Fail).
Proof.
  eexists. split; [vm_compute; reflexivity|].
  split; [reflexivity|]. split; [reflexivity|].
  eapply (sanitize_summary PowModel.pow noFormat noFormat
            [("--text-primary", "#FFFFFF"); ("--bg-primary", "#FFFFFF")]
            loggingOptions).
  vm_compute; reflexivity.
Defined.

Lemma sanitize_pass_changes_nothing_witness :
  let tokens := [("--text-primary", "#ffffff"); ("--bg-primary", "#000000")] in
  exists res,
    sanitizeThemeTokens PowModel.pow noFormat noFormat tokens loggingOptions
    = OK res /\
    status res = Pass /\
    sanitizedTokens res = tokens /\ violations res = [] /\
    adjustments res = [].
Proof.
  cbv zeta. eexists. split; [vm_compute; reflexivity|].
  split; [reflexivity|].
  eapply (sanitize_pass_changes_nothing PowModel.pow noFormat noFormat
            [("--text-primary", "#ffffff"); ("--bg-primary", "#000000")]
            loggingOptions);
    [vm_compute; reflexivity|reflexivity].
Defined.

(** Tokens named after a logo are checked like any other. *)
Lemma sanitize_never_exempts_witness :
  exists res,
    sanitizeThemeTokens PowModel.pow noFormat noFormat
      [("--text-logo", "#888888"); ("--text-primary", "#888888");
       ("--bg-primary", "#FFFFFF")] noThemeGuardOptions = OK res /\
    exemptions res = None.
Proof.
  eexists. split; [vm_compute; reflexivity|].
  eapply (sanitize_never_exempts PowModel.pow noFormat noFormat
            [("--text-logo", "#888888"); ("--text-primary", "#888888");
             ("--bg-primary", "#FFFFFF")] noThemeGuardOptions).
  vm_compute; reflexivity.
Defined.

(** The border of the small theme is repaired to #949494, of ratio about
    3.03 against white; the log records 4.5 as the threshold used. *)
Lemma sanitize_logged_thresholds_witness :
  exists res a,
    sanitizeThemeTokens PowModel.pow noFormat noFormat
      [("--bg-primary", "#FFFFFF"); ("--border-primary", "#BBBBBB")]
      loggingOptions = OK res /\
    adjustments res = [a] /\
    log_thresholdType a = UiComponent /\ log_adjusted a = "#949494 on #FFFFFF"
    /\ log_clamped a = false /\ (log_ratio a <? 3.1)%float = true /\
    log_thresholdUsed a = 4.5%float /\
    JS.geb (log_ratio a) (3.0 - EPSILON) = true.
Proof.
  eexists. eexists. split; [vm_compute; reflexivity|].
  split; [reflexivity|]. split; [reflexivity|]. split; [reflexivity|].
  split; [reflexivity|]. split; [reflexivity|].
  match goal with
  | |- log_thresholdUsed ?a = _ /\ _ =>
      pose proof (sanitize_logged_thresholds PowModel.pow noFormat noFormat
                    [("--bg-primary", "#FFFFFF");
                     ("--border-primary", "#BBBBBB")]
                    loggingOptions _ ltac:(vm_compute; reflexivity)) as F;
      apply Forall_inv in F; destruct F as [_ F];
      destruct (F eq_refl) as [U G]
  end.
  split; [exact U|exact (G eq_refl)].
Defined.

(** A colour written as [rgb(...)]. *)
Lemma sanitize_throws_on_invalid_colour_witness :
  sanitizeThemeTokens PowModel.pow noFormat noFormat
    [("--text-primary", "rgb(0, 0, 0)"); ("--bg-primary", "#FFFFFF")]
    noThemeGuardOptions
  = Throw (Error "Invalid hex color format: rgb(0, 0, 0). Expected #RGB or #RRGGBB format.").
Proof.
  exact (sanitize_throws_on_invalid_colour PowModel.pow noFormat noFormat
           [("--text-primary", "rgb(0, 0, 0)"); ("--bg-primary", "#FFFFFF")]
           noThemeGuardOptions "rgb(0, 0, 0)" "#FFFFFF"
           eq_refl eq_refl eq_refl eq_refl eq_refl eq_refl).
Defined.

(** *** Statements without a premise, on concrete inputs *)

Lemma toHex_saturates_witness :
  toHex (-7) = "00" /\ toHex 300 = "FF" /\ toHex nan = "NAN".
Proof.
  split; [|split].
  - exact (proj1 (toHex_saturates (-7)) eq_refl).
  - exact (proj1 (proj2 (toHex_saturates 300)) eq_refl).
  - exact (proj2 (proj2 (toHex_saturates nan)) eq_refl).
Defined.

(** Three digits with the '#' between the second and the third. *)
Lemma hexToRgb_accepts_iff_witness : exists rgb, hexToRgb "12#3" = OK rgb.
Proof.
  apply (proj2 (hexToRgb_accepts_iff "12#3" eq_refl)).
  exists "12", "3". split; [now right|]. split; [now left|reflexivity].
Defined.

Lemma contrast_errors_witness :
  contrastRatio PowModel.pow "red" "blue"
  = Throw (Error "Invalid hex color format: red. Expected #RGB or #RRGGBB format.")
  /\ passesContrast PowModel.pow "#fff" "blue" noContrastOptions
     = Throw (Error "Invalid hex color format: blue. Expected #RGB or #RRGGBB format.").
Proof.
  destruct (contrast_errors PowModel.pow "red" "blue" noContrastOptions
              noSnapOptions) as (E1 & _).
  destruct (contrast_errors PowModel.pow "#fff" "blue" noContrastOptions
              noSnapOptions) as (_ & E2 & _).
  split.
  - exact (proj1 (E1 eq_refl)).
  - exact (proj1 (proj2 (E2 eq_refl eq_refl))).
Defined.

(** Bold text of 18.8 px. *)
Lemma large_text_helpers_differ_witness :
  isLargeTextFromCSS 18.8 (Some 700%float) = true /\
  isLargeTextPerWCAG 18.8 (Some 700%float) = false.
Proof.
  destruct (large_text_helpers_differ 18.8 (Some 700%float)) as [E D].
  split; [|exact (D eq_refl)].
  rewrite E. reflexivity.
Defined.

(** An inset ring and no background at all: the fallback pair is added
    and a warning is issued. *)
Lemma validateFocusRings_pairs_witness :
  let v := validateFocusRings [("--focus-ring-inset", "#DDDDDD")] in
  additionalPairs v = [focusPair "--focus-ring-inset" "--bg-primary"] /\
  insetValidated v = true /\
  (exists p, In p (additionalPairs v) /\ p_fg p = "--focus-ring-inset") /\
  warnings v <> [].
Proof.
  cbv zeta. split; [reflexivity|]. split; [reflexivity|].
  destruct (validateFocusRings_pairs [("--focus-ring-inset", "#DDDDDD")])
    as (_ & I & _ & _).
  split; [exact (I eq_refl)|discriminate].
Defined.
